(** * SimulationRunner: the two numerical kernels

    A shallow embedding of [get_neutrino_masses]
    (SimulationRunner/simulationics.py) and [change_power_spectrum_knots]
    (SimulationRunner/lyasimulation.py).

    Both functions are written once, over an interface [Arith] of the
    float operations numpy applies, and read at two instances:

    - [binary64]: IEEE-754 double precision (Rocq's primitive floats), the
      arithmetic Python runs; every definition computes with [vm_compute],
      and mass conservation is proved there from the rounding error of
      each operation;
    - [exact]: the real numbers extended with one non-finite value, i.e.
      the same formulas without rounding, overflow or underflow, where the
      algebraic statements are proved.

    A Python exception is a value [Raise e] of the [result] type. The
    constructors of the simulation classes, [generate_times] and the part
    of [cambfile] before CLASS runs are modelled as well. *)

From Stdlib Require Import String Ascii.
From Stdlib Require Import List Bool Arith ZArith QArith Lia.
From Stdlib Require Import Reals Lra Floats Uint63.
From Stdlib Require Import Sorted Permutation.
Import ListNotations.

Close Scope Q_scope.
Close Scope R_scope.
Open Scope nat_scope.
Set Warnings "-inexact-float".

(* ================================================================== *)
(** ** Exceptions *)

Inductive exn : Type :=
| AssertionError
| IndexError
| ValueError.

Inductive result (T : Type) : Type :=
| Ok (v : T)
| Raise (e : exn).

Arguments Ok {T} v.
Arguments Raise {T} e.

Definition bind {T U : Type} (r : result T) (k : T -> result U) : result U :=
  match r with
  | Ok v => k v
  | Raise e => Raise e
  end.

(** Python's [assert]. *)
Definition assert (b : bool) : result unit :=
  if b then Ok tt else Raise AssertionError.

Declare Scope py_scope.
Delimit Scope py_scope with py.
Notation "x <- e ;; k" := (bind e (fun x => k))
  (at level 61, e at next level, right associativity) : py_scope.
Notation "'assert!' b ;; k" := (bind (assert b) (fun _ => k))
  (at level 61, b at next level, right associativity) : py_scope.

Fixpoint mapM {T U : Type} (f : T -> result U) (l : list T) : result (list U) :=
  match l with
  | [] => Ok []
  | x :: r =>
      match f x with
      | Ok y => match mapM f r with
                | Ok ys => Ok (y :: ys)
                | Raise e => Raise e
                end
      | Raise e => Raise e
      end
  end.

(* ================================================================== *)
(** ** The float operations the two functions use *)

Class Arith : Type := {
  num : Type;
  of_Q : Q -> num;            (* a decimal literal of the source *)
  add : num -> num -> num;
  sub : num -> num -> num;
  mul : num -> num -> num;
  div : num -> num -> num;
  opp : num -> num;
  sqrt : num -> num;          (* np.sqrt *)
  abs : num -> num;           (* np.abs *)
  ltb : num -> num -> bool;   (* <  *)
  leb : num -> num -> bool;   (* <= *)
  eqb : num -> num -> bool;   (* == *)
  is_finite : num -> bool     (* np.isfinite *)
}.

Declare Scope num_scope.
Delimit Scope num_scope with num.
Notation "# q" := (of_Q q%Q) (at level 5, format "# q") : num_scope.
Infix "+" := add : num_scope.
Infix "-" := sub : num_scope.
Infix "*" := mul : num_scope.
Infix "/" := div : num_scope.
Notation "- x" := (opp x) : num_scope.
Infix "<?" := ltb : num_scope.
Infix "<=?" := leb : num_scope.
Infix "=?" := eqb : num_scope.

(* ------------------------------------------------------------------ *)
(** *** IEEE-754 binary64 *)

Module B64.

Definition of_Z (z : Z) : float :=
  match z with
  | Z0 => 0%float
  | Zpos _ => PrimFloat.of_uint63 (Uint63.of_Z z)
  | Zneg p => PrimFloat.opp (PrimFloat.of_uint63 (Uint63.of_Z (Zpos p)))
  end.

(** A decimal literal [n/d] of the source, numerator and denominator
    below 2^53: one correctly rounded division gives the double nearest
    to the literal, which is what Python's parser produces. *)
Definition of_Q (q : Q) : float :=
  PrimFloat.div (of_Z (Qnum q)) (of_Z (Zpos (Qden q))).

End B64.

#[export] Instance binary64 : Arith := {|
  num := float;
  of_Q := B64.of_Q;
  add := PrimFloat.add;
  sub := PrimFloat.sub;
  mul := PrimFloat.mul;
  div := PrimFloat.div;
  opp := PrimFloat.opp;
  sqrt := PrimFloat.sqrt;
  abs := PrimFloat.abs;
  ltb := PrimFloat.ltb;
  leb := PrimFloat.leb;
  eqb := PrimFloat.eqb;
  is_finite := PrimFloat.is_finite
|}.

(* ------------------------------------------------------------------ *)
(** *** Exact arithmetic: the reals with one non-finite value

    [NaN] stands for every non-finite float (an infinity or a NaN): it is
    what a division by zero, the square root of a negative number or the
    logarithm of a non-positive number give, it is absorbing, and every
    comparison with it is false. *)

Inductive xreal : Type :=
| Fin (r : R)
| NaN.

Module X.

Definition lift1 (f : R -> R) (x : xreal) : xreal :=
  match x with
  | Fin a => Fin (f a)
  | NaN => NaN
  end.

Definition lift2 (f : R -> R -> R) (x y : xreal) : xreal :=
  match x, y with
  | Fin a, Fin b => Fin (f a b)
  | _, _ => NaN
  end.

Definition div (x y : xreal) : xreal :=
  match x, y with
  | Fin a, Fin b => if Req_dec_T b 0 then NaN else Fin (a / b)
  | _, _ => NaN
  end.

Definition sqrt (x : xreal) : xreal :=
  match x with
  | Fin a => if Rlt_dec a 0 then NaN else Fin (R_sqrt.sqrt a)
  | NaN => NaN
  end.

Definition log (x : xreal) : xreal :=
  match x with
  | Fin a => if Rlt_dec 0 a then Fin (ln a) else NaN
  | NaN => NaN
  end.

Definition exp (x : xreal) : xreal := lift1 Rtrigo_def.exp x.

Definition ltb (x y : xreal) : bool :=
  match x, y with
  | Fin a, Fin b => if Rlt_dec a b then true else false
  | _, _ => false
  end.

Definition leb (x y : xreal) : bool :=
  match x, y with
  | Fin a, Fin b => if Rle_dec a b then true else false
  | _, _ => false
  end.

Definition eqb (x y : xreal) : bool :=
  match x, y with
  | Fin a, Fin b => if Req_dec_T a b then true else false
  | _, _ => false
  end.

Definition is_finite (x : xreal) : bool :=
  match x with
  | Fin _ => true
  | NaN => false
  end.

End X.

#[export] Instance exact : Arith := {|
  num := xreal;
  of_Q := fun q => Fin (Q2R q);
  add := X.lift2 Rplus;
  sub := X.lift2 Rminus;
  mul := X.lift2 Rmult;
  div := X.div;
  opp := X.lift1 Ropp;
  sqrt := X.sqrt;
  abs := X.lift1 Rabs;
  ltb := X.ltb;
  leb := X.leb;
  eqb := X.eqb;
  is_finite := X.is_finite
|}.

(** The same notations, read in exact arithmetic. *)
Declare Scope x_scope.
Delimit Scope x_scope with x.
Notation "# q" := (@of_Q exact q%Q) (at level 5, format "# q") : x_scope.
Infix "+" := (@add exact) : x_scope.
Infix "-" := (@sub exact) : x_scope.
Infix "*" := (@mul exact) : x_scope.
Infix "/" := (@div exact) : x_scope.
Notation "- x" := (@opp exact x) : x_scope.
Infix "<?" := (@ltb exact) : x_scope.
Infix "<=?" := (@leb exact) : x_scope.
Infix "=?" := (@eqb exact) : x_scope.

(* ================================================================== *)
(** ** get_neutrino_masses (simulationics.py) *)

Section Neutrino.

Context {A : Arith}.
Local Open Scope num_scope.
Local Open Scope py_scope.

(** [x**2]: the power with exponent 2 is the rounded product. *)
Definition sq (x : num) : num := x * x.

(** Neutrino mass splittings (eV^2). *)
Definition nu_M21 : num := #7.53e-5.
Definition nu_M32n : num := #2.44e-3.
Definition nu_M32i : num := #2.51e-3.

(** The smallest total mass each hierarchy allows. *)
Definition normal_threshold : num := sqrt nu_M32n + sqrt nu_M21.
Definition inverted_threshold : num := #2 * sqrt nu_M32i - sqrt nu_M21.

(** [DD1]: the summed masses of the two closest neutrinos, last term
    neglected. *)
Definition DD1 (total_mass nu_M32 : num) : num :=
  #4 * total_mass / #3
  - #2 / #3 * sqrt (sq total_mass + #3 * nu_M32 + #1.5 * nu_M21).

Definition DD (total_mass nu_M32 : num) : num :=
  #4 * total_mass / #3
  - #2 / #3 * sqrt (sq total_mass + #3 * nu_M32 + #1.5 * nu_M21
                    + #0.75 * sq nu_M21 / sq (DD1 total_mass nu_M32)).

Definition nu_masses (total_mass nu_M32 : num) : list num :=
  let dd := DD total_mass nu_M32 in
  [ total_mass - dd;
    #0.5 * (dd + nu_M21 / dd);
    #0.5 * (dd - nu_M21 / dd) ].

(** The tail of the function, from [DD1 = ...] to [return nu_masses]. *)
Definition split_masses (total_mass nu_M32 : num) : result (list num) :=
  let dd1 := DD1 total_mass nu_M32 in
  let dd := DD total_mass nu_M32 in
  let masses := nu_masses total_mass nu_M32 in
  assert! is_finite dd ;;
  assert! (abs (dd1 / dd - #1) <? #2e-2) ;;
  assert! forallb (fun m => #0 <=? m) masses ;;
  Ok masses.

Definition get_neutrino_masses (total_mass : num) (hierarchy : string)
  : result (list num) :=
  if String.eqb hierarchy "normal" then
    if total_mass <? normal_threshold
    then Ok [total_mass; #0; #0]
    else split_masses total_mass nu_M32n
  else if String.eqb hierarchy "inverted" then
    if total_mass <? inverted_threshold
    then Ok [total_mass / #2; total_mass / #2; #0]
    else split_masses total_mass (- nu_M32i)
  else
    (* np.ones(3)*total_mass/3. *)
    Ok (map (fun one => one * total_mass / #3) [#1; #1; #1]).

(** [sum] of a sequence, left to right from 0. *)
Definition sum (l : list num) : num := fold_left add l #0.

End Neutrino.

(* ================================================================== *)
(** ** The numpy and scipy operations of change_power_spectrum_knots *)

Section Numpy.

Context {A : Arith}.
Local Open Scope num_scope.

(** [l[i]] with Python's negative indices. *)
Definition item {T : Type} (l : list T) (i : Z) : result T :=
  let n := Z.of_nat (length l) in
  let j := if (i <? 0)%Z then (i + n)%Z else i in
  if ((0 <=? j) && (j <? n))%Z
  then match nth_error l (Z.to_nat j) with
       | Some v => Ok v
       | None => Raise IndexError
       end
  else Raise IndexError.

(** [l[a:b]] for [0 <= a] and [0 <= b]. *)
Definition slice {T : Type} (l : list T) (a b : nat) : list T :=
  firstn (b - a) (skipn a l).

(** [np.all(l)] of a sequence of numbers: no entry is zero. *)
Definition np_all (l : list num) : bool :=
  forallb (fun x => negb (x =? #0)) l.

(** A numpy boolean compared with a float counts as 1.0 or 0.0. *)
Definition of_bool (b : bool) : num := if b then #1 else #0.

(** [np.all([k1 < k1p for (k1, k1p) in zip(l[:-1], l[1:])])]. *)
Fixpoint increasing (l : list num) : bool :=
  match l with
  | k1 :: ((k1p :: _) as r) => (k1 <? k1p) && increasing r
  | _ => true
  end.

(** [np.searchsorted(a, v)] (side left) on a sorted [a]: the number of
    entries of [a] below [v], i.e. the first index [i] with
    [v <= a[i]]. *)
Fixpoint searchsorted (a : list num) (v : num) : nat :=
  match a with
  | [] => 0
  | x :: r => if x <? v then S (searchsorted r v) else 0
  end.

(** [np.insert(arr, obj, values)] for an index array [obj]: [values[j]]
    goes before the entry that had index [obj[j]]; values with the same
    index keep their order. *)
Fixpoint insert_from {T : Type} (i : nat) (arr : list T)
  (ivs : list (nat * T)) : list T :=
  map snd (filter (fun p => Nat.eqb (fst p) i) ivs) ++
  match arr with
  | [] => []
  | a :: r => a :: insert_from (S i) r ivs
  end.

Definition np_insert {T : Type} (arr : list T) (obj : list nat)
  (values : list T) : result (list T) :=
  if forallb (fun i => Nat.leb i (length arr)) obj
  then Ok (insert_from 0 arr (combine obj values))
  else Raise IndexError.

(** [np.delete(arr, obj)] for in-range indices [obj] (those of
    [np.where] are). *)
Fixpoint delete_from {T : Type} (i : nat) (arr : list T) (obj : list nat)
  : list T :=
  match arr with
  | [] => []
  | a :: r =>
      if existsb (Nat.eqb i) obj
      then delete_from (S i) r obj
      else a :: delete_from (S i) r obj
  end.

Definition np_delete {T : Type} (arr : list T) (obj : list nat) : list T :=
  delete_from 0 arr obj.

(** [np.where(np.abs(kval[1:] - kval[:-1]) < 1e-5 * kval[1:])]: the
    indices [i] whose successor is within 1e-5 (relative) of entry [i]. *)
Fixpoint where_close (i : nat) (kval : list num) : list nat :=
  match kval with
  | k0 :: ((k1 :: _) as r) =>
      (if abs (k1 - k0) <? #1e-5 * k1 then [i] else [])
      ++ where_close (S i) r
  | _ => []
  end.

(** [np.unique(l)], up to order: one representative of each value. *)
Fixpoint np_unique (l : list num) : list num :=
  match l with
  | [] => []
  | x :: r => if existsb (eqb x) r then np_unique r else x :: np_unique r
  end.

(** *** scipy.interpolate.interp1d *)

(** The stable sort by [x] that [interp1d] applies to its samples
    ([assume_sorted=False]). *)
Fixpoint insert_xy (p : num * num) (l : list (num * num))
  : list (num * num) :=
  match l with
  | [] => [p]
  | q :: r => if fst q <? fst p then q :: insert_xy p r else p :: q :: r
  end.

Definition sort_xy (l : list (num * num)) : list (num * num) :=
  fold_right insert_xy [] l.

Inductive kind : Type := linear | cubic.

Record interpolant : Type := {
    i_kind : kind;
    i_x : list num;
    i_y : list num
  }.

(** The constructor: at least [order + 1] samples for a spline. *)
Definition interp1d (x y : list num) (k : kind) : result interpolant :=
  let xy := sort_xy (combine x y) in
  let minval := match k with linear => 1 | cubic => 4 end in
  if Nat.ltb (length xy) minval then Raise ValueError
  else Ok {| i_kind := k; i_x := map fst xy; i_y := map snd xy |}.

(** The cubic spline through the samples is scipy's; its values are not
    modelled. *)
Variable spline : list num -> list num -> num -> num.

(** The linear interpolant at [x_new], as scipy's [_call_linear] computes
    it (at least two samples, so that both indices are in range):
    [searchsorted], clipped to [1 .. len(x)-1], gives the right end
    [hi] of the interval, and
    [y_new = slope*(x_new - x_lo) + y_lo]. (A release of scipy that hands
    the one-dimensional case to [np.interp] evaluates the same chord, with
    the interval closed on its left end instead.) *)
Definition linear_at (x y : list num) (x_new : num) : num :=
  let hi := Nat.min (Nat.max (searchsorted x x_new) 1) (length x - 1) in
  let lo := (hi - 1)%nat in
  let x_lo := nth lo x #0 in
  let x_hi := nth hi x #0 in
  let y_lo := nth lo y #0 in
  let y_hi := nth hi y #0 in
  let slope := (y_hi - y_lo) / (x_hi - x_lo) in
  slope * (x_new - x_lo) + y_lo.

(** Calling the interpolant: with the default [bounds_error], a point
    outside [[x[0], x[-1]]] raises ValueError. *)
Definition call (f : interpolant) (x_new : list num) : result (list num) :=
  let x0 := hd #0 (i_x f) in
  let xn := last (i_x f) #0 in
  if existsb (fun v => (v <? x0) || (xn <? v)) x_new
  then Raise ValueError
  else Ok (map (match i_kind f with
                | linear => linear_at (i_x f) (i_y f)
                | cubic => spline (i_x f) (i_y f)
                end) x_new).

End Numpy.

(* ================================================================== *)
(** ** change_power_spectrum_knots (lyasimulation.py) *)

Section Knots.

Context {A : Arith}.
Variables np_log np_exp : num -> num.
Variable spline : list num -> list num -> num -> num.
Local Open Scope num_scope.
Local Open Scope py_scope.

(** [(a + b)/2.], entry by entry. *)
Fixpoint mid (a b : list num) : list num :=
  match a, b with
  | x :: a', y :: b' => (x + y) / #2 :: mid a' b'
  | _, _ => []
  end.

(** [pval *= dpk(kval)], entry by entry. *)
Fixpoint times (p c : list num) : list num :=
  match p, c with
  | x :: p', y :: c' => x * y :: times p' c'
  | _, _ => []
  end.

(** [i_limits] and [(imin, imax)]: the window of the table the cubic
    interpolant is built on. *)
Definition window (knotpos kval : list num) : result (nat * nat) :=
  p_first <- item knotpos 0 ;;
  p_last <- item knotpos (-1) ;;
  (* i_limits[0], i_limits[-1] *)
  let i_lo := searchsorted kval (p_first * #0.66) in
  let i_hi := searchsorted kval (p_last * #1.5) in
  Ok (Z.to_nat (Z.max 0 (Z.of_nat i_lo - 5)),
      Z.to_nat (Z.min (Z.of_nat (length kval) - 1) (Z.of_nat i_hi + 5))).

(** [ins_knotpos]: the knots and, for each knot, the midpoint of the
    two window samples around it. *)
Definition insert_points (knotpos ksub : list num) : result (list num) :=
  let locations := map (searchsorted ksub) knotpos in
  above <- mapM (fun l => item ksub (Z.of_nat l)) locations ;;
  below <- mapM (fun l => item ksub (Z.of_nat l - 1)) locations ;;
  let midpoints := mid above below in
  let kplocs := map (searchsorted knotpos) midpoints in
  np_insert knotpos kplocs midpoints.

(** The body from [i_limits = ...] to the two [np.insert]: the table with
  a new row at each knot and at each midpoint, [P] there read off the
  cubic interpolant of the window, in log-log. *)
Definition insert_rows (knotpos kval pval : list num)
  : result (list num * list num) :=
  w <- window knotpos kval ;;
  let (imin, imax) := w in
  let ksub := slice kval imin imax in
  pint <- interp1d (map np_log ksub) (map np_log (slice pval imin imax))
                   cubic ;;
  ins_knotpos <- insert_points knotpos ksub ;;
  let index := map (searchsorted kval) ins_knotpos in
  kval <- np_insert kval index ins_knotpos ;;
  ins_logp <- call spline pint (map np_log ins_knotpos) ;;
  pval <- np_insert pval index (map np_exp ins_logp) ;;
  Ok (kval, pval).

(** ... and on to the check that no row was added twice: the augmented
    table, before it is multiplied. *)
Definition augment_table (knotpos kval pval : list num)
  : result (list num * list num) :=
  kp <- insert_rows knotpos kval pval ;;
  let (kval, pval) := kp in
  let collision := where_close 0 kval in
  let kval := if Nat.ltb 0 (length collision)
              then np_delete kval collision else kval in
  let pval := if Nat.ltb 0 (length collision)
              then np_delete pval collision else pval in
  assert! Nat.eqb (length (np_unique kval)) (length kval) ;;
  Ok (kval, pval).

(** The knots with the two boundary knots. *)
Definition ext_knotpos (k_first : num) (knotpos : list num) (k_last : num)
  : list num :=
  [k_first * #0.95] ++ knotpos ++ [k_last * #1.05].

Definition ext_knotval (v_first : num) (knotval : list num) (v_last : num)
  : list num :=
  [v_first] ++ knotval ++ [v_last].

(** Rows are the pairs [(k, P)] of the two-column table [matpow]. *)
Definition change_power_spectrum_knots
  (knotpos knotval : list num) (matpow : list (num * num))
  : result (list (num * num)) :=
  assert! increasing knotpos ;;
  assert! Nat.eqb (length knotval) (length knotpos) ;;
  let kval := map fst matpow in
  let pval := map snd matpow in
  assert! (#0 <? of_bool (np_all knotpos)) ;;
  k_first <- item kval 0 ;;
  assert! ((k_first <? of_bool (np_all knotpos)) &&
           match item kval (-1) with
           | Ok k_last => of_bool (np_all knotpos) <? k_last
           | Raise _ => false
           end) ;;
  k_last <- item kval (-1) ;;
  assert! (#0 <? of_bool (np_all knotval)) ;;
  v_first <- item knotval 0 ;;
  v_last <- item knotval (-1) ;;
  let ext_pos := ext_knotpos k_first knotpos k_last in
  let ext_val := ext_knotval v_first knotval v_last in
  assert! (Nat.eqb (length ext_pos) (length ext_val) &&
           Nat.eqb (length ext_pos) (length knotval + 2)) ;;
  kp <- augment_table knotpos kval pval ;;
  let (kval, pval) := kp in
  dpk <- interp1d ext_pos ext_val linear ;;
  factor <- call spline dpk kval ;;
  Ok (combine kval (times pval factor)).

End Knots.

(* ================================================================== *)
(** ** The vocabulary of the statements *)

Section Vocabulary.

Context {A : Arith}.
Local Open Scope num_scope.

(** The precondition of [change_power_spectrum_knots], as its comments and
    docstring give it: the table has positive, increasing [k]; the knots
    are increasing, as many as their values and strictly inside the
    table's range; the knot values are positive. *)
Definition valid_input (knotpos knotval : list num)
  (matpow : list (num * num)) : bool :=
  let kval := map fst matpow in
  increasing kval
  && forallb (fun k => #0 <? k) kval
  && increasing knotpos
  && Nat.eqb (length knotval) (length knotpos)
  && forallb (fun p => (hd #0 kval <? p) && (p <? last kval #0)) knotpos
  && forallb (fun v => #0 <? v) knotval.

(** [a] is within relative tolerance [rtol] of [b]. *)
Definition rel_close (a b rtol : num) : bool :=
  abs (a - b) <=? rtol * abs b.

(** The test of [np.where] on two neighbours. *)
Definition close (k0 k1 : num) : bool := abs (k1 - k0) <? #1e-5 * k1.

Section Keyed.

Context {T : Type} (key : T -> num).

(** What [np.insert(arr, np.searchsorted(arr, vs), vs)] builds, by
    recursion on [arr]: before an entry [a] go the new values that are
    not above [a]. *)
Fixpoint merge_in (arr vs : list T) : list T :=
  match arr with
  | [] => vs
  | a :: r =>
      filter (fun v => negb (key a <? key v)) vs
      ++ a :: merge_in r (filter (fun v => key a <? key v) vs)
  end.

(** [np.delete(l, np.where(close))], by recursion on [l]: an entry goes
    when its successor is within 1e-5 (relative) of it. *)
Fixpoint dedup (l : list T) : list T :=
  match l with
  | a :: ((b :: _) as r) =>
      if close (key a) (key b) then dedup r else a :: dedup r
  | _ => l
  end.

End Keyed.

End Vocabulary.

(** 5e-324, the smallest positive double. *)
Definition tiny : float := 0x1p-1074%float.

(* ------------------------------------------------------------------ *)
(** *** The real number a double stands for

    [Prim2SF] reads a double as a sign, a mantissa and an exponent (or a
    zero, an infinity, a NaN), and the axioms of the primitive floats
    give each operation as the operation of [SpecFloat] on these. The
    statements about rounding are made on the real numbers they stand
    for. *)

(** [2^e] as a real number. *)
Definition bpow (e : Z) : R := powerRZ 2 e.

(** The real number a float stands for; 0 for an infinity or a NaN. *)
Definition SF2R (x : spec_float) : R :=
  match x with
  | S754_finite s m e => (IZR (cond_Zopp s (Zpos m)) * bpow e)%R
  | _ => 0%R
  end.

Definition SF_finite (x : spec_float) : bool :=
  match x with
  | S754_zero _ | S754_finite _ _ _ => true
  | _ => false
  end.

Definition B2R (x : float) : R := SF2R (Prim2SF x).

(** The relative and the absolute error of one rounding, both crude:
    rounding to nearest halves them. *)
Definition eps : R := bpow (-52).
Definition eta : R := bpow (-1074).

Definition Rsign (s : bool) (r : R) : R := if s then (- r)%R else r.

(** [z] is what rounding the real number [V] gives: a float within the
    rounding error of [V], or the infinity of the sign of [V] when [V] is
    too large; never a NaN. *)
Definition rounds_to (z : spec_float) (V : R) : Prop :=
  match z with
  | S754_nan => False
  | S754_infinity s =>
      (bpow emax <= (1 + eps) * Rabs V + eta)%R /\
      (if s then V < 0 else 0 < V)%R
  | _ => (Rabs (SF2R z - V) <= eps * Rabs V + eta)%R
  end.

Section ExactVocabulary.

#[local] Existing Instance exact | 0.
Local Open Scope x_scope.

Local Abbreviation searchsorted := (@searchsorted exact).

Definition fin (x : xreal) : Prop := X.is_finite x = true.

(** A list of numbers is its own list of keys. *)
Definition idk (k : xreal) : xreal := k.

(** The midpoint of the two window samples around a knot. *)
Definition midpoint_at (ksub : list xreal) (p : xreal) : xreal :=
  let loc := searchsorted ksub p in
  (nth loc ksub #0 + nth (loc - 1)%nat ksub #0) / #2.

Definition bracketed (ksub : list xreal) (p : xreal) : Prop :=
  (1 <= searchsorted ksub p)%nat /\
  (searchsorted ksub p < length ksub)%nat.

(** The correction factor at [k]: the linear interpolant of the extended
    knots. *)
Definition knot_factor (knotpos knotval : list xreal)
  (matpow : list (xreal * xreal)) (k : xreal) : xreal :=
  linear_at
    (ext_knotpos (hd #0 (map fst matpow)) knotpos (last (map fst matpow) #0))
    (ext_knotval (hd #0 knotval) knotval (last knotval #0)) k.

Section KeyedRows.

Context {T : Type} (key : T -> xreal).

Definition kle (x y : T) : Prop := (key x <=? key y) = true.
Definition klt (x y : T) : Prop := (key x <? key y) = true.
Definition kfin (x : T) : Prop := fin (key x).
Definition kpos (x : T) : Prop := (#0 <? key x) = true.

(** Keys finite and nondecreasing, resp. increasing. *)
Definition nondec (l : list T) : Prop :=
  StronglySorted kle l /\ Forall kfin l.
Definition inc (l : list T) : Prop :=
  StronglySorted klt l /\ Forall kfin l.

End KeyedRows.

End ExactVocabulary.

(* ------------------------------------------------------------------ *)
(** *** Example tables *)

Section Examples.

#[local] Existing Instance exact | 0.
Variable spline : list xreal -> list xreal -> xreal -> xreal.
Local Open Scope x_scope.

(** The value the code gives an inserted row at [k]: the cubic
    interpolant of [log P] against [log k] over the rows [window],
    evaluated at [log k] and exponentiated. *)
Definition inserted (window : list (xreal * xreal)) (k : xreal) : xreal :=
  X.exp (spline (map X.log (map fst window)) (map X.log (map snd window))
           (X.log k)).

(** *** Table A: the power law [P(k) = k], knots at 1 and 4

    The first [k] is within 1e-5 of the first knot, and there is a row at
    [k = 2], the geometric mean of the two knots. *)
Definition table_A : list (xreal * xreal) :=
  [(#0.999999, #0.999999); (#1.5, #1.5); (#2, #2); (#3, #3); (#5, #5);
   (#6, #6); (#7, #7)].

Definition window_A : list (xreal * xreal) := slice table_A 0 6.

Definition out_A : list (xreal * xreal) :=
  [(#1, inserted window_A #1 * #1);
   (#1.2499995, inserted window_A #1.2499995 * #(3499999 / 3000000));
   (#1.5, #2); (#2, #(10 / 3)); (#3, #7);
   (#4, inserted window_A #4 * #3);
   (#5, #15); (#6, #18); (#7, #21)].

(** The same table and knots, every knot value 1. *)
Definition out_A1 : list (xreal * xreal) :=
  [(#1, inserted window_A #1 * #1);
   (#1.2499995, inserted window_A #1.2499995 * #1);
   (#1.5, #1.5); (#2, #2); (#3, #3);
   (#4, inserted window_A #4 * #1);
   (#5, #5); (#6, #6); (#7, #7)].

(** *** Table B: two rows 6e-6 apart, a knot between them *)
Definition table_B : list (xreal * xreal) :=
  [(#0.5, #0.5); (#0.500006, #0.500006); (#1, #1); (#2, #2); (#3, #3);
   (#4, #4); (#5, #5)].

Definition out_B : list (xreal * xreal) :=
  [(#0.500006, #1.000012); (#1, #2); (#2, #4); (#3, #6); (#4, #8);
   (#5, #10)].

(** *** Table C: a knot on the first [k] of the table *)
Definition table_C : list (xreal * xreal) :=
  [(#0.5, #0.5); (#1, #1); (#2, #2); (#3, #3); (#4, #4); (#5, #5)].

Definition window_C : list (xreal * xreal) := slice table_C 0 5.

Definition out_C : list (xreal * xreal) :=
  [(#0.5, #1); (#1, #2); (#2, #4);
   (#2.25, inserted window_C #2.25 * #2);
   (#3, #6); (#4, #8); (#5, #10)].

(** *** Table C with the knots 2.4 and 3.6: rows below the first knot,
    between the two and above the last *)
Definition out_D : list (xreal * xreal) :=
  [(#0.5, #1); (#1, #2); (#2, #4);
   (#2.4, inserted window_C #2.4 * #2);
   (#2.5, inserted window_C #2.5 * #(25 / 12));
   (#3, #7.5);
   (#3.5, inserted window_C #3.5 * #(35 / 12));
   (#3.6, inserted window_C #3.6 * #3);
   (#4, #12); (#5, #15)].

End Examples.

(** The tables above follow the power law [P(k) = k], so [log P] is
    [log k] and its cubic interpolant is the identity. *)
Definition power_law_spline (x y : list xreal) (v : xreal) : xreal := v.


Section Sums.

Context {A : Arith}.
Local Open Scope num_scope.


End Sums.

Section MoreExamples.

#[local] Existing Instance exact | 0.
Local Open Scope x_scope.

(** A table that ends below [k = 1]. *)
Definition table_L : list (xreal * xreal) :=
  [(#0.1, #0.1); (#0.2, #0.2); (#0.3, #0.3); (#0.4, #0.4); (#0.5, #0.5);
   (#0.6, #0.6)].

End MoreExamples.

(* ================================================================== *)
(** ** More of simulationics.py and lyasimulation.py

    The methods below are those around the two kernels: the checks of
    the constructors, [generate_times], and the part of [cambfile] that
    calls [get_neutrino_masses]. They raise more kinds of exceptions than
    the kernels do. *)

Inductive error : Type :=
| Exn (e : exn)          (* AssertionError, IndexError, ValueError *)
| ZeroDivisionError
| OverflowError
| TypeError.

Inductive outcome (T : Type) : Type :=
| Done (v : T)
| Fail (e : error).

Arguments Done {T} v.
Arguments Fail {T} e.

Definition and_then {T U : Type} (r : outcome T) (k : T -> outcome U)
  : outcome U :=
  match r with
  | Done v => k v
  | Fail e => Fail e
  end.

(** Python's [assert], and a call of one of the two kernels. *)
Definition check (b : bool) : outcome unit :=
  if b then Done tt else Fail (Exn AssertionError).

Definition lift {T : Type} (r : result T) : outcome T :=
  match r with
  | Ok v => Done v
  | Raise e => Fail (Exn e)
  end.

Declare Scope out_scope.
Delimit Scope out_scope with out.
Notation "x <- e ;; k" := (and_then e (fun x => k))
  (at level 61, e at next level, right associativity) : out_scope.
Notation "'assert!' b ;; k" := (and_then (check b) (fun _ => k))
  (at level 61, b at next level, right associativity) : out_scope.

Section PythonFloats.

Context {A : Arith}.
Local Open Scope num_scope.

(** [a/b] on Python floats: a zero divisor raises. *)
Definition py_div (a b : num) : outcome num :=
  if b =? #0 then Fail ZeroDivisionError else Done (a / b).

(** [x**2] on a Python float: an overflow raises. *)
Definition py_sq (x : num) : outcome num :=
  let y := x * x in
  if is_finite x && negb (is_finite y) then Fail OverflowError else Done y.

(** The values a parameter dictionary holds. *)
Unset Elimination Schemes.
Inductive value : Type :=
| VNum (x : num)
| VInt (z : Z)
| VStr (s : string)
| VTuple (l : list value).
Set Elimination Schemes.

(** A [dict]: keys in insertion order; assigning to a key that is there
    keeps its place. *)
Definition dict : Type := list (string * value).

Fixpoint setitem (d : dict) (k : string) (v : value) : dict :=
  match d with
  | [] => [(k, v)]
  | (k', v') :: r =>
      if String.eqb k' k then (k, v) :: r else (k', v') :: setitem r k v
  end.

Fixpoint getitem (d : dict) (k : string) : option value :=
  match d with
  | [] => None
  | (k', v') :: r => if String.eqb k' k then Some v' else getitem r k
  end.

(** [d.update(e)]. *)
Definition update (d e : dict) : dict :=
  fold_left (fun acc kv => setitem acc (fst kv) (snd kv)) e d.

(** The conversion specifiers of a [%]-format without [*] and without
    mapping keys: each [%] not followed by [%]. *)
Fixpoint count_specs (fmt : string) : nat :=
  match fmt with
  | String "%"%char (String "%"%char r) => count_specs r
  | String "%"%char r => S (count_specs r)
  | String _ r => count_specs r
  | EmptyString => 0
  end.

(** [fmt % args]; [args] is the tuple on the right, or the one value
    that is not a tuple. The text produced is C's. *)
Definition percent (render : string -> list value -> string)
  (fmt : string) (args : list value) : outcome string :=
  if Nat.eqb (length args) (count_specs fmt)
  then Done (render fmt args)
  else Fail TypeError.

End PythonFloats.

(* ------------------------------------------------------------------ *)
(** *** class SimulationICs (simulationics.py) *)

Module SimulationICs.

Section Methods.

Context {A : Arith}.
Local Open Scope num_scope.
Local Open Scope out_scope.

(** The attributes the methods below read; [__init__] sets them from its
    arguments of the same names. *)
Record attributes : Type := {
  outdir : string;
  box : num;
  npart : num;
  seed : Z;
  redshift : num;
  redend : num;
  separate_gas : bool;
  omega0 : num;
  omegab : num;
  hubble : num;
  scalar_amp : num;
  ns : num;
  rscatter : bool;
  m_nu : num;
  nu_hierarchy : string;
  uvb : string
}.

(** [__init__]: the checks of the arguments, then the output directory,
    the default paths, the cluster object and the git hash (lines 77 to
    98, which touch the file system: [make_outdir]). *)
Definition __init__ (make_outdir : attributes -> outcome unit)
  (a : attributes) : outcome unit :=
  assert! (box a <? #20000) ;;
  assert! ((#1 <? npart a) && (npart a <? #16000)) ;;
  assert! ((omega0 a <=? #1) && (#0 <? omega0 a)) ;;
  assert! ((#0 <? omegab a) && (omegab a <? #1)) ;;
  assert! ((#1 <? redshift a) && (redshift a <? #1100)) ;;
  assert! ((#0 <=? redend a) && (redend a <? #1100)) ;;
  assert! ((hubble a <? #1) && (#0 <? hubble a)) ;;
  assert! ((scalar_amp a <? #1e-7) && (#0 <? scalar_amp a)) ;;
  assert! ((#0 <? ns a) && (ns a <? #2)) ;;
  assert! (String.eqb (uvb a) "hm" || String.eqb (uvb a) "fg"
           || String.eqb (uvb a) "sh") ;;
  make_outdir a.

(** [generate_times]: the tabulated scale factors strictly between the
    first and the last one of the simulation. *)
Definition times : list num :=
  [#0.02; #0.1; #0.2; #0.25; #0.3333; #0.5; #0.66667; #0.83333].

Definition generate_times (self : attributes) : outcome (list num) :=
  astart <- py_div #1 (#1 + redshift self) ;;
  aend <- py_div #1 (#1 + redend self) ;;
  let ii := filter (fun t => (astart <? t) && (t <? aend)) times in
  assert! Nat.ltb 0 (length ii) ;;
  Done ii.

(** [omeganu = self.m_nu/93.14/self.hubble**2]. *)
Definition omeganu (self : attributes) : outcome num :=
  a <- py_div (m_nu self) #93.14 ;;
  h2 <- py_sq (hubble self) ;;
  py_div a h2.

(** [cambfile], up to the call of CLASS. [load_precision] is
    [classylss.load_precision('pk_ref.pre')]; [run_class] is the rest of
    the method from [pre_params.update(gparams)] on, which runs CLASS
    and writes its tables. *)
Definition cambfile (load_precision : outcome dict)
  (render : string -> list value -> string)
  (run_class : attributes -> dict -> dict -> outcome string)
  (self : attributes) : outcome string :=
  pre_params <- load_precision ;;
  omeganu <- omeganu self ;;
  let omcdm := (omega0 self - omegab self) - omeganu in
  let gparams :=
    [("h"%string, VNum (hubble self)); ("Omega_cdm"%string, VNum omcdm);
     ("Omega_b"%string, VNum (omegab self)); ("Omega_k"%string, VInt 0);
     ("n_s"%string, VNum (ns self)); ("A_s"%string, VNum (scalar_amp self));
     ("k_pivot"%string, VNum #2e-3)] in
  let gparams := setitem gparams "Omega_Lambda" (VNum (#1 - omega0 self)) in
  masses <- lift (get_neutrino_masses (m_nu self) (nu_hierarchy self)) ;;
  match masses with
  | [mnu1; mnu2; mnu3] =>
      gparams <-
        (if #0 <? m_nu self then
           (* '%.2f,%.2f,%.2f' % mnu1, mnu2, mnu3 *)
           s <- percent render "%.2f,%.2f,%.2f" [VNum mnu1] ;;
           let gparams :=
             setitem gparams "m_ncdm"
               (VTuple [VStr s; VNum mnu2; VNum mnu3]) in
           Done (setitem gparams "N_ncdm" (VInt 3))
         else Done gparams) ;;
      run_class self pre_params gparams
  | _ => Fail (Exn ValueError)
  end.

End Methods.

End SimulationICs.

(* ------------------------------------------------------------------ *)
(** *** The constructors of lyasimulation.py

    A keyword argument with a default is an [option]: [None] when the
    caller leaves it out. [kwargs] holds the arguments handed on to
    [SimulationICs.__init__], its defaults filled in; its [redend] and
    [uvb] are replaced by the ones given here. *)

Definition with_redend_uvb {A : Arith} (kwargs : SimulationICs.attributes)
  (redend : num) (uvb : string) : SimulationICs.attributes :=
  {| SimulationICs.outdir := SimulationICs.outdir kwargs;
     SimulationICs.box := SimulationICs.box kwargs;
     SimulationICs.npart := SimulationICs.npart kwargs;
     SimulationICs.seed := SimulationICs.seed kwargs;
     SimulationICs.redshift := SimulationICs.redshift kwargs;
     SimulationICs.redend := redend;
     SimulationICs.separate_gas := SimulationICs.separate_gas kwargs;
     SimulationICs.omega0 := SimulationICs.omega0 kwargs;
     SimulationICs.omegab := SimulationICs.omegab kwargs;
     SimulationICs.hubble := SimulationICs.hubble kwargs;
     SimulationICs.scalar_amp := SimulationICs.scalar_amp kwargs;
     SimulationICs.ns := SimulationICs.ns kwargs;
     SimulationICs.rscatter := SimulationICs.rscatter kwargs;
     SimulationICs.m_nu := SimulationICs.m_nu kwargs;
     SimulationICs.nu_hierarchy := SimulationICs.nu_hierarchy kwargs;
     SimulationICs.uvb := uvb |}.

Definition or_default {T : Type} (given : option T) (default : T) : T :=
  match given with
  | Some v => v
  | None => default
  end.

Module LymanAlphaSim.

Section Methods.

Context {A : Arith}.
Variable make_outdir : SimulationICs.attributes -> outcome unit.
Local Open Scope num_scope.
Local Open Scope out_scope.

(** [__init__(self, *, rescale_gamma=True, rescale_amp=1.,
    rescale_slope=-0.0, redend=2.2, uvb="pu", **kwargs)]. *)
Definition __init__ (rescale_gamma : option bool)
  (rescale_amp rescale_slope redend : option num) (uvb : option string)
  (kwargs : SimulationICs.attributes) : outcome unit :=
  _ <- SimulationICs.__init__ make_outdir
         (with_redend_uvb kwargs (or_default redend #2.2)
            (or_default uvb "pu"%string)) ;;
  assert! SimulationICs.separate_gas kwargs ;;
  Done tt.

End Methods.

End LymanAlphaSim.

Module LymanAlphaNCDMSim.

Section Methods.

Context {A : Arith}.
Variable make_outdir : SimulationICs.attributes -> outcome unit.
Local Open Scope num_scope.

(** [__init__(self, *, alpha, beta, gamma, rescale_gamma=True,
    rescale_amp=1., rescale_slope=0., redend=4.24, uvb='on',
    **kwargs)]. *)
Definition __init__ (alpha beta gamma : num)
  (rescale_gamma : option bool)
  (rescale_amp rescale_slope redend : option num) (uvb : option string)
  (kwargs : SimulationICs.attributes) : outcome unit :=
  LymanAlphaSim.__init__ make_outdir
    (Some (or_default rescale_gamma true))
    (Some (or_default rescale_amp #1))
    (Some (or_default rescale_slope #0))
    (Some (or_default redend #4.24))
    (Some (or_default uvb "on"%string))
    kwargs.

End Methods.

End LymanAlphaNCDMSim.

Module LymanAlphaKnotICs.

Section Methods.

Context {A : Arith}.
Variable make_outdir : SimulationICs.attributes -> outcome unit.

(** [__init__(self, *, knot_pos=(0.15,0.475,0.75,1.19),
    knot_val=(1.,1.,1.,1.), **kwargs)]: everything else goes on to
    [LymanAlphaSim.__init__]. *)
Definition __init__ (knot_pos knot_val : option (list num))
  (rescale_gamma : option bool)
  (rescale_amp rescale_slope redend : option num) (uvb : option string)
  (kwargs : SimulationICs.attributes) : outcome unit :=
  LymanAlphaSim.__init__ make_outdir
    rescale_gamma rescale_amp rescale_slope redend uvb kwargs.

End Methods.

End LymanAlphaKnotICs.

(** The arguments of the [__main__] of lyasimulation.py ([box=60],
    [npart=512]) with the defaults of [SimulationICs.__init__] for the
    others, but for the three given here. *)
Definition example_sim {A : Arith} (redshift redend m_nu : num)
  : SimulationICs.attributes :=
  {| SimulationICs.outdir := "test3";
     SimulationICs.box := #60;
     SimulationICs.npart := #512;
     SimulationICs.seed := 9281110;
     SimulationICs.redshift := redshift;
     SimulationICs.redend := redend;
     SimulationICs.separate_gas := true;
     SimulationICs.omega0 := #0.288;
     SimulationICs.omegab := #0.0472;
     SimulationICs.hubble := #0.7;
     SimulationICs.scalar_amp := #2.427e-9;
     SimulationICs.ns := #0.97;
     SimulationICs.rscatter := false;
     SimulationICs.m_nu := m_nu;
     SimulationICs.nu_hierarchy := "degenerate";
     SimulationICs.uvb := "hm" |}%num.

(* ================================================================== *)
(** ** Facts about the array operations, in any arithmetic *)

Lemma bind_Ok {T U : Type} (r : result T) (k : T -> result U) (u : U) :
  bind r k = Ok u -> exists v, r = Ok v /\ k v = Ok u.
Proof.
  destruct r as [v|e]; simpl; intros H; [eauto | discriminate].
Qed.

Lemma assert_Ok (b : bool) (u : unit) : assert b = Ok u -> b = true.
Proof.
  destruct b; simpl; [reflexivity | discriminate].
Qed.

Lemma mapM_Ok {T U : Type} (f : T -> result U) (l : list T) (ys : list U) :
  mapM f l = Ok ys -> Forall2 (fun x y => f x = Ok y) l ys.
Proof.
  revert ys; induction l as [|x r IH]; simpl; intros ys H.
  - injection H as <-. constructor.
  - destruct (f x) as [y|e] eqn:Hx; [|discriminate].
    destruct (mapM f r) as [ys'|e]; [|discriminate].
    injection H as <-. constructor; auto.
Qed.

Lemma filter_filter {T : Type} (f g : T -> bool) (l : list T) :
  filter f (filter g l) = filter (fun x => g x && f x) l.
Proof.
  induction l as [|x r IH]; simpl; [reflexivity|].
  destruct (g x); simpl; [destruct (f x)|]; rewrite ?IH; reflexivity.
Qed.

Section InsertDelete.

Context {A : Arith} {T : Type} (key : T -> num).
Local Open Scope num_scope.

Lemma insert_from_skip (arr : list T) :
  forall i ivs,
    insert_from i arr ivs
    = insert_from i arr (filter (fun p => Nat.leb i (fst p)) ivs).
Proof.
  induction arr as [|a r IH]; intros i ivs; simpl.
  - rewrite filter_filter. f_equal. f_equal. apply filter_ext.
    intros p. destruct (Nat.eqb_spec (fst p) i) as [->|Hne].
    + now rewrite Nat.leb_refl.
    + now rewrite andb_false_r.
  - f_equal.
    + rewrite filter_filter. f_equal. apply filter_ext.
      intros p. destruct (Nat.eqb_spec (fst p) i) as [->|Hne].
      * now rewrite Nat.leb_refl.
      * now rewrite andb_false_r.
    + f_equal. rewrite (IH (S i) ivs).
      rewrite (IH (S i) (filter (fun p => Nat.leb i (fst p)) ivs)). f_equal.
      rewrite filter_filter. apply filter_ext.
      intros p. destruct (Nat.leb (S i) (fst p)) eqn:E1;
        destruct (Nat.leb i (fst p)) eqn:E2; simpl; auto.
      apply Nat.leb_le in E1. apply Nat.leb_gt in E2. lia.
Qed.

Lemma insert_from_merge (arr : list T) :
  forall i vs,
    insert_from i arr
      (map (fun v => (i + searchsorted (map key arr) (key v), v)%nat) vs)
    = merge_in key arr vs.
Proof.
  induction arr as [|a r IH]; intros i vs;
    cbn [insert_from merge_in map searchsorted].
  - rewrite app_nil_r, Nat.add_0_r.
    induction vs as [|v vs IHv]; cbn [map filter fst snd]; auto.
    rewrite Nat.eqb_refl. cbn [map snd]. now f_equal.
  - f_equal.
    + induction vs as [|v vs IHv]; cbn [map filter fst snd]; auto.
      destruct (key a <? key v); cbn [negb].
      * assert (E : forall n, Nat.eqb (i + S n) i = false)
          by (intros; apply Nat.eqb_neq; lia).
        rewrite E. exact IHv.
      * assert (E : Nat.eqb (i + 0) i = true)
          by (apply Nat.eqb_eq; lia).
        rewrite E. cbn [map snd]. now f_equal.
    + f_equal. rewrite insert_from_skip. rewrite <- (IH (S i)). f_equal.
      induction vs as [|v vs IHv]; cbn [map filter fst snd]; auto.
      destruct (key a <? key v).
      * assert (E : forall n, Nat.leb (S i) (i + S n) = true)
          by (intros; apply Nat.leb_le; lia).
        rewrite E. cbn [map]. rewrite IHv. f_equal. f_equal. lia.
      * assert (E : Nat.leb (S i) (i + 0) = false)
          by (apply Nat.leb_gt; lia).
        rewrite E. exact IHv.
Qed.

Lemma in_merge_in (arr : list T) :
  forall vs x, In x (merge_in key arr vs) <-> In x arr \/ In x vs.
Proof.
  induction arr as [|a r IH]; intros vs x; simpl.
  - tauto.
  - rewrite in_app_iff. simpl. rewrite IH. rewrite !filter_In.
    destruct (key a <? key x) eqn:E; simpl; intuition congruence.
Qed.

Lemma length_merge_in (arr : list T) :
  forall vs, length (merge_in key arr vs) = (length arr + length vs)%nat.
Proof.
  induction arr as [|a r IH]; intros vs; simpl; auto.
  rewrite length_app. simpl. rewrite IH.
  assert (H : Nat.add
                (length (filter (fun v => negb (key a <? key v)) vs))
                (length (filter (fun v => key a <? key v) vs))
              = length vs).
  { clear. induction vs as [|v vs IHv]; simpl; auto.
    destruct (key a <? key v); simpl; lia. }
  lia.
Qed.

Lemma where_close_ge (ks : list num) :
  forall i j, In j (where_close i ks) -> (i <= j)%nat.
Proof.
  induction ks as [|k0 r IH]; intros i j; simpl; [tauto|].
  destruct r as [|k1 r']; [simpl; tauto|].
  rewrite in_app_iff. intros [H|H].
  - destruct (abs (k1 - k0) <? #1e-5 * k1); simpl in H; [lia | tauto].
  - apply IH in H. lia.
Qed.

Lemma delete_from_app_lt {U : Type} (l : list U) :
  forall i o1 o2,
    (forall j, In j o1 -> (j < i)%nat) ->
    delete_from i l (o1 ++ o2) = delete_from i l o2.
Proof.
  induction l as [|a r IH]; intros i o1 o2 H; simpl; auto.
  rewrite existsb_app.
  replace (existsb (Nat.eqb i) o1) with false.
  - simpl. destruct (existsb (Nat.eqb i) o2); [|f_equal];
      apply IH; intros j Hj; apply H in Hj; lia.
  - symmetry. apply not_true_is_false. intros E.
    apply existsb_exists in E as (j & Hj & E).
    apply Nat.eqb_eq in E. apply H in Hj. lia.
Qed.

Lemma delete_from_nil {U : Type} (l : list U) :
  forall i, delete_from i l [] = l.
Proof.
  induction l as [|a r IH]; intros i; simpl; auto. now rewrite IH.
Qed.

Lemma delete_where_close (l : list T) :
  forall i, delete_from i l (where_close i (map key l)) = dedup key l.
Proof.
  induction l as [|a r IH]; intros i; [reflexivity|].
  destruct r as [|b r']; [reflexivity|].
  change (where_close i (map key (a :: b :: r')))
    with ((if close (key a) (key b) then [i] else [])
          ++ where_close (S i) (map key (b :: r'))).
  change (dedup key (a :: b :: r'))
    with (if close (key a) (key b) then dedup key (b :: r')
          else a :: dedup key (b :: r')).
  specialize (IH (S i)).
  set (w := where_close (S i) (map key (b :: r'))) in *.
  assert (Hw : existsb (Nat.eqb i) w = false).
  { apply not_true_is_false. intros E.
    apply existsb_exists in E as (j & Hj & E).
    apply Nat.eqb_eq in E. apply where_close_ge in Hj. lia. }
  destruct (close (key a) (key b)).
  - cbn [delete_from app existsb]. rewrite Nat.eqb_refl. cbn [orb].
    rewrite <- IH.
    apply (delete_from_app_lt (b :: r') (S i) [i] w).
    intros j [<-|[]]. lia.
  - cbn [app]. cbn [delete_from]. rewrite Hw. f_equal. exact IH.
Qed.

Lemma in_dedup (l : list T) : forall x, In x (dedup key l) -> In x l.
Proof.
  induction l as [|a r IH]; intros x; [simpl; tauto|].
  destruct r as [|b r']; [simpl; tauto|].
  change (dedup key (a :: b :: r'))
    with (if close (key a) (key b) then dedup key (b :: r')
          else a :: dedup key (b :: r')).
  destruct (close (key a) (key b)); intros H.
  - right. now apply IH.
  - destruct H as [->|H]; [now left | right; now apply IH].
Qed.

End InsertDelete.

Section MapFacts.

Context {A : Arith}.
Local Open Scope num_scope.

Lemma searchsorted_le (a : list num) (v : num) :
  searchsorted a v <= length a.
Proof.
  induction a as [|x r IH]; simpl; [lia|].
  destruct (x <? v); lia.
Qed.

Lemma map_insert_from {T U : Type} (f : T -> U) (arr : list T) :
  forall i ivs,
    map f (insert_from i arr ivs)
    = insert_from i (map f arr) (map (fun p => (fst p, f (snd p))) ivs).
Proof.
  induction arr as [|a r IH]; intros i ivs; cbn [insert_from map].
  - rewrite !app_nil_r. induction ivs as [|p ivs IHi]; cbn [map filter fst];
      auto.
    destruct (Nat.eqb (fst p) i); cbn [map snd]; now rewrite IHi.
  - rewrite map_app. cbn [map]. rewrite IH. f_equal.
    induction ivs as [|p ivs IHi]; cbn [map filter fst]; auto.
    destruct (Nat.eqb (fst p) i); cbn [map snd]; now rewrite IHi.
Qed.

Lemma map_delete_from {T U : Type} (f : T -> U) (arr : list T) :
  forall i obj,
    map f (delete_from i arr obj) = delete_from i (map f arr) obj.
Proof.
  induction arr as [|a r IH]; intros i obj; cbn [delete_from map]; auto.
  destruct (existsb (Nat.eqb i) obj); cbn [map]; now rewrite IH.
Qed.

Lemma combine_fst_snd {T U : Type} (l : list (T * U)) :
  combine (map fst l) (map snd l) = l.
Proof.
  induction l as [|[a b] r IH]; simpl; now rewrite ?IH.
Qed.

Lemma map_fst_combine_3 {T U V : Type} :
  forall (i : list T) (a : list U) (b : list V),
    length a = length b ->
    map (fun p => (fst p, fst (snd p))) (combine i (combine a b))
    = combine i a.
Proof.
  induction i as [|x i IH]; intros [|y a] [|z b] H; simpl in *;
    try discriminate; auto.
  f_equal. apply IH. lia.
Qed.

Lemma map_snd_combine_3 {T U V : Type} :
  forall (i : list T) (a : list U) (b : list V),
    length a = length b ->
    map (fun p => (fst p, snd (snd p))) (combine i (combine a b))
    = combine i b.
Proof.
  induction i as [|x i IH]; intros [|y a] [|z b] H; simpl in *;
    try discriminate; auto.
  f_equal. apply IH. lia.
Qed.

Lemma combine_map_l {T U : Type} (f : T -> U) (l : list T) :
  combine (map f l) l = map (fun v => (f v, v)) l.
Proof.
  induction l as [|x r IH]; simpl; now rewrite ?IH.
Qed.

Lemma combine_map_key {T U V : Type} (f : T -> U) :
  forall (a : list T) (b : list V),
    combine (map f a) (combine a b)
    = map (fun v => (f (fst v), v)) (combine a b).
Proof.
  induction a as [|x a IH]; intros [|y b]; simpl; auto.
  now rewrite IH.
Qed.

Lemma forallb_searchsorted (arr vs : list num) :
  forallb (fun i => Nat.leb i (length arr)) (map (searchsorted arr) vs)
  = true.
Proof.
  induction vs as [|v vs IH]; simpl; auto.
  rewrite IH, andb_true_r. apply Nat.leb_le, searchsorted_le.
Qed.

(** Inserting values at their [searchsorted] positions is [merge_in]. *)
Lemma np_insert_searchsorted (arr vs : list num) :
  np_insert arr (map (searchsorted arr) vs) vs
  = Ok (merge_in (fun k => k) arr vs).
Proof.
  unfold np_insert. rewrite forallb_searchsorted. f_equal.
  rewrite combine_map_l.
  rewrite <- (insert_from_merge (fun k => k) arr 0 vs).
  now rewrite map_id.
Qed.

(** The two columns of a table go through [np.insert] together. *)
Lemma np_insert_rows (rows : list (num * num)) (ins newp : list num)
  (kval1 pval1 : list num) :
  length ins = length newp ->
  np_insert (map fst rows) (map (searchsorted (map fst rows)) ins) ins
    = Ok kval1 ->
  np_insert (map snd rows) (map (searchsorted (map fst rows)) ins) newp
    = Ok pval1 ->
  kval1 = map fst (merge_in fst rows (combine ins newp)) /\
  pval1 = map snd (merge_in fst rows (combine ins newp)).
Proof.
  intros Hlen. unfold np_insert.
  rewrite forallb_searchsorted.
  replace (length (map snd rows)) with (length (map fst rows))
    by now rewrite !length_map.
  rewrite forallb_searchsorted.
  intros Hk Hp. injection Hk as <-. injection Hp as <-.
  rewrite <- (insert_from_merge fst rows 0 (combine ins newp)).
  cbn [Nat.add]. rewrite <- combine_map_key.
  rewrite !map_insert_from.
  rewrite map_fst_combine_3, map_snd_combine_3 by assumption.
  split; reflexivity.
Qed.

Lemma times_map (rows : list (num * num)) (f : num -> num) :
  combine (map fst rows) (times (map snd rows) (map f (map fst rows)))
  = map (fun r => (fst r, snd r * f (fst r))) rows.
Proof.
  induction rows as [|[k p] r IH]; simpl; now rewrite ?IH.
Qed.

(** [np.delete] after [np.where], on both columns, is [dedup] on rows. *)
Lemma np_delete_rows (rows : list (num * num)) :
  let collision := where_close 0 (map fst rows) in
  (if Nat.ltb 0 (length collision)
   then np_delete (map fst rows) collision else map fst rows)
  = map fst (dedup fst rows) /\
  (if Nat.ltb 0 (length collision)
   then np_delete (map snd rows) collision else map snd rows)
  = map snd (dedup fst rows).
Proof.
  intros collision.
  assert (H : forall U (f : num * num -> U),
             (if Nat.ltb 0 (length collision)
              then np_delete (map f rows) collision else map f rows)
             = map f (dedup fst rows)).
  { intros U f. rewrite <- (delete_where_close fst rows 0).
    fold collision. unfold np_delete. rewrite map_delete_from.
    destruct collision; simpl; auto. now rewrite delete_from_nil. }
  split; apply H.
Qed.

End MapFacts.

Lemma length_dedup {A : Arith} {T : Type} (key : T -> num) (l : list T) :
  forall i,
    (length (dedup key l) + length (where_close i (map key l)))%nat
    = length l.
Proof.
  induction l as [|a r IH]; intros i; [reflexivity|].
  destruct r as [|b r']; [reflexivity|].
  change (where_close i (map key (a :: b :: r')))
    with ((if close (key a) (key b) then [i] else [])
          ++ where_close (S i) (map key (b :: r'))).
  change (dedup key (a :: b :: r'))
    with (if close (key a) (key b) then dedup key (b :: r')
          else a :: dedup key (b :: r')).
  specialize (IH (S i)). rewrite length_app.
  destruct (close (key a) (key b)); cbn [length] in *; lia.
Qed.

Lemma dedup_nonempty {A : Arith} {T : Type} (key : T -> num) (l : list T) :
  l <> [] -> dedup key l <> [].
Proof.
  induction l as [|a r IH]; [congruence|]. intros _.
  destruct r as [|b r']; [discriminate|].
  change (dedup key (a :: b :: r'))
    with (if close (key a) (key b) then dedup key (b :: r')
          else a :: dedup key (b :: r')).
  destruct (close (key a) (key b)); [apply IH|]; discriminate.
Qed.

Lemma last_dedup {A : Arith} {T : Type} (key : T -> num) (l : list T)
  (d : T) :
  last (dedup key l) d = last l d.
Proof.
  induction l as [|a r IH]; [reflexivity|].
  destruct r as [|b r']; [reflexivity|].
  change (dedup key (a :: b :: r'))
    with (if close (key a) (key b) then dedup key (b :: r')
          else a :: dedup key (b :: r')).
  change (last (a :: b :: r') d) with (last (b :: r') d).
  destruct (close (key a) (key b)); [exact IH|].
  rewrite <- IH.
  destruct (dedup key (b :: r')) as [|c l'] eqn:E; [|reflexivity].
  exfalso. now apply (dedup_nonempty key (b :: r')).
Qed.

(* ================================================================== *)
(** ** Exact arithmetic: order and field facts *)

Section ExactOrder.

#[local] Existing Instance exact | 0.
Local Open Scope x_scope.

Lemma ltb_Fin (a b : R) : (Fin a <? Fin b) = true <-> (a < b)%R.
Proof. cbn. destruct (Rlt_dec a b); intuition discriminate. Qed.

Lemma ltb_Fin_false (a b : R) : (Fin a <? Fin b) = false <-> (b <= a)%R.
Proof.
  cbn. destruct (Rlt_dec a b); split; intros; try discriminate;
    try reflexivity; lra.
Qed.

Lemma leb_Fin (a b : R) : (Fin a <=? Fin b) = true <-> (a <= b)%R.
Proof. cbn. destruct (Rle_dec a b); intuition discriminate. Qed.

Lemma ltb_inv (x y : xreal) :
  (x <? y) = true -> exists a b, x = Fin a /\ y = Fin b /\ (a < b)%R.
Proof.
  destruct x as [a|], y as [b|]; try discriminate.
  intros H. apply ltb_Fin in H. eauto.
Qed.

Lemma leb_inv (x y : xreal) :
  (x <=? y) = true -> exists a b, x = Fin a /\ y = Fin b /\ (a <= b)%R.
Proof.
  destruct x as [a|], y as [b|]; try discriminate.
  intros H. apply leb_Fin in H. eauto.
Qed.

Lemma fin_inv (x : xreal) : fin x -> exists a, x = Fin a.
Proof. destruct x; [eauto | discriminate]. Qed.

End ExactOrder.

(** Goals on the order of a few extended reals: case analysis, then
    linear real arithmetic. *)
Ltac xr_cases :=
  cbn [of_Q exact] in *;
  repeat match goal with
    | H : fin ?x |- _ => apply fin_inv in H; destruct H as [? ->]
    | H : @ltb exact ?x ?y = true |- _ =>
        apply ltb_inv in H; destruct H as (? & ? & ? & ? & H)
    | H : @leb exact ?x ?y = true |- _ =>
        apply leb_inv in H; destruct H as (? & ? & ? & ? & H)
    end;
  subst;
  repeat match goal with
    | H : Fin _ = Fin _ |- _ => injection H as H
    | H : Fin _ = NaN |- _ => discriminate H
    | H : NaN = Fin _ |- _ => discriminate H
    end;
  subst;
  repeat match goal with
    | x : xreal |- _ => destruct x
    | H : @ltb exact (Fin _) (Fin _) = false |- _ => apply ltb_Fin_false in H
    | H : @ltb exact (Fin _) (Fin _) = true |- _ => apply ltb_Fin in H
    | H : @leb exact (Fin _) (Fin _) = true |- _ => apply leb_Fin in H
    end.

(** A decimal literal of the source as a quotient of two integers. *)
Ltac q2r :=
  repeat match goal with
    | |- context [Q2R ?q] =>
        let n := eval vm_compute in (Qnum q) in
        let d := eval vm_compute in (Zpos (Qden q)) in
        change (Q2R q) with (IZR n * / IZR d)%R
    | H : context [Q2R ?q] |- _ =>
        let n := eval vm_compute in (Qnum q) in
        let d := eval vm_compute in (Zpos (Qden q)) in
        change (Q2R q) with (IZR n * / IZR d)%R in H
    end.

Ltac xr_step :=
  match goal with
  | |- context [Rlt_dec ?a ?b] => destruct (Rlt_dec a b)
  | |- context [Rle_dec ?a ?b] => destruct (Rle_dec a b)
  | |- context [Req_dec_T ?a ?b] => destruct (Req_dec_T a b)
  | H : context [Rlt_dec ?a ?b] |- _ => destruct (Rlt_dec a b)
  | H : context [Rle_dec ?a ?b] |- _ => destruct (Rle_dec a b)
  | H : context [Req_dec_T ?a ?b] |- _ => destruct (Req_dec_T a b)
  end.

Ltac xr :=
  xr_cases; unfold fin in *; cbn in *; q2r;
  repeat (xr_step; cbn in *);
  repeat split;
  try discriminate; try reflexivity; try lra; try (exfalso; lra).

Section ExactSorted.

#[local] Existing Instance exact | 0.
Local Open Scope x_scope.

Lemma xlt_trans (x y z : xreal) :
  (x <? y) = true -> (y <? z) = true -> (x <? z) = true.
Proof. intros; xr. Qed.

Lemma xle_trans (x y z : xreal) :
  (x <=? y) = true -> (y <=? z) = true -> (x <=? z) = true.
Proof. intros; xr. Qed.

Lemma xlt_le (x y : xreal) : (x <? y) = true -> (x <=? y) = true.
Proof. intros; xr. Qed.

Lemma xlt_le_trans (x y z : xreal) :
  (x <? y) = true -> (y <=? z) = true -> (x <? z) = true.
Proof. intros; xr. Qed.

Lemma xle_lt_trans (x y z : xreal) :
  (x <=? y) = true -> (y <? z) = true -> (x <? z) = true.
Proof. intros; xr. Qed.

Lemma xnlt_le (x y : xreal) :
  fin x -> fin y -> (x <? y) = false -> (y <=? x) = true.
Proof. intros; xr. Qed.

Lemma xle_refl (x : xreal) : fin x -> (x <=? x) = true.
Proof. intros; xr. Qed.

Lemma xlt_irrefl (x : xreal) : (x <? x) = false.
Proof. xr. Qed.

Lemma xlt_fin_l (x y : xreal) : (x <? y) = true -> fin x.
Proof. intros; xr. Qed.

Lemma xlt_fin_r (x y : xreal) : (x <? y) = true -> fin y.
Proof. intros; xr. Qed.

Lemma xle_fin_l (x y : xreal) : (x <=? y) = true -> fin x.
Proof. intros; xr. Qed.

Lemma xle_fin_r (x y : xreal) : (x <=? y) = true -> fin y.
Proof. intros; xr. Qed.

Lemma xle_nlt (x y : xreal) : (x <=? y) = true -> (y <? x) = false.
Proof. intros; xr. Qed.

Lemma xlt_nlt (x y : xreal) : (x <? y) = true -> (y <? x) = false.
Proof. intros; xr. Qed.

End ExactSorted.

Lemma StronglySorted_app {T : Type} (R : T -> T -> Prop) (l1 l2 : list T) :
  StronglySorted R l1 -> StronglySorted R l2 ->
  (forall x y, In x l1 -> In y l2 -> R x y) ->
  StronglySorted R (l1 ++ l2).
Proof.
  induction l1 as [|a l1 IH]; simpl; intros H1 H2 H; auto.
  inversion H1 as [|? ? Hs Hf]; subst. constructor.
  - apply IH; auto.
  - apply Forall_app. split; auto.
    apply Forall_forall. intros y Hy. apply H; auto.
Qed.

Lemma StronglySorted_filter {T : Type} (R : T -> T -> Prop) (f : T -> bool)
  (l : list T) :
  StronglySorted R l -> StronglySorted R (filter f l).
Proof.
  induction 1 as [|a l Hs IH Hf]; simpl; [constructor|].
  destruct (f a); auto. constructor; auto.
  apply Forall_forall. intros y Hy. apply filter_In in Hy as [Hy _].
  rewrite Forall_forall in Hf. auto.
Qed.

Section ExactRows.

#[local] Existing Instance exact | 0.
Context {T : Type} (key : T -> xreal).
Local Open Scope x_scope.

Lemma inc_nondec (l : list T) : inc key l -> nondec key l.
Proof.
  intros [Hs Hf]. split; auto. clear Hf.
  induction Hs as [|a l Hs IH Ha]; constructor; auto.
  eapply Forall_impl; [|exact Ha]. intros y. apply xlt_le.
Qed.

Lemma nondec_filter (f : T -> bool) (l : list T) :
  nondec key l -> nondec key (filter f l).
Proof.
  intros [Hs Hf]. split.
  - now apply StronglySorted_filter.
  - apply Forall_forall. intros x Hx. apply filter_In in Hx as [Hx _].
    rewrite Forall_forall in Hf. auto.
Qed.

Lemma inc_tail (a : T) (l : list T) : inc key (a :: l) -> inc key l.
Proof.
  intros [Hs Hf]. inversion Hs; inversion Hf; subst. split; auto.
Qed.

Lemma inc_head (a : T) (l : list T) :
  inc key (a :: l) -> kfin key a /\ Forall (klt key a) l.
Proof.
  intros [Hs Hf]. inversion Hs; inversion Hf; subst. split; auto.
Qed.

Lemma nondec_merge_in (arr : list T) :
  forall vs, inc key arr -> nondec key vs -> nondec key (merge_in key arr vs).
Proof.
  induction arr as [|a r IH]; intros vs Harr Hvs; cbn [merge_in]; auto.
  destruct (inc_head _ _ Harr) as [Ha Har].
  apply inc_tail in Harr.
  pose proof (nondec_filter (fun v => key a <? key v) vs Hvs) as Hhi.
  pose proof (nondec_filter (fun v => negb (key a <? key v)) vs Hvs) as Hlo.
  specialize (IH _ Harr Hhi). destruct IH as [IHs IHf].
  assert (Hge : Forall (kle key a) (merge_in key r
                                  (filter (fun v => key a <? key v) vs))).
  { apply Forall_forall. intros y Hy. apply in_merge_in in Hy as [Hy|Hy].
    - rewrite Forall_forall in Har. apply xlt_le. now apply Har.
    - apply filter_In in Hy as [_ Hy]. now apply xlt_le. }
  split.
  - apply StronglySorted_app.
    + apply Hlo.
    + constructor; auto.
    + intros x y Hx Hy.
      assert (Hxa : kle key x a).
      { apply filter_In in Hx as [Hx Hn].
        destruct Hvs as [_ Hvf]. rewrite Forall_forall in Hvf.
        apply xnlt_le; auto. now apply Hvf.
        now apply negb_true_iff in Hn. }
      destruct Hy as [<-|Hy]; auto.
      rewrite Forall_forall in Hge. eapply xle_trans; eauto.
      now apply Hge.
  - apply Forall_app. split; [apply Hlo|]. constructor; auto.
Qed.

(** An original row keeps only larger keys behind it. *)
Lemma merge_in_split (arr : list T) :
  forall vs s, inc key arr -> In s arr ->
    exists l1 l2, merge_in key arr vs = l1 ++ s :: l2 /\ Forall (klt key s) l2.
Proof.
  induction arr as [|a r IH]; intros vs s Harr Hs; [destruct Hs|].
  cbn [merge_in].
  destruct (inc_head _ _ Harr) as [Ha Har].
  apply inc_tail in Harr.
  destruct Hs as [<-|Hs].
  - eexists _, _. split; [reflexivity|].
    apply Forall_forall. intros y Hy. apply in_merge_in in Hy as [Hy|Hy].
    + rewrite Forall_forall in Har. now apply Har.
    + now apply filter_In in Hy as [_ Hy].
  - destruct (IH (filter (fun v => @ltb exact (key a) (key v)) vs)
                s Harr Hs) as (l1 & l2 & E & Hl2).
    rewrite E. eexists (_ ++ a :: l1), l2. split; auto.
    now rewrite <- app_assoc.
Qed.

Lemma close_false_lt (x y : xreal) :
  (x <=? y) = true -> (#0 <? y) = true ->
  close x y = false -> (x <? y) = true.
Proof.
  unfold close. intros Hle Hpos Hc. xr_cases. cbn in *.
  q2r. unfold Rabs in Hc.
  destruct (Rcase_abs _); destruct (Rlt_dec _ _); destruct (Rlt_dec _ _);
    try discriminate; try reflexivity; exfalso; lra.
Qed.

Lemma dedup_cons2 (a b : T) (l : list T) :
  dedup key (a :: b :: l)
  = if close (key a) (key b) then dedup key (b :: l)
    else a :: dedup key (b :: l).
Proof. reflexivity. Qed.

(** A surviving row keeps only larger keys behind it. *)
Lemma dedup_survivor (l : list T) :
  nondec key l -> Forall (kpos key) l ->
  forall x, In x (dedup key l) ->
    exists l1 l2, l = l1 ++ x :: l2 /\ Forall (klt key x) l2.
Proof.
  induction l as [|a r IH]; intros Hl Hp x Hx; [destruct Hx|].
  destruct r as [|b r'].
  - destruct Hx as [<-|[]]. exists [], []. split; auto.
  - rewrite dedup_cons2 in Hx.
    destruct Hl as [Hs Hf].
    inversion Hs as [|? ? Hs' Ha]; inversion Hf as [|? ? _ Hf'];
      inversion Hp as [|? ? _ Hp']; subst.
    assert (Htail : forall x, In x (dedup key (b :: r')) ->
              exists l1 l2, a :: b :: r' = l1 ++ x :: l2
                            /\ Forall (klt key x) l2).
    { intros z Hz. destruct (IH (conj Hs' Hf') Hp' z Hz)
        as (l1 & l2 & E & H2).
      exists (a :: l1), l2. rewrite E. split; auto. }
    destruct (close _ _) eqn:Hc; [now apply Htail|].
    destruct Hx as [<-|Hx]; [|now apply Htail].
    exists [], (b :: r'). split; auto.
    assert (Hab : klt key a b).
    { inversion Ha; inversion Hp'; subst. apply close_false_lt; auto. }
    constructor; auto.
    inversion Hs' as [|? ? _ Hb]; subst.
    eapply Forall_impl; [|exact Hb].
    intros y Hy. eapply xlt_le_trans; eauto.
Qed.


End ExactRows.

(* ================================================================== *)
(** ** What a successful run of change_power_spectrum_knots went through *)

Section KnotsInversion.

Context {A : Arith}.
Variables np_log np_exp : num -> num.
Variable spline : list num -> list num -> num -> num.
Local Open Scope num_scope.

Lemma call_Ok (f : interpolant) (x_new y_new : list num) :
  call spline f x_new = Ok y_new ->
  y_new = map (match i_kind f with
               | linear => linear_at (i_x f) (i_y f)
               | cubic => spline (i_x f) (i_y f)
               end) x_new /\
  forall v, In v x_new ->
    (v <? hd #0 (i_x f)) = false /\ (last (i_x f) #0 <? v) = false.
Proof.
  unfold call.
  destruct (existsb _ x_new) eqn:E; [discriminate|].
  intros H. injection H as <-. split; auto.
  intros v Hv. apply orb_false_iff.
  apply not_true_is_false. intros Hc.
  assert (existsb (fun v => (v <? hd #0 (i_x f))
                            || (last (i_x f) #0 <? v)) x_new = true).
  { apply existsb_exists. eauto. }
  congruence.
Qed.

Lemma interp1d_Ok (x y : list num) (k : kind) (f : interpolant) :
  interp1d x y k = Ok f ->
  f = {| i_kind := k;
         i_x := map fst (sort_xy (combine x y));
         i_y := map snd (sort_xy (combine x y)) |}.
Proof.
  unfold interp1d. destruct (Nat.ltb _ _); [discriminate|].
  now intros H; injection H as <-.
Qed.

(** After the two [np.insert]: the input rows and the inserted rows,
  merged by [k]. *)
Lemma insert_rows_Ok (knotpos : list num) (matpow : list (num * num))
  (kval pval : list num) :
  insert_rows np_log np_exp spline knotpos
    (map fst matpow) (map snd matpow) = Ok (kval, pval) ->
  exists imin imax pint ins_knotpos,
    window knotpos (map fst matpow) = Ok (imin, imax) /\
    interp1d (map np_log (slice (map fst matpow) imin imax))
             (map np_log (slice (map snd matpow) imin imax)) cubic
      = Ok pint /\
    insert_points knotpos (slice (map fst matpow) imin imax)
      = Ok ins_knotpos /\
    let new_rows :=
      map (fun k => (k, np_exp (spline (i_x pint) (i_y pint) (np_log k))))
          ins_knotpos in
    kval = map fst (merge_in fst matpow new_rows) /\
    pval = map snd (merge_in fst matpow new_rows).
Proof.
  unfold insert_rows. intros H.
  apply bind_Ok in H as ([imin imax] & Hw & H).
  apply bind_Ok in H as (pint & Hpint & H).
  apply bind_Ok in H as (ins & Hins & H).
  apply bind_Ok in H as (kval1 & Hk1 & H).
  apply bind_Ok in H as (logp & Hcall & H).
  apply bind_Ok in H as (pval1 & Hp1 & H).
  injection H as <- <-.
  exists imin, imax, pint, ins.
  repeat (split; [assumption|]). cbv zeta.
  apply call_Ok in Hcall as [-> _].
  pose proof (interp1d_Ok _ _ _ _ Hpint) as Ek.
  assert (Ekind : i_kind pint = cubic) by now rewrite Ek.
  rewrite Ekind in Hp1.
  assert (Enew : map (fun k => (k, np_exp (spline (i_x pint) (i_y pint)
                                             (np_log k)))) ins
                 = combine ins
                     (map np_exp (map (spline (i_x pint) (i_y pint))
                                      (map np_log ins)))).
  { clear. induction ins as [|k r IH]; simpl; now rewrite ?IH. }
  rewrite Enew.
  apply (np_insert_rows matpow ins _ kval1 pval1); auto.
  now rewrite !length_map.
Qed.

(** The augmented table: the merged rows without the near-duplicates. *)
Lemma augment_table_Ok (knotpos : list num) (matpow : list (num * num))
  (kval pval : list num) :
  augment_table np_log np_exp spline knotpos
    (map fst matpow) (map snd matpow) = Ok (kval, pval) ->
  exists kval1 pval1,
    insert_rows np_log np_exp spline knotpos
      (map fst matpow) (map snd matpow) = Ok (kval1, pval1) /\
    forall rows, kval1 = map fst rows -> pval1 = map snd rows ->
      kval = map fst (dedup fst rows) /\ pval = map snd (dedup fst rows).
Proof.
  unfold augment_table. intros H.
  apply bind_Ok in H as ([kval1 pval1] & Hins & H).
  apply bind_Ok in H as (u & _ & H).
  exists kval1, pval1. split; [assumption|].
  intros rows -> ->.
  destruct (np_delete_rows rows) as [Ek Ep].
  cbv zeta in Ek, Ep. rewrite Ek, Ep in H.
  now injection H as <- <-.
Qed.

Lemma item_0 {T : Type} (l : list T) (x d : T) :
  item l 0 = Ok x -> hd d l = x /\ l <> [].
Proof.
  unfold item. destruct l as [|a r]; cbn; [discriminate|].
  intros H. injection H as <-. split; [reflexivity | discriminate].
Qed.

Lemma item_last {T : Type} (l : list T) (x d : T) :
  item l (-1) = Ok x -> last l d = x /\ l <> [].
Proof.
  unfold item. cbn [Z.ltb Z.compare].
  set (j := (-1 + Z.of_nat (length l))%Z).
  destruct (andb _ _) eqn:E; [|discriminate].
  apply andb_prop in E as [E1 E2].
  apply Z.leb_le in E1. apply Z.ltb_lt in E2.
  destruct (nth_error l (Z.to_nat j)) as [v|] eqn:Hn; [|discriminate].
  intros H. injection H as <-.
  assert (Hl : l <> []) by (intros ->; subst j; cbn in E1; lia).
  split; auto.
  destruct (exists_last Hl) as (l' & y & ->).
  rewrite last_last.
  assert (Ej : Z.to_nat j = length l').
  { subst j. rewrite length_app, Nat.add_comm. cbn [length Nat.add]. lia. }
  rewrite Ej, nth_error_app2, Nat.sub_diag in Hn by lia.
  cbn in Hn. congruence.
Qed.

(** The output rows: the augmented table, each [P] times the linear
    interpolant of the extended knots at its [k]. *)
Lemma change_power_spectrum_knots_Ok (knotpos knotval : list num)
  (matpow out : list (num * num)) :
  change_power_spectrum_knots np_log np_exp spline knotpos knotval matpow
    = Ok out ->
  exists kval pval dpk,
    increasing knotpos = true /\
    length knotval = length knotpos /\
    map fst matpow <> [] /\ knotval <> [] /\
    augment_table np_log np_exp spline knotpos
      (map fst matpow) (map snd matpow) = Ok (kval, pval) /\
    interp1d
      (ext_knotpos (hd #0 (map fst matpow)) knotpos
         (last (map fst matpow) #0))
      (ext_knotval (hd #0 knotval) knotval (last knotval #0)) linear
      = Ok dpk /\
    (forall k, In k kval ->
       (k <? hd #0 (i_x dpk)) = false /\
       (last (i_x dpk) #0 <? k) = false) /\
    out = combine kval
            (times pval (map (linear_at (i_x dpk) (i_y dpk)) kval)).
Proof.
  unfold change_power_spectrum_knots. intros H.
  apply bind_Ok in H as (u1 & H1 & H). apply assert_Ok in H1.
  apply bind_Ok in H as (u2 & H2 & H). apply assert_Ok in H2.
  apply bind_Ok in H as (u3 & _ & H).
  apply bind_Ok in H as (k_first & Hkf & H).
  apply bind_Ok in H as (u4 & _ & H).
  apply bind_Ok in H as (k_last & Hkl & H).
  apply bind_Ok in H as (u5 & _ & H).
  apply bind_Ok in H as (v_first & Hvf & H).
  apply bind_Ok in H as (v_last & Hvl & H).
  apply bind_Ok in H as (u6 & _ & H).
  apply bind_Ok in H as ([kval pval] & Haug & H).
  apply bind_Ok in H as (dpk & Hdpk & H).
  apply bind_Ok in H as (factor & Hcall & H).
  injection H as <-.
  apply (item_0 _ _ #0) in Hkf as [<- Hne].
  apply (item_last _ _ #0) in Hkl as [<- _].
  apply (item_0 _ _ #0) in Hvf as [<- Hnv].
  apply (item_last _ _ #0) in Hvl as [<- _].
  exists kval, pval, dpk.
  apply Nat.eqb_eq in H2.
  repeat (split; [assumption|]).
  pose proof (interp1d_Ok _ _ _ _ Hdpk) as Ed.
  apply call_Ok in Hcall as [-> Hb].
  split; [exact Hb|]. rewrite Ed. reflexivity.
Qed.

End KnotsInversion.

(* ================================================================== *)
(** ** Valid inputs *)

Section Valid.

Context {A : Arith}.
Local Open Scope num_scope.

Lemma item_nat {T : Type} (l : list T) (i : nat) (x d : T) :
  item l (Z.of_nat i) = Ok x -> i < length l /\ nth i l d = x.
Proof.
  unfold item.
  replace (Z.of_nat i <? 0)%Z with false by (symmetry; apply Z.ltb_ge; lia).
  destruct (andb _ _) eqn:E; [|discriminate].
  apply andb_prop in E as [_ E]. apply Z.ltb_lt in E.
  rewrite Nat2Z.id.
  destruct (nth_error l i) as [v|] eqn:Hn; [|discriminate].
  intros H. injection H as <-. split; [lia|].
  now apply nth_error_nth.
Qed.

Lemma item_pred {T : Type} (l : list T) (i : nat) (x d : T) :
  1 <= i -> item l (Z.of_nat i - 1) = Ok x -> nth (i - 1) l d = x.
Proof.
  intros Hi H.
  replace (Z.of_nat i - 1)%Z with (Z.of_nat (i - 1)) in H by lia.
  now apply (item_nat _ _ _ d) in H as [_ H].
Qed.

(** Entries before the [searchsorted] index are below the value, and the
    entry at the index is not. *)
Lemma searchsorted_lt (l : list num) (v : num) :
  forall i, i < searchsorted l v -> (nth i l #0 <? v) = true.
Proof.
  induction l as [|x r IH]; intros i Hi; simpl in *; [lia|].
  destruct (x <? v) eqn:E; [|lia].
  destruct i as [|i]; auto. apply IH. lia.
Qed.

Lemma searchsorted_ge (l : list num) (v : num) :
  searchsorted l v < length l ->
  (nth (searchsorted l v) l #0 <? v) = false.
Proof.
  induction l as [|x r IH]; simpl; intros H; [lia|].
  destruct (x <? v) eqn:E; auto. apply IH. lia.
Qed.

Lemma in_slice {T : Type} (l : list T) (a b : nat) (x d : T) :
  In x (slice l a b) ->
  exists i, a <= i /\ i < b /\ i < length l /\ nth i l d = x.
Proof.
  unfold slice. intros H.
  apply (In_nth _ _ d) in H as (j & Hj & E).
  rewrite length_firstn, length_skipn in Hj.
  rewrite nth_firstn in E.
  replace (Nat.ltb j (b - a)) with true in E
    by (symmetry; apply Nat.ltb_lt; lia).
  rewrite nth_skipn in E.
  exists (a + j)%nat. repeat split; auto; lia.
Qed.

Lemma hd_slice {T : Type} (l : list T) (a b : nat) (d : T) :
  slice l a b <> [] -> hd d (slice l a b) = nth a l d.
Proof.
  unfold slice. intros H.
  destruct (firstn (b - a) (skipn a l)) as [|x r] eqn:E; [congruence|].
  cbn [hd].
  assert (Hx : nth 0 (firstn (b - a) (skipn a l)) d = x) by now rewrite E.
  rewrite nth_firstn in Hx.
  destruct (Nat.ltb 0 (b - a)) eqn:Hlt.
  - rewrite nth_skipn, Nat.add_0_r in Hx. now symmetry.
  - apply Nat.ltb_ge in Hlt.
    replace (b - a)%nat with 0%nat in E by lia. discriminate.
Qed.

End Valid.

Lemma StronglySorted_map {T U : Type} (R : T -> T -> Prop)
  (R' : U -> U -> Prop) (f : T -> U) (l : list T) :
  StronglySorted R l ->
  (forall x y, In x l -> In y l -> R x y -> R' (f x) (f y)) ->
  StronglySorted R' (map f l).
Proof.
  induction 1 as [|a l Hs IH Ha]; intros H; simpl; constructor.
  - apply IH. intros x y Hx Hy. apply H; now right.
  - apply Forall_map. rewrite Forall_forall in *. intros y Hy.
    apply H; [now left | now right | now apply Ha].
Qed.

(* ================================================================== *)
(** ** Exact arithmetic: the augmented table of a valid input *)

Section ExactKnots.

#[local] Existing Instance exact | 0.
Variables np_log np_exp : xreal -> xreal.
Variable spline : list xreal -> list xreal -> xreal -> xreal.
Local Open Scope x_scope.

Local Abbreviation searchsorted := (@searchsorted exact).
Local Abbreviation increasing := (@increasing exact).

Lemma inc_map {T : Type} (key : T -> xreal) (l : list T) :
  inc idk (map key l) <-> inc key l.
Proof.
  unfold inc. rewrite Forall_map. split; intros [Hs Hf]; split; auto.
  - clear Hf. induction l as [|a l IH]; [constructor|].
    simpl in Hs. inversion Hs as [|? ? Hs' Ha]; subst.
    constructor; auto. apply Forall_forall. intros y Hy.
    rewrite Forall_forall in Ha. apply (Ha (key y)). now apply in_map.
  - clear Hf.
    apply (StronglySorted_map (klt key)); auto.
Qed.

Lemma nondec_map {T : Type} (key : T -> xreal) (l : list T) :
  nondec idk (map key l) <-> nondec key l.
Proof.
  unfold nondec. rewrite Forall_map. split; intros [Hs Hf]; split; auto.
  - clear Hf. induction l as [|a l IH]; [constructor|].
    simpl in Hs. inversion Hs as [|? ? Hs' Ha]; subst.
    constructor; auto. apply Forall_forall. intros y Hy.
    rewrite Forall_forall in Ha. apply (Ha (key y)). now apply in_map.
  - clear Hf.
    apply (StronglySorted_map (kle key)); auto.
Qed.

Lemma increasing_inc (l : list xreal) :
  increasing l = true -> Forall fin l -> inc idk l.
Proof.
  intros Hi Hf. split; auto. clear Hf.
  induction l as [|a r IH]; [constructor|].
  destruct r as [|b r']; [repeat constructor|].
  cbn [increasing] in Hi. apply andb_prop in Hi as [Hab Hi].
  specialize (IH Hi). constructor; auto.
  constructor; auto.
  inversion IH as [|? ? _ Hb]; subst.
  eapply Forall_impl; [|exact Hb].
  intros y Hy. unfold klt in *. eapply xlt_trans; eauto.
Qed.

Lemma inc_nth (l : list xreal) :
  inc idk l ->
  forall i j, (i < j)%nat -> (j < length l)%nat ->
    (nth i l #0 <? nth j l #0) = true.
Proof.
  intros [Hs _]. induction Hs as [|a l Hs IH Ha]; intros i j Hij Hj;
    simpl in Hj; [lia|].
  destruct j as [|j]; [lia|]. destruct i as [|i]; cbn [nth].
  - rewrite Forall_forall in Ha. apply Ha. apply nth_In. lia.
  - apply IH; lia.
Qed.

Lemma inc_nth_le (l : list xreal) :
  inc idk l ->
  forall i j, (i <= j)%nat -> (j < length l)%nat ->
    (nth i l #0 <=? nth j l #0) = true.
Proof.
  intros Hl i j Hij Hj.
  destruct (Nat.eq_dec i j) as [->|Hne].
  - apply xle_refl. destruct Hl as [_ Hf]. rewrite Forall_forall in Hf.
    apply Hf. apply nth_In. lia.
  - apply xlt_le. apply inc_nth; auto. lia.
Qed.

Lemma inc_hd_le (l : list xreal) (x : xreal) :
  inc idk l -> In x l -> (hd #0 l <=? x) = true.
Proof.
  intros Hl Hx. destruct l as [|a r]; [destruct Hx|]. cbn [hd].
  destruct (inc_head _ _ _ Hl) as [Ha Har].
  destruct Hx as [<-|Hx]; [now apply xle_refl|].
  rewrite Forall_forall in Har. apply xlt_le. now apply Har.
Qed.

Lemma searchsorted_mono (l : list xreal) (v v' : xreal) :
  (v <=? v') = true -> (searchsorted l v <= searchsorted l v')%nat.
Proof.
  intros Hv. induction l as [|x r IH]; cbn [searchsorted]; [lia|].
  destruct (x <? v) eqn:E; [|lia].
  rewrite (xlt_le_trans _ _ _ E Hv). lia.
Qed.

Lemma forallb_pos_fin (l : list xreal) :
  forallb (fun k => #0 <? k) l = true -> Forall fin l.
Proof.
  intros H. apply Forall_forall. intros x Hx.
  rewrite forallb_forall in H. apply H in Hx. now apply xlt_fin_r in Hx.
Qed.

(** What validity says, in terms of the order. *)
Lemma valid_input_inv (knotpos knotval : list xreal)
  (matpow : list (xreal * xreal)) :
  valid_input knotpos knotval matpow = true ->
  inc idk (map fst matpow) /\
  Forall (fun k => (#0 <? k) = true) (map fst matpow) /\
  inc idk knotpos /\
  length knotval = length knotpos /\
  Forall (fun p => (hd #0 (map fst matpow) <? p) = true /\
                   (p <? last (map fst matpow) #0) = true) knotpos /\
  Forall (fun v => (#0 <? v) = true) knotval.
Proof.
  unfold valid_input. intros H.
  apply andb_prop in H as [H Hv]. apply andb_prop in H as [H Hp].
  apply andb_prop in H as [H Hl]. apply andb_prop in H as [H Hi].
  apply andb_prop in H as [Hk Hpos].
  apply Nat.eqb_eq in Hl.
  rewrite forallb_forall in Hv, Hp.
  assert (Hkp : Forall (fun p => (hd #0 (map fst matpow) <? p) = true /\
                   (p <? last (map fst matpow) #0) = true) knotpos).
  { apply Forall_forall. intros p Hin.
    apply Hp in Hin. now apply andb_prop in Hin. }
  split; [|split; [|split; [|split; [|split]]]]; auto.
  - apply increasing_inc; auto. now apply forallb_pos_fin.
  - apply Forall_forall. now apply forallb_forall.
  - apply increasing_inc; auto.
    eapply Forall_impl; [|exact Hkp].
    intros p [Hp' _]. now apply xlt_fin_r in Hp'.
  - now apply Forall_forall.
Qed.

(** *** The window and the inserted points *)

Lemma in_firstn {T : Type} (n : nat) (l : list T) (x : T) :
  In x (firstn n l) -> In x l.
Proof.
  revert l. induction n as [|n IH]; intros [|a l]; cbn [firstn];
    try (intros []).
  - now left.
  - right; auto.
Qed.

Lemma inc_firstn (n : nat) (l : list xreal) :
  inc idk l -> inc idk (firstn n l).
Proof.
  intros [Hs Hf]. split.
  - clear Hf. revert n. induction Hs as [|a l Hs IH Ha]; intros [|n];
      cbn [firstn]; try constructor; auto.
    apply Forall_forall. intros y Hy. rewrite Forall_forall in Ha.
    apply Ha. eapply in_firstn; eauto.
  - apply Forall_forall. intros y Hy. rewrite Forall_forall in Hf.
    apply Hf. eapply in_firstn; eauto.
Qed.

Lemma inc_skipn (n : nat) (l : list xreal) :
  inc idk l -> inc idk (skipn n l).
Proof.
  revert l. induction n as [|n IH]; intros l Hl; cbn [skipn]; auto.
  destruct l as [|a l]; auto. apply IH. now apply inc_tail in Hl.
Qed.

Lemma inc_slice (l : list xreal) (a b : nat) :
  inc idk l -> inc idk (slice l a b).
Proof. intros H. now apply inc_firstn, inc_skipn. Qed.

Lemma last_nth_pred (l : list xreal) :
  last l #0 = nth (length l - 1) l #0.
Proof.
  induction l as [|a r IH]; [reflexivity|].
  destruct r as [|b r']; [reflexivity|].
  change (last (a :: b :: r') #0) with (last (b :: r') #0).
  rewrite IH. cbn [length]. rewrite !Nat.sub_succ, !Nat.sub_0_r.
  reflexivity.
Qed.

(** The window leaves out the last row, so its entries are inside the
    table's range. *)
Lemma slice_range (kval : list xreal) (imin imax : nat) :
  inc idk kval -> (imax <= length kval - 1)%nat ->
  Forall (fun x => (hd #0 kval <=? x) = true /\
                   (x <? last kval #0) = true)
         (slice kval imin imax).
Proof.
  intros Hk Hi. apply Forall_forall. intros x Hx.
  pose proof Hx as Hin.
  apply (in_slice _ _ _ _ #0) in Hx as (i & _ & Hib & Hil & <-).
  split.
  - apply inc_hd_le; auto. apply nth_In. lia.
  - rewrite last_nth_pred. apply inc_nth; auto; lia.
Qed.

Lemma window_Ok (knotpos kval : list xreal) (imin imax : nat) :
  Forall (fun k => (#0 <? k) = true) kval ->
  Forall (fun p => (hd #0 kval <? p) = true /\
                   (p <? last kval #0) = true) knotpos ->
  window knotpos kval = Ok (imin, imax) ->
  knotpos <> [] /\
  (imax <= length kval - 1)%nat /\
  (nth imin kval #0 <? hd #0 knotpos) = true.
Proof.
  intros Hpos Hkp. unfold window. intros H.
  apply bind_Ok in H as (p_first & Hpf & H).
  apply bind_Ok in H as (p_last & Hpl & H).
  injection H as <- <-.
  apply (item_0 _ _ #0) in Hpf as [Ehd Hne]. rewrite Ehd.
  split; [assumption|]. split; [lia|].
  assert (Hin : In p_first knotpos).
  { destruct knotpos; [now elim Hne|]. cbn in Ehd. subst. now left. }
  rewrite Forall_forall in Hkp. destruct (Hkp _ Hin) as [Hlo _].
  assert (Hp0 : (#0 <? p_first) = true).
  { destruct kval as [|k0 r]; [exact Hlo|].
    inversion Hpos; subst. cbn [map hd] in Hlo.
    eapply xlt_trans; eauto. }
  match goal with
  | |- context [searchsorted kval ?v] => set (i_lo := searchsorted kval v)
  end.
  destruct (Nat.le_gt_cases i_lo 5) as [Hi|Hi].
  - replace (Z.to_nat (Z.max 0 (Z.of_nat i_lo - 5))) with 0%nat by lia.
    destruct kval; exact Hlo.
  - assert (Hlt : (Z.to_nat (Z.max 0 (Z.of_nat i_lo - 5)) < i_lo)%nat)
      by lia.
    apply searchsorted_lt in Hlt.
    eapply xlt_trans; [exact Hlt|].
    clear - Hp0. xr.
Qed.

Lemma mid_midpoint_at (ksub : list xreal) :
  forall knotpos above below,
    Forall (fun p => (hd #0 ksub <? p) = true) knotpos ->
    Forall2 (fun l y => item ksub (Z.of_nat l) = Ok y)
            (map (searchsorted ksub) knotpos) above ->
    Forall2 (fun l y => item ksub (Z.of_nat l - 1) = Ok y)
            (map (searchsorted ksub) knotpos) below ->
    mid above below = map (midpoint_at ksub) knotpos /\
    Forall (bracketed ksub) knotpos.
Proof.
  induction knotpos as [|p kp IH]; intros above below Hhd Ha Hb;
    cbn [map] in *.
  - inversion Ha; subst. split; [reflexivity | constructor].
  - inversion Ha as [|? a ? above' Hia Ha']; subst.
    inversion Hb as [|? b ? below' Hib Hb']; subst.
    inversion Hhd as [|? ? Hp Hhd']; subst.
    destruct (IH _ _ Hhd' Ha' Hb') as [E Hbr].
    apply (item_nat _ _ _ #0) in Hia as [Hlt <-].
    assert (H1 : (1 <= searchsorted ksub p)%nat).
    { destruct ksub as [|x r]; [cbn in Hlt; lia|].
      cbn [hd] in Hp. cbn [searchsorted]. rewrite Hp. lia. }
    apply (item_pred _ _ _ #0) in Hib; auto. subst b.
    cbn [mid]. rewrite E. split; [reflexivity|].
    constructor; auto. split; auto.
Qed.

Lemma midpoint_between (ksub : list xreal) (p : xreal) :
  inc idk ksub -> bracketed ksub p ->
  let loc := searchsorted ksub p in
  (nth (loc - 1)%nat ksub #0 <? midpoint_at ksub p) = true /\
  (midpoint_at ksub p <? nth loc ksub #0) = true.
Proof.
  intros Hk [H1 H2] loc. unfold midpoint_at. fold loc.
  assert (Hlt : (nth (loc - 1)%nat ksub #0 <? nth loc ksub #0) = true)
    by (apply inc_nth; auto; lia).
  clearbody loc. clear - Hlt.
  destruct (nth (loc - 1)%nat ksub #0), (nth loc ksub #0);
    try discriminate. xr.
Qed.

Lemma midpoint_mono (ksub : list xreal) (p p' : xreal) :
  inc idk ksub -> bracketed ksub p -> bracketed ksub p' ->
  (p <=? p') = true ->
  (midpoint_at ksub p <=? midpoint_at ksub p') = true.
Proof.
  intros Hk Hb Hb' Hpp.
  pose proof (searchsorted_mono ksub _ _ Hpp) as Hloc.
  destruct (midpoint_between ksub p Hk Hb) as [_ Hm].
  destruct (midpoint_between ksub p' Hk Hb') as [Hm' _].
  destruct (Nat.eq_dec (searchsorted ksub p) (searchsorted ksub p'))
    as [E|Hne].
  - unfold midpoint_at. rewrite E. apply xle_refl.
    unfold midpoint_at in Hm'. now apply xlt_fin_r in Hm'.
  - apply xlt_le. eapply xlt_trans; [exact Hm|].
    eapply xle_lt_trans; [|exact Hm'].
    destruct Hb' as [_ Hlen]. apply inc_nth_le; auto; lia.
Qed.

Lemma insert_points_Ok (knotpos ksub ins : list xreal) (lo hi : xreal) :
  inc idk ksub -> inc idk knotpos ->
  Forall (fun x => (lo <=? x) = true /\ (x <? hi) = true) ksub ->
  Forall (fun p => (lo <? p) = true /\ (p <? hi) = true) knotpos ->
  (hd #0 ksub <? hd #0 knotpos) = true ->
  insert_points knotpos ksub = Ok ins ->
  nondec idk ins /\
  Forall (fun k => (lo <? k) = true /\ (k <? hi) = true) ins /\
  length ins = (2 * length knotpos)%nat.
Proof.
  intros Hks Hkp Hrs Hrp Hhd. unfold insert_points. intros H.
  apply bind_Ok in H as (above & Ha & H).
  apply bind_Ok in H as (below & Hb & H).
  apply mapM_Ok in Ha, Hb.
  assert (Hall : Forall (fun p => (hd #0 ksub <? p) = true) knotpos).
  { apply Forall_forall. intros p Hp.
    eapply xlt_le_trans; [exact Hhd|]. now apply inc_hd_le. }
  destruct (mid_midpoint_at ksub knotpos above below Hall Ha Hb) as [E Hbr].
  rewrite E in H. rewrite np_insert_searchsorted in H. injection H as <-.
  change (merge_in (fun k => k)) with (merge_in idk).
  set (mids := map (midpoint_at ksub) knotpos).
  rewrite Forall_forall in Hbr, Hrs.
  assert (Hbetween : forall p, In p knotpos ->
            (lo <? midpoint_at ksub p) = true /\
            (midpoint_at ksub p <? hi) = true).
  { intros p Hp. destruct (Hbr p Hp) as [H1 H2].
    destruct (midpoint_between ksub p Hks (Hbr p Hp)) as [Hlo Hhi].
    split.
    - eapply xle_lt_trans; [|exact Hlo]. apply Hrs. apply nth_In. lia.
    - eapply xlt_trans; [exact Hhi|]. apply Hrs. now apply nth_In. }
  assert (Hmids : nondec idk mids).
  { split.
    - apply (StronglySorted_map (klt idk)); [apply Hkp|].
      intros x y Hx Hy Hxy. apply midpoint_mono; auto.
      now apply xlt_le.
    - apply Forall_map, Forall_forall. intros p Hp.
      destruct (Hbetween p Hp) as [Hlo _]. now apply xlt_fin_r in Hlo. }
  split; [now apply nondec_merge_in|]. split.
  - apply Forall_forall. intros k Hk. apply in_merge_in in Hk as [Hk|Hk].
    + rewrite Forall_forall in Hrp. now apply Hrp.
    + apply in_map_iff in Hk as (p & <- & Hp). now apply Hbetween.
  - rewrite length_merge_in. unfold mids. rewrite length_map. lia.
Qed.

(** The rows of a valid input after the two [np.insert]: the input rows
    and the rows inserted at [ins], merged by [k]. *)
Lemma insert_rows_valid (knotpos knotval : list xreal)
  (matpow : list (xreal * xreal)) (kval pval : list xreal) :
  valid_input knotpos knotval matpow = true ->
  insert_rows np_log np_exp spline knotpos
    (map fst matpow) (map snd matpow) = Ok (kval, pval) ->
  exists imin imax pint ins,
    window knotpos (map fst matpow) = Ok (imin, imax) /\
    interp1d (map np_log (slice (map fst matpow) imin imax))
             (map np_log (slice (map snd matpow) imin imax)) cubic
      = Ok pint /\
    let new_rows :=
      map (fun k => (k, np_exp (spline (i_x pint) (i_y pint) (np_log k))))
          ins in
    let merged := merge_in fst matpow new_rows in
    kval = map fst merged /\
    pval = map snd merged /\
    inc fst matpow /\
    nondec fst merged /\
    Forall (kpos fst) merged /\
    length ins = (2 * length knotpos)%nat /\
    Forall (fun k => (hd #0 (map fst matpow) <? k) = true /\
                     (k <? last (map fst matpow) #0) = true) ins.
Proof.
  intros Hv Hrows.
  destruct (valid_input_inv _ _ _ Hv) as (Hk & Hpos & Hkp & Hlen & Hin & Hkv).
  destruct (insert_rows_Ok _ _ _ _ _ _ _ Hrows)
    as (imin & imax & pint & ins & Hw & Hpint & Hins & Hm).
  cbv zeta in Hm. destruct Hm as [-> ->].
  destruct (window_Ok _ _ _ _ Hpos Hin Hw) as (Hne & Himax & Hhd).
  cbn [num exact] in *.
  set (ksub := slice (map fst matpow) imin imax) in *.
  assert (Hksub : ksub <> []).
  { intros E. unfold insert_points in Hins. rewrite E in Hins.
    destruct knotpos as [|p kp]; [congruence|]. discriminate Hins. }
  assert (Hhd' : (hd #0 ksub <? hd #0 knotpos) = true).
  { unfold ksub. rewrite hd_slice; auto. }
  destruct (insert_points_Ok knotpos ksub ins _ _
              (inc_slice _ imin imax Hk) Hkp
              (slice_range _ imin imax Hk Himax) Hin Hhd' Hins)
    as (Hnd & Hrange & Hlen2).
  exists imin, imax, pint, ins. cbv zeta.
  split; [exact Hw|]. split; [exact Hpint|].
  set (new_rows := map _ ins).
  assert (Hfst : map fst new_rows = ins).
  { unfold new_rows. rewrite map_map. cbn [fst]. apply map_id. }
  assert (Hmp : inc fst matpow) by now apply inc_map.
  split; [reflexivity|]. split; [reflexivity|]. split; [exact Hmp|].
  split; [|split; [|split; [exact Hlen2 | exact Hrange]]].
  - apply nondec_merge_in; auto. apply nondec_map. now rewrite Hfst.
  - apply Forall_forall. intros r Hr. apply in_merge_in in Hr as [Hr|Hr].
    + rewrite Forall_forall in Hpos. apply Hpos. now apply in_map.
    + assert (Hk' : In (fst r) ins).
      { rewrite <- Hfst. now apply in_map. }
      rewrite Forall_forall in Hrange. destruct (Hrange _ Hk') as [Hlo _].
      unfold kpos. clear - Hlo Hpos.
      destruct (map fst matpow) as [|k0 ks]; [exact Hlo|].
      inversion Hpos; subst. cbn [hd] in Hlo. eapply xlt_trans; eauto.
Qed.

(** *** The linear interpolant of the extended knots *)

Lemma searchsorted_eq (l : list xreal) (v : xreal) :
  forall i, (i <= length l)%nat ->
    (forall a, (a < i)%nat -> (nth a l #0 <? v) = true) ->
    ((i < length l)%nat -> (nth i l #0 <? v) = false) ->
    searchsorted l v = i.
Proof.
  induction l as [|x r IH]; intros i Hi Hlt Hge; cbn [length] in Hi.
  - cbn. lia.
  - cbn [searchsorted]. destruct i as [|i].
    + specialize (Hge ltac:(cbn; lia)). cbn [nth] in Hge.
      now rewrite Hge.
    + pose proof (Hlt 0%nat ltac:(lia)) as H0. cbn [nth] in H0.
      rewrite H0. f_equal. apply IH.
      * lia.
      * intros a Ha. apply (Hlt (S a)). lia.
      * intros Ha. apply Hge. cbn. lia.
Qed.

Lemma sort_xy_inc (l : list (xreal * xreal)) :
  inc fst l -> sort_xy l = l.
Proof.
  induction l as [|a r IH]; intros Hl; [reflexivity|].
  cbn [sort_xy fold_right]. fold (sort_xy r).
  rewrite IH by now apply inc_tail in Hl.
  destruct r as [|q r']; [reflexivity|]. cbn [insert_xy].
  destruct (inc_head _ _ _ Hl) as [_ Hq]. inversion Hq; subst.
  now rewrite xlt_nlt.
Qed.

Lemma map_fst_combine {T U : Type} (a : list T) (b : list U) :
  length a = length b -> map fst (combine a b) = a.
Proof.
  revert b. induction a as [|x a IH]; intros [|y b] H; simpl in *;
    try discriminate; auto.
  f_equal. apply IH. lia.
Qed.

Lemma map_snd_combine {T U : Type} (a : list T) (b : list U) :
  length a = length b -> map snd (combine a b) = b.
Proof.
  revert b. induction a as [|x a IH]; intros [|y b] H; simpl in *;
    try discriminate; auto.
  f_equal. apply IH. lia.
Qed.

(** The extended knots of a valid input are increasing: 0.95 k_min is
    below the first knot and 1.05 k_max above the last. *)
Lemma ext_knotpos_inc (knotpos knotval : list xreal)
  (matpow : list (xreal * xreal)) :
  valid_input knotpos knotval matpow = true ->
  map fst matpow <> [] ->
  inc idk (ext_knotpos (hd #0 (map fst matpow)) knotpos
             (last (map fst matpow) #0)).
Proof.
  intros Hv Hne.
  destruct (valid_input_inv _ _ _ Hv) as (Hk & Hpos & Hkp & _ & Hin & _).
  set (kval := map fst matpow) in *.
  assert (H0 : (#0 <? hd #0 kval) = true).
  { destruct kval; [congruence|]. now inversion Hpos. }
  assert (Hn : (#0 <? last kval #0) = true).
  { rewrite Forall_forall in Hpos. apply Hpos.
    destruct (exists_last Hne) as (l' & y & ->). rewrite last_last.
    apply in_or_app. right. now left. }
  assert (Hmm : (hd #0 kval <=? last kval #0) = true).
  { apply inc_hd_le; auto.
    destruct (exists_last Hne) as (l' & y & ->). rewrite last_last.
    apply in_or_app. right. now left. }
  unfold ext_knotpos. rewrite Forall_forall in Hin.
  set (k0 := hd #0 kval) in *. set (kn := last kval #0) in *.
  split.
  - cbn [app]. constructor.
    + apply StronglySorted_app; [apply Hkp | repeat constructor |].
      intros x y Hx [<-|[]]. destruct (Hin x Hx) as [_ Hhi].
      unfold klt, idk. clearbody kn. clear - Hhi Hn. xr.
    + apply Forall_app. split.
      * apply Forall_forall. intros p Hp. destruct (Hin p Hp) as [Hlo _].
        unfold klt, idk. clearbody k0. clear - Hlo H0. xr.
      * repeat constructor. unfold klt, idk. clearbody k0 kn.
        clear - H0 Hn Hmm. xr.
  - cbn [app]. constructor.
    + unfold kfin, idk. clearbody k0. clear - H0. xr.
    + apply Forall_app. split; [apply Hkp|].
      repeat constructor. unfold kfin, idk. clearbody kn. clear - Hn. xr.
Qed.

(** A successful run on a valid input: every row of the augmented table,
    its [P] multiplied by the factor at its [k]; every [k] of it lies
    between the two boundary knots. *)
Lemma run_valid (knotpos knotval : list xreal)
  (matpow out : list (xreal * xreal)) :
  valid_input knotpos knotval matpow = true ->
  change_power_spectrum_knots np_log np_exp spline knotpos knotval matpow
    = Ok out ->
  exists kval pval,
    augment_table np_log np_exp spline knotpos
      (map fst matpow) (map snd matpow) = Ok (kval, pval) /\
    out = combine kval
            (times pval (map (knot_factor knotpos knotval matpow) kval)) /\
    map fst matpow <> [] /\ knotval <> [] /\
    forall k, In k kval ->
      (k <? hd #0 (map fst matpow) * #0.95) = false /\
      (last (map fst matpow) #0 * #1.05 <? k) = false.
Proof.
  intros Hv Hrun.
  destruct (change_power_spectrum_knots_Ok _ _ _ _ _ _ _ Hrun)
    as (kval & pval & dpk & _ & Hlen & Hne & Hnv & Haug & Hdpk & Hb & ->).
  exists kval, pval. split; [exact Haug|].
  pose proof (ext_knotpos_inc _ _ _ Hv Hne) as Hinc.
  apply interp1d_Ok in Hdpk.
  assert (Hl : length (ext_knotpos (hd #0 (map fst matpow)) knotpos
                         (last (map fst matpow) #0))
               = length (ext_knotval (hd #0 knotval) knotval
                           (last knotval #0))).
  { unfold ext_knotpos, ext_knotval. rewrite !length_app. cbn [length]. lia. }
  rewrite sort_xy_inc in Hdpk
    by (apply inc_map; rewrite map_fst_combine; auto).
  rewrite map_fst_combine, map_snd_combine in Hdpk by exact Hl.
  subst dpk. cbn [i_x i_y] in *.
  split; [reflexivity|]. split; [exact Hne|]. split; [exact Hnv|].
  intros k Hk. destruct (Hb k Hk) as [H1 H2]. split; [exact H1|].
  unfold ext_knotpos in H2. rewrite app_assoc, last_last in H2. exact H2.
Qed.

(** Everything a successful run on a valid input went through, row by
    row. *)
Lemma run_rows (knotpos knotval : list xreal)
  (matpow out : list (xreal * xreal)) :
  valid_input knotpos knotval matpow = true ->
  change_power_spectrum_knots np_log np_exp spline knotpos knotval matpow
    = Ok out ->
  exists imin imax pint ins,
    window knotpos (map fst matpow) = Ok (imin, imax) /\
    interp1d (map np_log (slice (map fst matpow) imin imax))
             (map np_log (slice (map snd matpow) imin imax)) cubic
      = Ok pint /\
    let new_rows :=
      map (fun k => (k, np_exp (spline (i_x pint) (i_y pint) (np_log k))))
          ins in
    let merged := merge_in fst matpow new_rows in
    let rows := dedup fst merged in
    insert_rows np_log np_exp spline knotpos
      (map fst matpow) (map snd matpow)
      = Ok (map fst merged, map snd merged) /\
    augment_table np_log np_exp spline knotpos
      (map fst matpow) (map snd matpow)
      = Ok (map fst rows, map snd rows) /\
    out = map (fun r => (fst r,
                         snd r * knot_factor knotpos knotval matpow (fst r)))
              rows /\
    inc fst matpow /\ nondec fst merged /\ Forall (kpos fst) merged /\
    length ins = (2 * length knotpos)%nat /\
    Forall (fun k => (hd #0 (map fst matpow) <? k) = true /\
                     (k <? last (map fst matpow) #0) = true) ins /\
    matpow <> [] /\ knotval <> [] /\
    forall r, In r rows ->
      (fst r <? hd #0 (map fst matpow) * #0.95) = false /\
      (last (map fst matpow) #0 * #1.05 <? fst r) = false.
Proof.
  intros Hv Hrun.
  destruct (run_valid _ _ _ _ Hv Hrun)
    as (kval & pval & Haug & -> & Hne & Hnv & Hb).
  destruct (augment_table_Ok _ _ _ _ _ _ _ Haug)
    as (kval1 & pval1 & Hins & Hd).
  destruct (insert_rows_valid _ _ _ _ _ Hv Hins)
    as (imin & imax & pint & ins & Hw & Hpint & Hm).
  cbv zeta in Hm.
  destruct Hm as (-> & -> & Hmp & Hnd & Hpos & Hlen & Hrange).
  destruct (Hd _ eq_refl eq_refl) as [-> ->].
  exists imin, imax, pint, ins. cbv zeta.
  split; [exact Hw|]. split; [exact Hpint|].
  split; [exact Hins|]. split; [exact Haug|].
  split; [exact (@times_map exact _ _)|].
  split; [exact Hmp|]. split; [exact Hnd|]. split; [exact Hpos|].
  split; [exact Hlen|]. split; [exact Hrange|].
  split; [intros ->; now apply Hne|]. split; [exact Hnv|].
  intros r Hr. apply Hb. now apply in_map.
Qed.

(** On an interval of the samples, [linear_at] is the chord through its
    two ends, ends included. *)
Lemma linear_at_piece (x y : list xreal) (j : nat) (xj xj1 yj yj1 k : R) :
  inc idk x -> Forall fin y -> length y = length x ->
  (S j < length x)%nat ->
  nth j x #0 = Fin xj -> nth (S j) x #0 = Fin xj1 ->
  nth j y #0 = Fin yj -> nth (S j) y #0 = Fin yj1 ->
  (xj <= k <= xj1)%R ->
  linear_at x y (Fin k)
  = Fin (yj + (yj1 - yj) / (xj1 - xj) * (k - xj))%R.
Proof.
  intros Hx Hy Hlen Hj Exj Exj1 Eyj Eyj1 [Hlo Hhi].
  assert (Hlt : (xj < xj1)%R).
  { apply ltb_Fin. rewrite <- Exj, <- Exj1. apply inc_nth; auto. }
  assert (Hbelow : forall a, (a < j)%nat -> (nth a x #0 <? Fin xj) = true).
  { intros a Ha. rewrite <- Exj. apply inc_nth; auto. lia. }
  unfold linear_at. cbn [num exact] in *.
  destruct (Rle_lt_or_eq_dec _ _ Hlo) as [Hlo'|<-].
  - (* inside, or at the right end *)
    assert (Ess : searchsorted x (Fin k) = S j).
    { apply searchsorted_eq; [lia | |].
      - intros a Ha. destruct (Nat.eq_dec a j) as [->|Hne].
        + rewrite Exj. now apply ltb_Fin.
        + eapply xlt_trans; [apply Hbelow; lia|]. now apply ltb_Fin.
      - intros _. rewrite Exj1. now apply ltb_Fin_false. }
    rewrite Ess.
    match goal with
    | |- context [Nat.min ?a ?b] => replace (Nat.min a b) with (S j) by lia
    end.
    replace (S j - 1)%nat with j by lia.
    rewrite Exj, Exj1, Eyj, Eyj1. cbn.
    destruct (Req_dec_T (xj1 - xj) 0) as [E|_]; [exfalso; lra|].
    cbn. f_equal. unfold Rdiv. ring.
  - (* at the left end *)
    destruct j as [|j].
    + assert (Ess : searchsorted x (Fin xj) = 0%nat).
      { apply searchsorted_eq; [lia | intros a Ha; lia |].
        intros _. rewrite Exj. apply xlt_irrefl. }
      rewrite Ess.
      match goal with
      | |- context [Nat.min ?a ?b] => replace (Nat.min a b) with 1%nat by lia
      end.
      cbn [Nat.sub]. rewrite Exj, Exj1, Eyj, Eyj1. cbn.
      destruct (Req_dec_T (xj1 - xj) 0) as [E|_]; [exfalso; lra|].
      cbn. f_equal. unfold Rdiv. ring.
    + assert (Ess : searchsorted x (Fin xj) = S j).
      { apply searchsorted_eq; [lia | exact Hbelow |].
        intros _. rewrite Exj. apply xlt_irrefl. }
      rewrite Ess.
      match goal with
    | |- context [Nat.min ?a ?b] => replace (Nat.min a b) with (S j) by lia
    end.
      replace (S j - 1)%nat with j by lia.
      assert (Hxp : (nth j x #0 <? Fin xj) = true) by (apply Hbelow; lia).
      destruct (nth j x #0) as [xp|] eqn:Exp; [|discriminate].
      apply ltb_Fin in Hxp.
      assert (Hyp : fin (nth j y #0)).
      { rewrite Forall_forall in Hy. apply Hy. apply nth_In. lia. }
      apply fin_inv in Hyp as [yp Eyp].
      rewrite Exj, Eyj, Eyp. cbn.
      destruct (Req_dec_T (xj - xp) 0) as [E|_]; [exfalso; lra|].
      cbn. f_equal. field. split; lra.
Qed.

(** With equal values at all samples the interpolant is that value. *)
Lemma linear_at_const (x y : list xreal) (c k : R) :
  inc idk x -> (2 <= length x)%nat -> length y = length x ->
  Forall (fun v => v = Fin c) y ->
  linear_at x y (Fin k) = Fin c.
Proof.
  intros Hx H2 Hlen Hy. unfold linear_at. cbn [num exact] in *.
  match goal with |- context [Nat.min ?a ?b] => set (hi := Nat.min a b) end.
  assert (Hhi : (1 <= hi < length x)%nat) by (unfold hi; lia).
  assert (Hlt : (nth (hi - 1) x #0 <? nth hi x #0) = true)
    by (apply inc_nth; auto; lia).
  rewrite Forall_forall in Hy.
  rewrite (Hy (nth hi y #0)) by (apply nth_In; lia).
  rewrite (Hy (nth (hi - 1) y #0)) by (apply nth_In; lia).
  destruct (nth (hi - 1) x #0) as [a|], (nth hi x #0) as [b|];
    try discriminate.
  apply ltb_Fin in Hlt. cbn.
  destruct (Req_dec_T (b - a) 0) as [E|_]; [exfalso; lra|].
  cbn. f_equal. unfold Rdiv. ring.
Qed.

Lemma nth_ext_hd {T : Type} (a b d : T) (l : list T) :
  l <> [] -> nth 1 (a :: l ++ [b]) d = hd d l.
Proof. destruct l; [congruence | reflexivity]. Qed.

Lemma nth_ext_last {T : Type} (a b d : T) (l : list T) :
  l <> [] -> nth (length l) (a :: l ++ [b]) d = last l d.
Proof.
  intros Hl. destruct (exists_last Hl) as (l' & y & ->).
  rewrite last_last, length_app, Nat.add_comm. cbn [length Nat.add nth].
  rewrite <- app_assoc. rewrite app_nth2 by lia.
  now rewrite Nat.sub_diag.
Qed.

Lemma nth_ext_end {T : Type} (a b d : T) (l : list T) :
  nth (S (length l)) (a :: l ++ [b]) d = b.
Proof.
  cbn [nth]. rewrite app_nth2 by lia. now rewrite Nat.sub_diag.
Qed.

(** *** The first and the last row *)

Lemma last_app_ne {T : Type} (l1 l2 : list T) (d : T) :
  l2 <> [] -> last (l1 ++ l2) d = last l2 d.
Proof.
  intros H. induction l1 as [|a l1 IH]; [reflexivity|].
  cbn [app]. destruct (l1 ++ l2) as [|b l] eqn:E.
  - apply app_eq_nil in E as [_ E]. congruence.
  - exact IH.
Qed.

Lemma merge_in_last {T : Type} (key : T -> xreal) (arr vs : list T)
  (z d : T) :
  Forall (fun v => (key v <? key z) = true) vs ->
  last (merge_in key (arr ++ [z]) vs) d = z.
Proof.
  revert vs. induction arr as [|a r IH]; intros vs Hvs; cbn [app merge_in].
  - assert (E : filter (fun v => key z <? key v) vs = []).
    { clear - Hvs. induction Hvs as [|v vs Hv _ IH]; [reflexivity|].
      cbn [filter]. now rewrite (xlt_nlt _ _ Hv). }
    rewrite E. apply last_last.
  - rewrite last_app_ne by discriminate.
    assert (Hne : forall ws, merge_in key (r ++ [z]) ws <> []).
    { intros ws E. assert (Hin : In z (merge_in key (r ++ [z]) ws)).
      { apply in_merge_in. left. apply in_or_app. right. now left. }
      rewrite E in Hin. destruct Hin. }
    destruct (@merge_in exact T key (r ++ [z]) _) as [|c l'] eqn:E;
      [now apply Hne in E|].
    change (last (a :: c :: l') d) with (last (c :: l') d).
    rewrite <- E. apply IH.
    apply Forall_forall. intros v Hv. apply filter_In in Hv as [Hv _].
    rewrite Forall_forall in Hvs. now apply Hvs.
Qed.

Lemma merge_in_hd {T : Type} (key : T -> xreal) (a : T) (r vs : list T) :
  Forall (fun v => (key a <? key v) = true) vs ->
  exists l, merge_in key (a :: r) vs = a :: l.
Proof.
  intros Hvs. cbn [merge_in].
  assert (E : filter (fun v => negb (key a <? key v)) vs = []).
  { clear - Hvs. induction Hvs as [|v vs Hv _ IH]; [reflexivity|].
    cbn [filter]. now rewrite Hv. }
  rewrite E. cbn [app]. eauto.
Qed.


(* ---------------------------------------------------------------- *)
(** *** The claims about the returned table *)

Lemma map_fst_scaled (f : xreal -> xreal) (rows : list (xreal * xreal)) :
  map fst (map (fun r => (fst r, snd r * f (fst r))) rows) = map fst rows.
Proof. rewrite map_map. reflexivity. Qed.


Lemma last_map {T U : Type} (f : T -> U) (l : list T) (d : T) (d' : U) :
  l <> [] -> last (map f l) d' = f (last l d).
Proof.
  intros Hl. destruct (exists_last Hl) as (l' & y & ->).
  rewrite map_app. cbn [map]. now rewrite !last_last.
Qed.

Lemma hd_In {T : Type} (l : list T) (d : T) : l <> [] -> In (hd d l) l.
Proof. destruct l; [congruence | now left]. Qed.

Lemma hd_map {T U : Type} (f : T -> U) (l : list T) (d : T) (d' : U) :
  l <> [] -> hd d' (map f l) = f (hd d l).
Proof. destruct l; [congruence | reflexivity]. Qed.

(** C8, as the code has it. For a valid input the returned table holds
    the input rows and two new rows per knot, less one row per pair of
    neighbours that [np.where] found within 1e-5 (relative) of each other;
    its largest [k] is the input's; its smallest [k] is not below the
    input's, and is the input's when the first row is not one of the
    removed ones. *)
Theorem output_rows_and_range (knotpos knotval : list xreal)
  (matpow out : list (xreal * xreal)) :
  valid_input knotpos knotval matpow = true ->
  change_power_spectrum_knots np_log np_exp spline knotpos knotval matpow
    = Ok out ->
  exists kval1 pval1,
    insert_rows np_log np_exp spline knotpos
      (map fst matpow) (map snd matpow) = Ok (kval1, pval1) /\
    length kval1 = (length matpow + 2 * length knotpos)%nat /\
    (length out + length (where_close 0 kval1))%nat = length kval1 /\
    last (map fst out) #0 = last (map fst matpow) #0 /\
    (hd #0 (map fst matpow) <=? hd #0 (map fst out)) = true /\
    (~ In 0%nat (where_close 0 kval1) ->
     hd #0 (map fst out) = hd #0 (map fst matpow)).
Proof.
  intros Hv Hrun.
  destruct (run_rows _ _ _ _ Hv Hrun)
    as (imin & imax & pint & ins & _ & _ & H).
  cbv zeta in H.
  destruct H as (Hins & _ & -> & Hmp & Hnd & Hpos & Hlen & Hrange & Hne & _).
  set (new_rows := map (fun k => (k, np_exp (spline (i_x pint) (i_y pint)
                                               (np_log k)))) ins) in *.
  set (merged := @merge_in exact _ fst matpow new_rows) in *.
  assert (Hkeys : map fst new_rows = ins).
  { unfold new_rows. rewrite map_map. apply map_id. }
  assert (Hnew : forall v, In v new_rows ->
            (hd #0 (map fst matpow) <? fst v) = true /\
            (fst v <? last (map fst matpow) #0) = true).
  { intros v Hin. rewrite Forall_forall in Hrange. apply Hrange.
    rewrite <- Hkeys. now apply in_map. }
  exists (map fst merged), (map snd merged).
  split; [exact Hins|].
  rewrite map_fst_scaled, !length_map.
  split.
  { unfold merged. rewrite length_merge_in. unfold new_rows.
    rewrite length_map. cbn [num exact] in *. lia. }
  split; [apply length_dedup|].
  (* the first and the last input row *)
  destruct matpow as [|a r]; [congruence|].
  destruct (exists_last Hne) as (mp' & z & Ez).
  assert (Hz : last (map fst (a :: r)) #0 = fst z).
  { rewrite Ez, map_app. cbn [map]. apply last_last. }
  rewrite Hz in *. cbn [map hd] in *.
  assert (Hmne : merged <> []).
  { intros E. assert (Hin : In a merged).
    { apply in_merge_in. left. now left. }
    rewrite E in Hin. destruct Hin. }
  pose proof (dedup_nonempty fst merged Hmne) as Hdne.
  destruct (merge_in_hd fst a r new_rows) as (l & Em).
  { apply Forall_forall. intros v Hin. now apply Hnew. }
  subst merged. cbn [num exact] in *.
  split; [|split].
  - rewrite (last_map fst _ a) by exact Hdne. f_equal.
    rewrite last_dedup. rewrite Ez.
    apply merge_in_last.
    apply Forall_forall. intros v Hin. now apply Hnew.
  - rewrite (hd_map fst _ a) by exact Hdne.
    assert (Hin : In (hd a (@dedup exact _ fst
                               (@merge_in exact _ fst (a :: r) new_rows)))
                     (@merge_in exact _ fst (a :: r) new_rows)).
    { apply (@in_dedup exact _ fst). apply hd_In. exact Hdne. }
    cbn [num exact] in Hin. rewrite Em in Hin, Hnd |- *.
    destruct Hnd as [Hs Hf].
    apply StronglySorted_inv in Hs as [_ Hal]. apply Forall_inv in Hf.
    destruct Hin as [<-|Hin]; [now apply xle_refl|].
    rewrite Forall_forall in Hal. now apply Hal.
  - intros Hno. rewrite (hd_map fst _ a) by exact Hdne. f_equal.
    rewrite Em in *. destruct l as [|b l']; [reflexivity|].
    rewrite dedup_cons2.
    change (@where_close exact 0 (map fst (a :: b :: l')))
      with ((if @close exact (fst a) (fst b) then [0%nat] else [])
            ++ @where_close exact 1 (map fst (b :: l'))) in Hno.
    destruct (@close exact (fst a) (fst b)); [|reflexivity].
    exfalso. apply Hno. now left.
Qed.

Lemma ext_knotval_fin (knotval : list xreal) :
  Forall (fun v => (#0 <? v) = true) knotval -> knotval <> [] ->
  Forall fin (ext_knotval (hd #0 knotval) knotval (last knotval #0)).
Proof.
  intros Hv Hne. rewrite Forall_forall in Hv.
  assert (Hf : forall v, In v knotval -> fin v).
  { intros v Hin. apply Hv in Hin. now apply xlt_fin_r in Hin. }
  unfold ext_knotval. apply Forall_app. split; [|apply Forall_app; split].
  - repeat constructor. apply Hf. now apply hd_In.
  - now apply Forall_forall.
  - repeat constructor. apply Hf.
    destruct (exists_last Hne) as (l' & y & ->). rewrite last_last.
    apply in_or_app. right. now left.
Qed.

Lemma ext_lengths (knotpos knotval : list xreal) (a b c d : xreal) :
  length knotval = length knotpos ->
  length (ext_knotpos a knotpos b) = (length knotpos + 2)%nat /\
  length (ext_knotval c knotval d) = length (ext_knotpos a knotpos b).
Proof.
  intros H. unfold ext_knotpos, ext_knotval.
  rewrite !length_app. cbn [length num exact] in *. lia.
Qed.

(** C6. For a valid input, every returned row is a row of the augmented
    table (an input row or an inserted one) with its [P] multiplied by
    the factor at its [k]; that factor is [knot_val[0]] when the [k] is
    below [knot_pos[0]], and [knot_val[-1]] when it is above
    [knot_pos[-1]], and the row is returned with its [P] multiplied by
    just that knot value. *)
Theorem boundary_flatness (knotpos knotval : list xreal)
  (matpow out : list (xreal * xreal)) :
  valid_input knotpos knotval matpow = true ->
  change_power_spectrum_knots np_log np_exp spline knotpos knotval matpow
    = Ok out ->
  exists imin imax pint ins,
    window knotpos (map fst matpow) = Ok (imin, imax) /\
    interp1d (map np_log (slice (map fst matpow) imin imax))
             (map np_log (slice (map snd matpow) imin imax)) cubic
      = Ok pint /\
    let new_rows :=
      map (fun k => (k, np_exp (spline (i_x pint) (i_y pint) (np_log k))))
          ins in
    let rows := dedup fst (merge_in fst matpow new_rows) in
    out = map (fun r => (fst r,
                         snd r * knot_factor knotpos knotval matpow (fst r)))
              rows /\
    forall r, In r rows ->
      ((fst r <? hd #0 knotpos) = true ->
       knot_factor knotpos knotval matpow (fst r) = hd #0 knotval /\
       In (fst r, snd r * hd #0 knotval) out) /\
      ((last knotpos #0 <? fst r) = true ->
       knot_factor knotpos knotval matpow (fst r) = last knotval #0 /\
       In (fst r, snd r * last knotval #0) out).
Proof.
  intros Hv Hrun.
  destruct (run_rows _ _ _ _ Hv Hrun)
    as (imin & imax & pint & ins & Hw & Hpint & H).
  cbv zeta in H.
  destruct H as (_ & _ & Hout & _ & _ & _ & _ & _ & Hne0 & Hnv & Hb).
  exists imin, imax, pint, ins. cbv zeta.
  split; [exact Hw|]. split; [exact Hpint|]. split; [exact Hout|].
  assert (Hne : map fst matpow <> []).
  { intros E. apply Hne0. destruct matpow; [reflexivity | discriminate]. }
  destruct (valid_input_inv _ _ _ Hv) as (_ & _ & _ & Hlen & _ & Hkv).
  pose proof (ext_knotpos_inc _ _ _ Hv Hne) as Hinc.
  pose proof (ext_knotval_fin _ Hkv Hnv) as Hfin.
  assert (Hnp : knotpos <> []).
  { intros ->. destruct knotval; [congruence | discriminate]. }
  intros r Hr. destruct (Hb r Hr) as [Hlo Hhi].
  assert (Hin : forall c, knot_factor knotpos knotval matpow (fst r) = c ->
                  knot_factor knotpos knotval matpow (fst r) = c /\
                  In (fst r, snd r * c) out).
  { intros c Hc. split; [exact Hc|]. rewrite Hout, <- Hc.
    apply (in_map (fun r => (fst r, snd r
                             * knot_factor knotpos knotval matpow (fst r)))).
    exact Hr. }
  generalize dependent (fst r). intros k Hlo Hhi Hin.
  set (k0 := hd #0 (map fst matpow)) in *.
  set (kn := last (map fst matpow) #0) in *.
  destruct (ext_lengths knotpos knotval k0 kn (hd #0 knotval)
              (last knotval #0) Hlen) as [Hlx Hly].
  assert (Hkf : ((k <? hd #0 knotpos) = true ->
                 knot_factor knotpos knotval matpow k = hd #0 knotval) /\
                ((last knotpos #0 <? k) = true ->
                 knot_factor knotpos knotval matpow k = last knotval #0));
    [|split; intros Hcmp; apply Hin; now apply Hkf].
  clear Hin.
  unfold knot_factor. fold k0 kn.
  set (x := ext_knotpos k0 knotpos kn) in *.
  set (y := ext_knotval (hd #0 knotval) knotval (last knotval #0)) in *.
  assert (Hfx : forall i, (i < length x)%nat -> fin (nth i x #0)).
  { intros i Hi. destruct Hinc as [_ Hf]. rewrite Forall_forall in Hf.
    apply (Hf (nth i x #0)). now apply nth_In. }
  assert (Hfy : forall i, (i < length y)%nat -> fin (nth i y #0)).
  { intros i Hi. rewrite Forall_forall in Hfin. apply Hfin.
    now apply nth_In. }
  cbn [num exact] in *.
  split; intros Hcmp.
  - (* below the first knot: the interval from 0.95 k_min to it *)
    assert (E0 : nth 0 x #0 = k0 * #0.95) by reflexivity.
    assert (E1 : nth 1 x #0 = hd #0 knotpos)
      by (apply nth_ext_hd; exact Hnp).
    assert (F0 : nth 0 y #0 = hd #0 knotval) by reflexivity.
    assert (F1 : nth 1 y #0 = hd #0 knotval)
      by (apply nth_ext_hd; exact Hnv).
    destruct (fin_inv _ (Hfx 0%nat ltac:(lia))) as [x0 Ex0].
    destruct (fin_inv _ (Hfx 1%nat ltac:(lia))) as [x1 Ex1].
    destruct (fin_inv _ (Hfy 0%nat ltac:(lia))) as [y0 Ey0].
    cbn [num exact] in *.
    rewrite <- E1, Ex1 in Hcmp. rewrite <- E0, Ex0 in Hlo.
    destruct k as [kr|]; [|discriminate].
    apply ltb_Fin in Hcmp. apply ltb_Fin_false in Hlo.
    rewrite (linear_at_piece x y 0 x0 x1 y0 y0 kr); auto; try lia;
      try congruence; try lra.
    rewrite <- F0, Ey0. f_equal. unfold Rdiv. ring.
  - (* above the last knot: the interval from it to 1.05 k_max *)
    assert (E0 : nth (length knotpos) x #0 = last knotpos #0)
      by (apply nth_ext_last; exact Hnp).
    assert (E1 : nth (S (length knotpos)) x #0 = kn * #1.05)
      by apply nth_ext_end.
    assert (F0 : nth (length knotpos) y #0 = last knotval #0)
      by (rewrite <- Hlen; apply nth_ext_last; exact Hnv).
    assert (F1 : nth (S (length knotpos)) y #0 = last knotval #0)
      by (rewrite <- Hlen; apply nth_ext_end).
    destruct (fin_inv _ (Hfx (length knotpos) ltac:(lia))) as [x0 Ex0].
    destruct (fin_inv _ (Hfx (S (length knotpos)) ltac:(lia))) as [x1 Ex1].
    destruct (fin_inv _ (Hfy (length knotpos) ltac:(lia))) as [y0 Ey0].
    cbn [num exact] in *.
    rewrite <- E0, Ex0 in Hcmp. rewrite <- E1, Ex1 in Hhi.
    destruct k as [kr|]; [|discriminate].
    apply ltb_Fin in Hcmp. apply ltb_Fin_false in Hhi.
    rewrite (linear_at_piece x y (length knotpos) x0 x1 y0 y0 kr); auto;
      try lia; try congruence; try lra.
    rewrite <- F0, Ey0. f_equal. unfold Rdiv. ring.
Qed.

(** C4, as the code has it. For a valid input every returned row is a
    row of the augmented table (an input row, or an inserted one with its
    [P] read off the cubic interpolant) with its [P] multiplied by
    [knot_factor] at its [k], a function that is piecewise linear in [k]
    (not in [log k]): on each interval between two consecutive extended
    knots, both ends included, it is the chord through the two knot
    values. Consecutive intervals share their common end, so the function
    is continuous, and at [knot_pos[i]] it is [knot_val[i]]. *)
Theorem correction_piecewise_linear_in_k (knotpos knotval : list xreal)
  (matpow out : list (xreal * xreal)) :
  valid_input knotpos knotval matpow = true ->
  change_power_spectrum_knots np_log np_exp spline knotpos knotval matpow
    = Ok out ->
  let x := ext_knotpos (hd #0 (map fst matpow)) knotpos
             (last (map fst matpow) #0) in
  let y := ext_knotval (hd #0 knotval) knotval (last knotval #0) in
  (exists imin imax pint ins,
     window knotpos (map fst matpow) = Ok (imin, imax) /\
     interp1d (map np_log (slice (map fst matpow) imin imax))
              (map np_log (slice (map snd matpow) imin imax)) cubic
       = Ok pint /\
     let new_rows :=
       map (fun k => (k, np_exp (spline (i_x pint) (i_y pint) (np_log k))))
           ins in
     let rows := dedup fst (merge_in fst matpow new_rows) in
     out = map (fun r =>
                  (fst r,
                   snd r * knot_factor knotpos knotval matpow (fst r)))
               rows) /\
  (forall j xj xj1 yj yj1 k,
     (S j < length x)%nat ->
     nth j x #0 = Fin xj -> nth (S j) x #0 = Fin xj1 ->
     nth j y #0 = Fin yj -> nth (S j) y #0 = Fin yj1 ->
     (xj <= k <= xj1)%R ->
     knot_factor knotpos knotval matpow (Fin k)
     = Fin (yj + (yj1 - yj) / (xj1 - xj) * (k - xj))%R) /\
  (forall i, (i < length knotpos)%nat ->
     knot_factor knotpos knotval matpow (nth i knotpos #0)
     = nth i knotval #0).
Proof.
  intros Hv Hrun x y.
  destruct (run_rows _ _ _ _ Hv Hrun)
    as (imin & imax & pint & ins & Hw & Hpint & H).
  cbv zeta in H.
  destruct H as (_ & _ & Hout & _ & _ & _ & _ & _ & Hne0 & Hnv & _).
  split.
  { exists imin, imax, pint, ins. cbv zeta.
    split; [exact Hw|]. split; [exact Hpint|]. exact Hout. }
  assert (Hne : map fst matpow <> []).
  { intros E. apply Hne0. destruct matpow; [reflexivity | discriminate]. }
  destruct (valid_input_inv _ _ _ Hv) as (_ & _ & _ & Hlen & _ & Hkv).
  pose proof (ext_knotpos_inc _ _ _ Hv Hne) as Hinc.
  pose proof (ext_knotval_fin _ Hkv Hnv) as Hfin.
  destruct (ext_lengths knotpos knotval (hd #0 (map fst matpow))
              (last (map fst matpow) #0) (hd #0 knotval)
              (last knotval #0) Hlen) as [Hlx Hly].
  fold x in Hinc, Hlx, Hly. fold y in Hfin, Hly.
  assert (Hpiece : forall j xj xj1 yj yj1 k,
       (S j < length x)%nat ->
       nth j x #0 = Fin xj -> nth (S j) x #0 = Fin xj1 ->
       nth j y #0 = Fin yj -> nth (S j) y #0 = Fin yj1 ->
       (xj <= k <= xj1)%R ->
       knot_factor knotpos knotval matpow (Fin k)
       = Fin (yj + (yj1 - yj) / (xj1 - xj) * (k - xj))%R).
  { intros j xj xj1 yj yj1 k Hj E0 E1 F0 F1 Hk.
    unfold knot_factor. fold x y.
    apply (linear_at_piece x y j xj xj1 yj yj1 k); auto. }
  split; [exact Hpiece|].
  intros i Hi.
  assert (Hfx : forall i, (i < length x)%nat -> fin (nth i x #0)).
  { intros a Ha. destruct Hinc as [_ Hf]. rewrite Forall_forall in Hf.
    apply (Hf (nth a x #0)). now apply nth_In. }
  assert (Hfy : forall i, (i < length y)%nat -> fin (nth i y #0)).
  { intros a Ha. rewrite Forall_forall in Hfin. apply Hfin.
    now apply nth_In. }
  cbn [num exact] in *.
  assert (Ex : nth (S i) x #0 = nth i knotpos #0).
  { unfold x, ext_knotpos. cbn [app nth]. now apply app_nth1. }
  assert (Ey : nth (S i) y #0 = nth i knotval #0).
  { unfold y, ext_knotval. cbn [app nth]. apply app_nth1. lia. }
  destruct (fin_inv _ (Hfx (S i) ltac:(lia))) as [xj Exj].
  destruct (fin_inv _ (Hfx (S (S i)) ltac:(lia))) as [xj1 Exj1].
  destruct (fin_inv _ (Hfy (S i) ltac:(lia))) as [yj Eyj].
  destruct (fin_inv _ (Hfy (S (S i)) ltac:(lia))) as [yj1 Eyj1].
  assert (Hlt : (xj < xj1)%R).
  { apply ltb_Fin. rewrite <- Exj, <- Exj1.
    apply (inc_nth x Hinc (S i) (S (S i))); lia. }
  rewrite <- Ex, <- Ey, Exj, Eyj.
  rewrite (Hpiece (S i) xj xj1 yj yj1 xj); auto; try lia; try lra.
  f_equal. unfold Rdiv. ring.
Qed.

Lemma mul_one (p : xreal) : p * #1 = p.
Proof. destruct p as [a|]; [|reflexivity]. cbn. f_equal. q2r. lra. Qed.

(** Two positions of one list that hold rows of the same key, each with
    only larger keys behind it, hold the same row. *)
Lemma same_position {T : Type} (key : T -> xreal) (l1 l2 m1 m2 : list T)
  (u v : T) :
  l1 ++ u :: l2 = m1 ++ v :: m2 ->
  key u = key v ->
  Forall (klt key u) l2 -> Forall (klt key v) m2 ->
  u = v.
Proof.
  intros E Hk Hl Hm.
  assert (Hirr : forall w, klt key w w -> False).
  { intros w Hw. unfold klt in Hw. now rewrite xlt_irrefl in Hw. }
  apply app_eq_app in E as (l & [[-> E]|[-> E]]).
  - destruct l as [|c l]; cbn [app] in E; injection E as E1 E2;
      [now symmetry|].
    exfalso. rewrite Forall_forall in Hm.
    apply (Hirr u). unfold klt in *. rewrite Hk at 1.
    apply Hm. rewrite E2. apply in_or_app. right. now left.
  - destruct l as [|c l]; cbn [app] in E; injection E as E1 E2;
      [assumption|].
    exfalso. rewrite Forall_forall in Hl.
    apply (Hirr v). unfold klt in *. rewrite <- Hk at 1.
    apply Hl. rewrite E2. apply in_or_app. right. now left.
Qed.

(** C5. With all knot values 1, a row of the input whose [k] is still in
    the returned table is in the returned table with its [P] unchanged;
    every other returned row is an inserted one, its [P] read off the
    cubic interpolant of the window in log-log. *)
Theorem knot_identity (knotpos knotval : list xreal)
  (matpow out : list (xreal * xreal)) :
  valid_input knotpos knotval matpow = true ->
  Forall (fun v => v = #1) knotval ->
  change_power_spectrum_knots np_log np_exp spline knotpos knotval matpow
    = Ok out ->
  (forall row, In row matpow -> In (fst row) (map fst out) -> In row out) /\
  exists imin imax pint,
    window knotpos (map fst matpow) = Ok (imin, imax) /\
    interp1d (map np_log (slice (map fst matpow) imin imax))
             (map np_log (slice (map snd matpow) imin imax)) cubic
      = Ok pint /\
    forall row, In row out ->
      In row matpow \/
      snd row = np_exp (spline (i_x pint) (i_y pint) (np_log (fst row))).
Proof.
  intros Hv Hones Hrun.
  destruct (run_rows _ _ _ _ Hv Hrun)
    as (imin & imax & pint & ins & Hw & Hpint & H).
  cbv zeta in H.
  destruct H as (_ & _ & Hout & Hmp & Hnd & Hpos & _ & _ & Hne & Hnv & _).
  set (new_rows := map (fun k => (k, np_exp (spline (i_x pint) (i_y pint)
                                               (np_log k)))) ins) in *.
  set (merged := @merge_in exact _ fst matpow new_rows) in *.
  (* the factor is 1 at every row *)
  assert (Hne' : map fst matpow <> []).
  { intros E. apply Hne. destruct matpow; [reflexivity | discriminate]. }
  pose proof (ext_knotpos_inc _ _ _ Hv Hne') as Hinc.
  destruct (valid_input_inv _ _ _ Hv) as (_ & _ & _ & Hlen & _ & _).
  destruct (ext_lengths knotpos knotval (hd #0 (map fst matpow))
              (last (map fst matpow) #0) (hd #0 knotval)
              (last knotval #0) Hlen) as [Hlx Hly].
  assert (Hy1 : Forall (fun v => v = Fin (Q2R 1))
                  (ext_knotval (hd #0 knotval) knotval (last knotval #0))).
  { rewrite Forall_forall in Hones. unfold ext_knotval.
    apply Forall_app. split; [|apply Forall_app; split].
    - repeat constructor. apply (Hones (hd #0 knotval)). now apply hd_In.
    - apply Forall_forall. intros v Hin. now apply Hones.
    - repeat constructor. apply (Hones (last knotval #0)).
      destruct (exists_last Hnv) as (l' & z & ->). rewrite last_last.
      apply in_or_app. right. now left. }
  assert (Eout : out = @dedup exact _ fst merged).
  { rewrite Hout. rewrite <- (map_id (@dedup exact _ fst merged)) at 2.
    apply map_ext_in. intros [k p] Hin. cbn [fst snd].
    assert (Hk : fin k).
    { apply (@in_dedup exact _ fst) in Hin.
      rewrite Forall_forall in Hpos. apply Hpos in Hin.
      now apply xlt_fin_r in Hin. }
    apply fin_inv in Hk as [kr ->].
    unfold knot_factor. rewrite (linear_at_const _ _ (Q2R 1)); auto.
    - change (Fin (Q2R 1)) with (#1). now rewrite mul_one.
    - cbn [num exact] in *. lia. }
  split.
  - intros row Hrow Hk. rewrite Eout in *.
    apply in_map_iff in Hk as (u & Eu & Hu).
    destruct (dedup_survivor fst merged Hnd Hpos u Hu)
      as (m1 & m2 & Em & Hm2).
    destruct (merge_in_split fst matpow new_rows row Hmp Hrow)
      as (l1 & l2 & El & Hl2).
    assert (E' : l1 ++ row :: l2 = m1 ++ u :: m2)
      by (rewrite <- El, <- Em; reflexivity).
    assert (E : row = u)
      by (apply (same_position fst l1 l2 m1 m2 row u E'); auto).
    now rewrite E.
  - exists imin, imax, pint. split; [exact Hw|]. split; [exact Hpint|].
    intros row Hrow. rewrite Eout in Hrow.
    apply (@in_dedup exact _ fst) in Hrow.
    apply in_merge_in in Hrow as [Hrow|Hrow]; [now left | right].
    unfold new_rows in Hrow. apply in_map_iff in Hrow as (k & <- & _).
    reflexivity.
Qed.

End ExactKnots.

(* ================================================================== *)
(** ** get_neutrino_masses: the hierarchy names *)

Section NeutrinoNames.

Context {A : Arith}.
Local Open Scope num_scope.

Lemma get_neutrino_masses_else (total_mass : num) (hierarchy : string) :
  String.eqb hierarchy "normal" = false ->
  String.eqb hierarchy "inverted" = false ->
  get_neutrino_masses total_mass hierarchy
  = Ok (map (fun one => one * total_mass / #3) [#1; #1; #1]).
Proof.
  intros Hn Hi. unfold get_neutrino_masses. now rewrite Hn, Hi.
Qed.

(** C10. A hierarchy that is neither 'normal' nor 'inverted', whatever the
    string, raises nothing: the result is the equal split
    [np.ones(3)*total_mass/3.], i.e. three times [(1*total_mass)/3]. *)
Theorem degenerate_split (total_mass : num) (hierarchy : string) :
  hierarchy <> "normal"%string -> hierarchy <> "inverted"%string ->
  get_neutrino_masses total_mass hierarchy
  = Ok [#1 * total_mass / #3; #1 * total_mass / #3; #1 * total_mass / #3].
Proof.
  intros Hn Hi. apply get_neutrino_masses_else; now apply String.eqb_neq.
Qed.

(** C2, as the code has it. A hierarchy name outside 'normal', 'inverted'
    and 'degenerate' is not rejected: it takes the [else] branch, so the
    call returns what it returns for 'degenerate', and that is a value. *)
Theorem malformed_hierarchy_is_degenerate (total_mass : num)
  (hierarchy : string) :
  hierarchy <> "normal"%string -> hierarchy <> "inverted"%string ->
  hierarchy <> "degenerate"%string ->
  get_neutrino_masses total_mass hierarchy
  = get_neutrino_masses total_mass "degenerate" /\
  exists masses, get_neutrino_masses total_mass hierarchy = Ok masses.
Proof.
  intros Hn Hi _.
  rewrite (get_neutrino_masses_else total_mass hierarchy)
    by now apply String.eqb_neq.
  split; [reflexivity | eauto].
Qed.


End NeutrinoNames.

(** *** Runs in binary64 *)

Example degenerate_0_3 :
  get_neutrino_masses (A := binary64) 0.3%float "degenerate"
  = Ok [0.099999999999999992; 0.099999999999999992;
        0.099999999999999992]%float.
Proof. vm_compute. reflexivity. Qed.

Example normal_below_threshold :
  get_neutrino_masses (A := binary64) 0.05%float "normal"
  = Ok [0.05; 0; 0]%float.
Proof. vm_compute. reflexivity. Qed.

Example normal_0_3 :
  get_neutrino_masses (A := binary64) 0.3%float "normal"
  = Ok [0.10809513366356716; 0.096148624128449781;
        0.095756242207983053]%float.
Proof. vm_compute. reflexivity. Qed.

(** Just above the threshold (0.05807...) the one-step refinement moves
    [DD] by more than 2%: the call raises. *)
Example normal_just_above_threshold :
  (0.0581 <? normal_threshold (A := binary64))%float = false /\
  get_neutrino_masses (A := binary64) 0.0581%float "normal"
  = Raise AssertionError.
Proof. vm_compute. split; reflexivity. Qed.

(** C2, counterexample: the misspelt name "Normal" raises nothing. *)
Lemma malformed_hierarchy_returns :
  get_neutrino_masses (A := binary64) 0.3%float "Normal"
  = Ok [0.099999999999999992; 0.099999999999999992;
        0.099999999999999992]%float.
Proof. vm_compute. reflexivity. Qed.

(** C1, counterexample: 5e-324 is a valid total mass; a third of it
    rounds to zero, so the three masses sum to 0, which is not within
    1e-6 (relative) of 5e-324. *)
Lemma mass_lost_to_underflow :
  (0 <=? tiny)%float = true /\
  get_neutrino_masses (A := binary64) tiny "degenerate"
  = Ok [0; 0; 0]%float /\
  sum (A := binary64) [0; 0; 0]%float = 0%float /\
  rel_close (A := binary64) (sum (A := binary64) [0; 0; 0]%float) tiny
    1e-6%float = false.
Proof. vm_compute. repeat split; reflexivity. Qed.

Lemma degenerate_split_witness :
  get_neutrino_masses (A := binary64) 0.3%float "degenerate"
  = Ok [1 * 0.3 / 3; 1 * 0.3 / 3; 1 * 0.3 / 3]%float.
Proof.
  apply (degenerate_split (A := binary64) 0.3%float "degenerate");
    discriminate.
Defined.

Lemma malformed_hierarchy_witness :
  get_neutrino_masses (A := binary64) 0.3%float "Normal"
  = get_neutrino_masses (A := binary64) 0.3%float "degenerate" /\
  exists masses,
    get_neutrino_masses (A := binary64) 0.3%float "Normal" = Ok masses.
Proof.
  apply (malformed_hierarchy_is_degenerate (A := binary64) 0.3%float
           "Normal"); discriminate.
Defined.


(* ================================================================== *)
(** ** get_neutrino_masses: mass conservation in exact arithmetic *)

Section NeutrinoExact.

#[local] Existing Instance exact | 0.
Local Open Scope x_scope.

Lemma sum3 (a b c : xreal) : sum [a; b; c] = #0 + a + b + c.
Proof. reflexivity. Qed.

Lemma split_masses_sum (total_mass nu_M32 : xreal) (out : list xreal) :
  fin total_mass ->
  split_masses total_mass nu_M32 = Ok out ->
  sum out = total_mass.
Proof.
  intros Ht. unfold split_masses, nu_masses.
  generalize (DD1 total_mass nu_M32) (DD total_mass nu_M32).
  intros dd1 dd H.
  apply bind_Ok in H as (u1 & H1 & H). apply assert_Ok in H1.
  apply bind_Ok in H as (u2 & _ & H).
  apply bind_Ok in H as (u3 & H3 & H). apply assert_Ok in H3.
  injection H as <-. rewrite sum3.
  cbn [forallb] in H3.
  apply andb_prop in H3 as [_ H3]. apply andb_prop in H3 as [H3 _].
  apply fin_inv in Ht as [t ->].
  destruct dd as [d|]; [|discriminate].
  unfold nu_M21 in *. cbn in H3 |- *.
  destruct (Req_dec_T d 0) as [E|Hd]; [discriminate|].
  cbn. f_equal. q2r. field. exact Hd.
Qed.

(** Without rounding, overflow or underflow, the three masses returned
    for a valid input sum to exactly [total_mass], so they are within
    1e-6 (relative) of it. *)
Theorem masses_sum_to_total_exact (total_mass : xreal) (hierarchy : string) :
  hierarchy = "normal"%string \/ hierarchy = "inverted"%string \/
  hierarchy = "degenerate"%string ->
  (#0 <=? total_mass) = true ->
  forall out,
    get_neutrino_masses total_mass hierarchy = Ok out ->
    sum out = total_mass /\ rel_close (sum out) total_mass #1e-6 = true.
Proof.
  intros Hh Ht out Hout.
  assert (Hfin : fin total_mass) by now apply xle_fin_r in Ht.
  assert (Hsum : sum out = total_mass).
  { unfold get_neutrino_masses in Hout.
    destruct Hh as [-> | [-> | ->]];
      cbn [String.eqb Ascii.eqb Bool.eqb] in Hout.
    - destruct (total_mass <? normal_threshold).
      + injection Hout as <-. rewrite sum3. clear - Hfin. xr.
        f_equal. lra.
      + now apply split_masses_sum in Hout.
    - destruct (total_mass <? inverted_threshold).
      + injection Hout as <-. rewrite sum3. clear - Hfin. xr.
        f_equal. lra.
      + now apply split_masses_sum in Hout.
    - injection Hout as <-. cbn [map]. rewrite sum3. clear - Hfin. xr.
      f_equal. lra. }
  split; [exact Hsum|]. rewrite Hsum. unfold rel_close.
  clear - Hfin. apply fin_inv in Hfin as [t ->]. cbn.
  replace (t - t)%R with 0%R by ring. rewrite Rabs_R0.
  destruct (Rle_dec _ _) as [_|Hn]; [reflexivity|].
  exfalso. apply Hn. q2r. pose proof (Rabs_pos t). lra.
Qed.

End NeutrinoExact.

(* ================================================================== *)
(** ** Rounding in binary64

    What [SpecFloat] computes for the four operations, read on real
    numbers: the result of an operation on finite doubles is never a
    NaN; it is within the rounding error of the exact result, or it is
    the infinity of its sign when the exact result is too large. *)

Section Rounding.

Local Open Scope Z_scope.

Local Abbreviation fexp := (SpecFloat.fexp prec emax).
Local Abbreviation emin := (SpecFloat.emin prec emax).

Lemma bpow_pos (e : Z) : (0 < bpow e)%R.
Proof. apply powerRZ_lt. lra. Qed.

Lemma bpow_add (a b : Z) : bpow (a + b) = (bpow a * bpow b)%R.
Proof. apply powerRZ_add. lra. Qed.

Lemma bpow_IZR (k : Z) : 0 <= k -> bpow k = IZR (2 ^ k).
Proof.
  intros Hk. unfold bpow.
  rewrite <- (Z2Nat.id k Hk) at 1. rewrite <- pow_powerRZ.
  rewrite pow_IZR. now rewrite Z2Nat.id.
Qed.

Lemma bpow_le (a b : Z) : a <= b -> (bpow a <= bpow b)%R.
Proof.
  intros H. replace b with (a + (b - a)) by ring. rewrite bpow_add.
  rewrite (bpow_IZR (b - a)) by lia.
  assert (H0 : 2 ^ 0 <= 2 ^ (b - a)) by (apply Z.pow_le_mono_r; lia).
  change (2 ^ 0) with 1 in H0.
  apply IZR_le in H0. pose proof (bpow_pos a). nra.
Qed.

Lemma bpow_lt (a b : Z) : a < b -> (bpow a < bpow b)%R.
Proof.
  intros H. replace b with (a + (b - a)) by ring. rewrite bpow_add.
  rewrite (bpow_IZR (b - a)) by lia.
  assert (2 ^ 1 <= 2 ^ (b - a)) by (apply Z.pow_le_mono_r; lia).
  change (2 ^ 1) with 2 in H0.
  apply IZR_le in H0. pose proof (bpow_pos a). nra.
Qed.



Lemma digits2_size (p : positive) : digits2_pos p = Pos.size p.
Proof. induction p; cbn; now rewrite ?IHp. Qed.

Lemma digits_bounds (p : positive) :
  1 <= Zdigits2 (Zpos p) /\
  2 ^ (Zdigits2 (Zpos p) - 1) <= Zpos p < 2 ^ Zdigits2 (Zpos p).
Proof.
  change (Zdigits2 (Zpos p)) with (Zpos (digits2_pos p)).
  rewrite digits2_size.
  pose proof (Pos.size_gt p) as Hgt. pose proof (Pos.size_le p) as Hle.
  apply Pos2Z.pos_lt_pos in Hgt. apply Pos2Z.pos_le_pos in Hle.
  rewrite Pos2Z.inj_pow in Hgt, Hle.
  change (Zpos p~0) with (2 * Zpos p) in Hle.
  assert (Hd : 2 ^ Zpos (Pos.size p) = 2 * 2 ^ (Zpos (Pos.size p) - 1)).
  { rewrite <- Z.pow_succ_r by lia. f_equal. lia. }
  split; [lia|].
  revert Hgt Hle Hd.
  generalize (2 ^ Zpos (Pos.size p)) (2 ^ (Zpos (Pos.size p) - 1)).
  intros. lia.
Qed.

Lemma digits_le (m k : Z) : 0 <= m -> 0 <= k -> m < 2 ^ k -> Zdigits2 m <= k.
Proof.
  intros Hm Hk H. destruct m as [|p|p]; [cbn; lia| |lia].
  destruct (digits_bounds p) as (H1 & H2 & _).
  set (d := Zdigits2 (Zpos p)) in *.
  destruct (Z_le_gt_dec d k) as [|Hgt]; [assumption|exfalso].
  assert (2 ^ k <= 2 ^ (d - 1)) by (apply Z.pow_le_mono_r; lia). lia.
Qed.

Lemma digits_ge (m k : Z) : 0 <= k -> 2 ^ k <= m -> k + 1 <= Zdigits2 m.
Proof.
  intros Hk H. assert (0 < 2 ^ k) by (apply Z.pow_pos_nonneg; lia).
  destruct m as [|p|p]; [lia| |lia].
  destruct (digits_bounds p) as (H1 & _ & H2).
  set (d := Zdigits2 (Zpos p)) in *.
  destruct (Z_le_gt_dec (k + 1) d) as [|Hgt]; [assumption|exfalso].
  assert (2 ^ d <= 2 ^ k) by (apply Z.pow_le_mono_r; lia). lia.
Qed.

(** *** Shifting right *)

Lemma shr_1_m (mrs : shr_record) :
  0 <= shr_m mrs -> shr_m (shr_1 mrs) = shr_m mrs / 2.
Proof.
  destruct mrs as [m r s]. cbn [shr_m]. intros Hm.
  rewrite <- Z.div2_div.
  destruct m as [|[p|p|]|p]; try reflexivity; lia.
Qed.

Lemma iter_shr_1_m (p : positive) : forall mrs,
  0 <= shr_m mrs ->
  shr_m (iter_pos shr_1 p mrs) = shr_m mrs / 2 ^ Zpos p.
Proof.
  induction p as [p IH|p IH|]; intros mrs Hm; cbn [iter_pos].
  - assert (H1 : 0 <= shr_m (shr_1 mrs))
      by (rewrite shr_1_m by assumption; apply Z.div_pos; lia).
    assert (H2 : 0 <= shr_m (iter_pos shr_1 p (shr_1 mrs)))
      by (rewrite IH by assumption; apply Z.div_pos;
          [assumption | apply Z.pow_pos_nonneg; lia]).
    rewrite IH, IH, shr_1_m by assumption.
    rewrite !Z.div_div by (try apply Z.pow_pos_nonneg; lia).
    f_equal. rewrite Pos2Z.inj_xI.
    rewrite <- Z.pow_add_r, <- Z.pow_succ_r by lia. f_equal. lia.
  - assert (H2 : 0 <= shr_m (iter_pos shr_1 p mrs))
      by (rewrite IH by assumption; apply Z.div_pos;
          [assumption | apply Z.pow_pos_nonneg; lia]).
    rewrite IH, IH by assumption.
    rewrite !Z.div_div by (try apply Z.pow_pos_nonneg; lia).
    f_equal. rewrite Pos2Z.inj_xO.
    rewrite <- Z.pow_add_r by lia. f_equal. lia.
  - now apply shr_1_m.
Qed.

(** The first step of rounding: the mantissa loses its low bits. *)
Lemma shr_fexp_m (m e : Z) (l : location) :
  0 <= m -> e <= fexp (Zdigits2 m + e) ->
  shr_m (fst (shr_fexp prec emax m e l)) = m / 2 ^ (fexp (Zdigits2 m + e) - e)
  /\ snd (shr_fexp prec emax m e l) = fexp (Zdigits2 m + e).
Proof.
  intros Hm He. unfold shr_fexp, shr.
  assert (Hr : shr_m (shr_record_of_loc m l) = m)
    by (destruct l as [|[]]; reflexivity).
  destruct (fexp (Zdigits2 m + e) - e) as [|p|p] eqn:En; cbn [fst snd].
  - rewrite Hr, Z.pow_0_r, Z.div_1_r. split; [reflexivity | lia].
  - rewrite iter_shr_1_m by (rewrite Hr; assumption).
    rewrite Hr. split; [reflexivity | lia].
  - lia.
Qed.

Lemma shr_fexp_id (m e : Z) :
  fexp (Zdigits2 m + e) <= e ->
  shr_fexp prec emax m e loc_Exact = (Build_shr_record m false false, e).
Proof.
  intros He. unfold shr_fexp, shr.
  destruct (fexp (Zdigits2 m + e) - e) as [|p|p] eqn:En;
    [reflexivity | lia | reflexivity].
Qed.

Lemma round_nearest_even_cases (m : Z) (l : location) :
  round_nearest_even m l = m \/ round_nearest_even m l = m + 1.
Proof.
  destruct l as [|[]]; cbn; auto. destruct (Z.even m); auto.
Qed.


Ltac fexp_lia :=
  unfold SpecFloat.fexp, SpecFloat.emin, prec, emax in *; lia.

Lemma fexp_ge_emin (x : Z) : emin <= fexp x.
Proof. fexp_lia. Qed.

(** What [binary_round_aux] returns for a mantissa [m >= 0] at an
    exponent [e] not above the exponent [e1] of the format: the mantissa
    loses its [e1 - e] low bits and is left as it is or incremented. *)
Lemma binary_round_aux_spec (s : bool) (m e : Z) (l : location) :
  0 <= m -> e <= fexp (Zdigits2 m + e) ->
  exists m2,
    (m2 = m / 2 ^ (fexp (Zdigits2 m + e) - e) \/
     m2 = m / 2 ^ (fexp (Zdigits2 m + e) - e) + 1) /\
    match binary_round_aux prec emax s m e l with
    | S754_zero s' => m2 = 0
    | S754_infinity s' =>
        s' = s /\
        (bpow emax <= IZR m2 * bpow (fexp (Zdigits2 m + e)))%R
    | S754_finite s' m3 e3 =>
        s' = s /\
        (IZR (Zpos m3) * bpow e3
         = IZR m2 * bpow (fexp (Zdigits2 m + e)))%R
    | S754_nan => False
    end.
Proof.
  intros Hm He.
  destruct (shr_fexp_m m e l Hm He) as [Hm1 He1].
  unfold binary_round_aux.
  destruct (shr_fexp prec emax m e l) as [mrs' e'] eqn:E1.
  cbn [fst snd] in Hm1, He1. subst e'.
  set (e1 := fexp (Zdigits2 m + e)) in *.
  set (m1 := m / 2 ^ (e1 - e)) in *.
  set (m2 := round_nearest_even (shr_m mrs') (loc_of_shr_record mrs')).
  assert (Hm2 : m2 = m1 \/ m2 = m1 + 1)
    by (unfold m2; rewrite <- Hm1; apply round_nearest_even_cases).
  exists m2. split; [exact Hm2|].
  assert (Hp : 0 < 2 ^ (e1 - e)) by (apply Z.pow_pos_nonneg; lia).
  assert (Hm1pos : 0 <= m1) by (apply Z.div_pos; lia).
  assert (He1 : emin <= e1) by apply fexp_ge_emin.
  assert (Hm1lt : m1 < 2 ^ prec).
  { apply Z.div_lt_upper_bound; [exact Hp|].
    rewrite <- Z.pow_add_r by (unfold prec; lia).
    destruct m as [|p|p];
      [apply Z.pow_pos_nonneg; unfold prec; lia| |lia].
    destruct (digits_bounds p) as (Hd & _ & Hlt).
    eapply Z.lt_le_trans; [exact Hlt|].
    apply Z.pow_le_mono_r; [lia|]. subst e1. fexp_lia. }
  assert (Hbig : emax - prec < e1 -> 2 ^ (prec - 1) <= m1).
  { intros Hov.
    destruct m as [|p|p]; [exfalso; cbn in *; subst e1; fexp_lia| |lia].
    destruct (digits_bounds p) as (Hd & Hlo & _).
    apply Z.div_le_lower_bound; [exact Hp|].
    rewrite <- Z.pow_add_r by (unfold prec; lia).
    eapply Z.le_trans; [|exact Hlo].
    apply Z.pow_le_mono_r; [lia|]. subst e1. fexp_lia. }
  destruct (Z_lt_ge_dec m2 (2 ^ prec)) as [Hlt|Hge].
  - (* no carry: the second shift does nothing *)
    assert (Hd2 : Zdigits2 m2 <= prec)
      by (apply digits_le; [lia | unfold prec; lia | exact Hlt]).
    rewrite shr_fexp_id by fexp_lia. cbn [shr_m].
    destruct m2 as [|p|p] eqn:E2; [reflexivity| |lia].
    destruct (e1 <=? emax - prec) eqn:Eov.
    + split; reflexivity.
    + split; [reflexivity|].
      apply Z.leb_gt in Eov. specialize (Hbig Eov).
      assert (H52 : 2 ^ (prec - 1) <= Zpos p) by lia.
      apply IZR_le in H52. rewrite <- bpow_IZR in H52 by (unfold prec; lia).
      pose proof (bpow_pos e1) as Hb.
      apply Rle_trans with (bpow (prec - 1) * bpow e1)%R;
        [|apply Rmult_le_compat_r; lra].
      rewrite <- bpow_add. apply bpow_le. unfold prec, emax in *. lia.
  - (* carry: the mantissa is 2^prec and is shifted once more *)
    assert (E2 : m2 = 2 ^ prec) by lia.
    rewrite E2.
    assert (Es : shr_fexp prec emax (2 ^ prec) e1 loc_Exact
                 = (Build_shr_record (2 ^ (prec - 1)) false false, e1 + 1)).
    { unfold shr_fexp.
      replace (fexp (Zdigits2 (2 ^ prec) + e1) - e1) with 1
        by (change (Zdigits2 (2 ^ prec)) with 54; fexp_lia).
      reflexivity. }
    rewrite Es. cbn [shr_m].
    change (2 ^ (prec - 1)) with (Zpos (2 ^ 52)).
    destruct (e1 + 1 <=? emax - prec) eqn:Eov.
    + split; [reflexivity|].
      change (IZR (Zpos (2 ^ 52))) with (IZR (2 ^ 52)).
      change (IZR (2 ^ prec)) with (IZR (2 ^ 53)).
      rewrite <- !bpow_IZR, <- !bpow_add by lia. f_equal. lia.
    + split; [reflexivity|].
      apply Z.leb_gt in Eov.
      change (IZR (2 ^ prec)) with (IZR (2 ^ 53)).
      rewrite <- bpow_IZR, <- bpow_add by lia. apply bpow_le.
      unfold prec, emax in *. lia.
Qed.


Lemma eps_pos : (0 < eps)%R.
Proof. apply bpow_pos. Qed.

Lemma eta_pos : (0 < eta)%R.
Proof. apply bpow_pos. Qed.

(** The value [r] the rounding of [v] would have without a bound on the
    exponent, for a real [v] whose integer part at exponent [e] is [m]. *)
Lemma binary_round_aux_err (s : bool) (m e : Z) (l : location) (v : R) :
  0 <= m -> e <= fexp (Zdigits2 m + e) ->
  (IZR m * bpow e <= v < IZR (m + 1) * bpow e)%R ->
  exists r : R,
    (Rabs (r - v) <= eps * v + eta)%R /\ (0 <= r)%R /\
    match binary_round_aux prec emax s m e l with
    | S754_zero s' => r = 0%R
    | S754_infinity s' => s' = s /\ (bpow emax <= r)%R
    | S754_finite s' m3 e3 => s' = s /\ (IZR (Zpos m3) * bpow e3)%R = r
    | S754_nan => False
    end.
Proof.
  intros Hm He Hv.
  destruct (binary_round_aux_spec s m e l Hm He) as (m2 & Hm2 & Hout).
  set (e1 := fexp (Zdigits2 m + e)) in *.
  set (n := e1 - e) in *.
  assert (Hn : 0 <= n) by (unfold n; lia).
  assert (Hp : 0 < 2 ^ n) by (apply Z.pow_pos_nonneg; lia).
  set (m1 := m / 2 ^ n) in *.
  assert (Hm1 : 0 <= m1) by (apply Z.div_pos; lia).
  exists (IZR m2 * bpow e1)%R.
  pose proof (bpow_pos e) as HB. pose proof (bpow_pos e1) as HB1.
  assert (E1 : bpow e1 = (bpow e * IZR (2 ^ n))%R).
  { rewrite <- bpow_IZR, <- bpow_add by exact Hn. f_equal. unfold n. lia. }
  assert (Hdiv : m1 * 2 ^ n <= m < (m1 + 1) * 2 ^ n).
  { pose proof (Z.div_mod m (2 ^ n) ltac:(lia)) as Hd.
    pose proof (Z.mod_pos_bound m (2 ^ n) Hp) as Hr.
    fold m1 in Hd. nia. }
  assert (Hlo : (IZR m1 * bpow e1 <= v)%R).
  { apply Rle_trans with (IZR m * bpow e)%R; [|apply Hv].
    rewrite E1. destruct Hdiv as [Hd _]. apply IZR_le in Hd.
    rewrite mult_IZR in Hd. nra. }
  assert (Hhi : (v <= IZR (m1 + 1) * bpow e1)%R).
  { apply Rle_trans with (IZR (m + 1) * bpow e)%R; [apply Rlt_le, Hv|].
    rewrite E1. destruct Hdiv as [_ Hd].
    assert (Hd' : m + 1 <= (m1 + 1) * 2 ^ n) by lia.
    apply IZR_le in Hd'. rewrite mult_IZR in Hd'. nra. }
  rewrite plus_IZR in Hhi.
  assert (Hv0 : (0 <= v)%R).
  { apply Rle_trans with (IZR m * bpow e)%R; [|apply Hv].
    apply IZR_le in Hm. nra. }
  assert (Hulp : (bpow e1 <= eps * v + eta)%R).
  { pose proof eps_pos as Heps.
    destruct (Z.eq_dec e1 (-1074)) as [E|NE].
    - rewrite E. fold eta. nra.
    - destruct m as [|p|p]; [exfalso; cbn in *; subst e1; fexp_lia| |lia].
      destruct (digits_bounds p) as (Hd & Hlow & _).
      assert (Ee : e1 = Zdigits2 (Zpos p) + e - 53) by (subst e1; fexp_lia).
      apply IZR_le in Hlow. rewrite <- bpow_IZR in Hlow by lia.
      assert (Hb : (bpow (e1 + 52) <= v)%R).
      { apply Rle_trans with (IZR (Zpos p) * bpow e)%R; [|apply Hv].
        replace (e1 + 52) with (Zdigits2 (Zpos p) - 1 + e) by lia.
        rewrite bpow_add. nra. }
      replace e1 with (-52 + (e1 + 52)) at 1 by lia.
      rewrite bpow_add. fold eps. pose proof eta_pos. nra. }
  split; [|split].
  - apply IZR_le in Hm1.
    destruct Hm2 as [-> | ->]; [|rewrite plus_IZR];
      apply Rabs_le; lra.
  - assert (0 <= m2) by lia. apply IZR_le in H. nra.
  - destruct (binary_round_aux prec emax s m e l) as [s'|s'| |s' m3 e3].
    + rewrite Hout. lra.
    + exact Hout.
    + exact Hout.
    + exact Hout.
Qed.


(** *** The operations on finite floats *)

Local Abbreviation valid := (SpecFloat.valid_binary prec emax).

Lemma valid_finite (s : bool) (m : positive) (e : Z) :
  valid (S754_finite s m e) = true ->
  fexp (Zdigits2 (Zpos m) + e) = e /\ e <= emax - prec.
Proof.
  unfold SpecFloat.valid_binary, bounded, canonical_mantissa.
  intros H. apply andb_prop in H as [H1 H2].
  apply Z.eqb_eq in H1. apply Z.leb_le in H2. split; assumption.
Qed.

Lemma SF2R_finite (s : bool) (m : positive) (e : Z) :
  SF2R (S754_finite s m e) = Rsign s (IZR (Zpos m) * bpow e).
Proof.
  destruct s; cbn [SF2R cond_Zopp Rsign]; [|reflexivity].
  rewrite opp_IZR. ring.
Qed.

Lemma Rabs_bounds (x b : R) : (Rabs x <= b -> - b <= x <= b)%R.
Proof. unfold Rabs. destruct (Rcase_abs x); lra. Qed.

(** A rounding of the magnitude [v], given the sign [s], is a rounding
    of the signed number. *)
Lemma rounds_to_signed (s : bool) (m e : Z) (l : location) (v : R) :
  0 <= m -> e <= fexp (Zdigits2 m + e) ->
  (IZR m * bpow e <= v < IZR (m + 1) * bpow e)%R ->
  (0 < v)%R ->
  rounds_to (binary_round_aux prec emax s m e l) (Rsign s v).
Proof.
  intros Hm He Hv Hpos.
  destruct (binary_round_aux_err s m e l v Hm He Hv) as (r & Hr & Hr0 & H).
  assert (Habs : Rabs (Rsign s v) = v)
    by (destruct s; cbn [Rsign]; [rewrite Rabs_Ropp|];
        apply Rabs_pos_eq; lra).
  assert (Hd : forall r', r' = r ->
            (Rabs (Rsign s r' - Rsign s v) <= eps * v + eta)%R).
  { intros r' ->. destruct s; cbn [Rsign]; [|exact Hr].
    replace (- r - - v)%R with (- (r - v))%R by ring.
    now rewrite Rabs_Ropp. }
  pose proof eps_pos as Heps. pose proof eta_pos as Heta.
  destruct (binary_round_aux prec emax s m e l) as [s'|s'| |s' m3 e3];
    unfold rounds_to.
  - rewrite Habs. cbn [SF2R].
    replace (0 - Rsign s v)%R with (Rsign s 0 - Rsign s v)%R
      by (destruct s; cbn [Rsign]; ring).
    now apply Hd.
  - destruct H as [-> H]. rewrite Habs. split.
    + apply Rabs_bounds in Hr. lra.
    + destruct s; cbn [Rsign]; lra.
  - exact H.
  - destruct H as [-> H]. rewrite Habs, SF2R_finite. now apply Hd.
Qed.

Lemma digits_mul (p q : positive) :
  Zdigits2 (Zpos p) + Zdigits2 (Zpos q) - 1 <= Zdigits2 (Zpos (p * q)).
Proof.
  destruct (digits_bounds p) as (Hp & Hlp & _).
  destruct (digits_bounds q) as (Hq & Hlq & _).
  replace (Zdigits2 (Zpos p) + Zdigits2 (Zpos q) - 1)
    with ((Zdigits2 (Zpos p) - 1) + (Zdigits2 (Zpos q) - 1) + 1) by lia.
  apply digits_ge; [lia|].
  rewrite Z.pow_add_r by lia. rewrite Pos2Z.inj_mul.
  assert (0 < 2 ^ (Zdigits2 (Zpos p) - 1)) by (apply Z.pow_pos_nonneg; lia).
  assert (0 < 2 ^ (Zdigits2 (Zpos q) - 1)) by (apply Z.pow_pos_nonneg; lia).
  nia.
Qed.

Lemma SFmul_rounds (x y : spec_float) :
  valid x = true -> valid y = true ->
  SF_finite x = true -> SF_finite y = true ->
  rounds_to (SF64mul x y) (SF2R x * SF2R y).
Proof.
  intros Vx Vy Fx Fy.
  pose proof eps_pos as Heps. pose proof eta_pos as Heta.
  assert (Hz : forall V : R, V = 0%R ->
            (Rabs (0 - V) <= eps * Rabs V + eta)%R).
  { intros V ->. rewrite Rminus_0_r, Rabs_R0. lra. }
  destruct x as [sx|sx| |sx mx ex]; try discriminate;
    destruct y as [sy|sy| |sy my ey]; try discriminate;
    cbn [SF64mul SFmul rounds_to SF2R]; try (apply Hz; ring).
  apply valid_finite in Vx as [Cx _]. apply valid_finite in Vy as [Cy _].
  destruct (digits_bounds mx) as (Hdx & _ & _).
  destruct (digits_bounds my) as (Hdy & _ & _).
  pose proof (digits_mul mx my) as Hd.
  pose proof (bpow_pos (ex + ey)) as HB.
  assert (HV : (IZR (Zpos mx) * bpow ex * (IZR (Zpos my) * bpow ey)
                = IZR (Zpos (mx * my)) * bpow (ex + ey))%R).
  { rewrite Pos2Z.inj_mul, mult_IZR, bpow_add. ring. }
  assert (Hpos : (0 < IZR (Zpos (mx * my)))%R) by (apply IZR_lt; lia).
  replace (IZR (cond_Zopp sx (Zpos mx)) * bpow ex
           * (IZR (cond_Zopp sy (Zpos my)) * bpow ey))%R
    with (Rsign (xorb sx sy) (IZR (Zpos (mx * my)) * bpow (ex + ey))).
  - apply rounds_to_signed.
    + lia.
    + revert Cx Cy Hd Hdx Hdy.
      generalize (Zdigits2 (Zpos mx)) (Zdigits2 (Zpos my))
                 (Zdigits2 (Zpos (mx * my))).
      intros. fexp_lia.
    + rewrite plus_IZR. split; nra.
    + nra.
  - rewrite <- HV.
    destruct sx, sy; cbn [xorb Rsign cond_Zopp]; rewrite ?opp_IZR; ring.
Qed.


Lemma SFdiv_rounds (x : spec_float) (sy : bool) (my : positive) (ey : Z) :
  valid x = true -> valid (S754_finite sy my ey) = true ->
  SF_finite x = true ->
  rounds_to (SF64div x (S754_finite sy my ey))
    (SF2R x / SF2R (S754_finite sy my ey)).
Proof.
  intros Vx Vy Fx.
  pose proof eps_pos as Heps. pose proof eta_pos as Heta.
  destruct x as [sx|sx| |sx mx ex]; try discriminate.
  { cbn [SF64div SFdiv rounds_to SF2R]. unfold Rdiv.
    rewrite Rmult_0_l, Rminus_0_r, Rabs_R0. lra. }
  apply valid_finite in Vx as [Cx _]. apply valid_finite in Vy as [Cy _].
  destruct (digits_bounds mx) as (Hdx & Hlx & Hux).
  destruct (digits_bounds my) as (Hdy & Hly & Huy).
  cbn [SF64div SFdiv]. unfold SFdiv_core_binary.
  set (d1 := Zdigits2 (Zpos mx)) in *. set (d2 := Zdigits2 (Zpos my)) in *.
  set (e' := Z.min (fexp (d1 + ex - (d2 + ey))) (ex - ey)).
  set (sh := ex - ey - e').
  assert (Hsh : 0 <= sh) by (unfold sh, e'; lia).
  set (m' := match sh with
             | 0 => Zpos mx
             | Zpos _ => Z.shiftl (Zpos mx) sh
             | Zneg _ => 0
             end).
  assert (Em' : m' = Zpos mx * 2 ^ sh).
  { unfold m'. destruct sh as [|p|p] eqn:E; [lia| |lia].
    apply Z.shiftl_mul_pow2. lia. }
  assert (Hpw : 0 < 2 ^ sh) by (apply Z.pow_pos_nonneg; lia).
  assert (Hm' : 0 < m') by (rewrite Em'; lia).
  assert (Eq : Z.div_eucl m' (Zpos my) = (m' / Zpos my, m' mod Zpos my))
    by (unfold Z.div, Z.modulo; now destruct (Z.div_eucl m' (Zpos my))).
  rewrite Eq. set (q := m' / Zpos my).
  assert (Hq : 0 <= q) by (apply Z.div_pos; lia).
  pose proof (Z.div_mod m' (Zpos my) ltac:(lia)) as Hdm.
  pose proof (Z.mod_pos_bound m' (Zpos my) ltac:(lia)) as Hmod.
  fold q in Hdm.
  (* the quotient, as a real number *)
  pose proof (bpow_pos ex) as HBx. pose proof (bpow_pos ey) as HBy.
  pose proof (bpow_pos e') as HBe.
  assert (Pmx : (0 < IZR (Zpos mx))%R) by (apply IZR_lt; lia).
  assert (Pmy : (0 < IZR (Zpos my))%R) by (apply IZR_lt; lia).
  set (v := (IZR (Zpos mx) * bpow ex / (IZR (Zpos my) * bpow ey))%R).
  assert (Ev : (v * IZR (Zpos my) = IZR m' * bpow e')%R).
  { unfold v. rewrite Em', mult_IZR, <- bpow_IZR by exact Hsh.
    replace ex with (sh + e' + ey) at 1 by (unfold sh; lia).
    rewrite !bpow_add. field. split; lra. }
  assert (Hv : (0 < v)%R).
  { unfold v. apply Rdiv_lt_0_compat; nra. }
  replace (SF2R (S754_finite sx mx ex) / SF2R (S754_finite sy my ey))%R
    with (Rsign (xorb sx sy) v).
  2:{ rewrite !SF2R_finite. unfold v.
      destruct sx, sy; cbn [xorb Rsign]; field; split; lra. }
  apply rounds_to_signed; [exact Hq| | |exact Hv].
  - (* the exponent is not above that of the format *)
    assert (Hc : e' <= emin \/ 53 <= d1 + ex - (d2 + ey) - e')
      by (unfold e'; fexp_lia).
    destruct Hc as [Hc|Hc]; [pose proof (fexp_ge_emin (Zdigits2 q + e')); lia|].
    set (k := d1 - 1 + sh - d2).
    assert (Hk : 52 <= k) by (unfold k, sh; lia).
    assert (Hqk : 2 ^ k <= q).
    { apply Z.div_le_lower_bound; [lia|].
      apply Z.le_trans with (2 ^ d2 * 2 ^ k).
      - apply Z.mul_le_mono_nonneg_r; [apply Z.pow_nonneg|]; lia.
      - rewrite <- Z.pow_add_r by lia. rewrite Em'.
        replace (d2 + k) with ((d1 - 1) + sh) by (unfold k; lia).
        rewrite Z.pow_add_r by lia.
        apply Z.mul_le_mono_nonneg_r; lia. }
    apply digits_ge in Hqk; [|lia].
    assert (Hge : d1 + ex - (d2 + ey) <= Zdigits2 q + e')
      by (unfold k, sh in Hqk; lia).
    revert Hge. unfold e'.
    generalize (Zdigits2 q) (d1 + ex - (d2 + ey)). intros. fexp_lia.
  - (* the quotient brackets the real number *)
    assert (H1 : (IZR q * IZR (Zpos my) <= IZR m')%R).
    { rewrite <- mult_IZR. apply IZR_le. lia. }
    assert (H2 : (IZR m' < IZR (q + 1) * IZR (Zpos my))%R).
    { rewrite <- mult_IZR. apply IZR_lt. lia. }
    split.
    + apply Rmult_le_reg_r with (IZR (Zpos my)); [exact Pmy|].
      rewrite Ev. nra.
    + apply Rmult_lt_reg_r with (IZR (Zpos my)); [exact Pmy|].
      rewrite Ev. nra.
Qed.


Lemma iter_xO (m d : positive) :
  Zpos (Pos.iter xO m d) = Zpos m * 2 ^ Zpos d.
Proof.
  induction d as [|d IH] using Pos.peano_ind.
  - cbn. lia.
  - rewrite Pos.iter_succ, Pos2Z.inj_xO, IH, Pos2Z.inj_succ.
    rewrite Z.pow_succ_r by lia. ring.
Qed.

Lemma shl_align_value (mx : positive) (ex ez : Z) :
  ez <= ex ->
  Zpos (fst (shl_align mx ex ez)) = Zpos mx * 2 ^ (ex - ez) /\
  snd (shl_align mx ex ez) = ez.
Proof.
  intros H. unfold shl_align.
  destruct (ez - ex) as [|d|d] eqn:E; cbn [fst snd]; [|lia|].
  - replace (ex - ez) with 0 by lia. split; lia.
  - rewrite iter_xO. replace (ex - ez) with (Zpos d) by lia. split; lia.
Qed.

Lemma digits_shift (p : positive) (k : Z) :
  0 <= k -> Zdigits2 (Zpos p * 2 ^ k) = Zdigits2 (Zpos p) + k.
Proof.
  intros Hk. destruct (digits_bounds p) as (Hd & Hlo & Hhi).
  set (d := Zdigits2 (Zpos p)) in *.
  assert (Hp : 0 < 2 ^ k) by (apply Z.pow_pos_nonneg; lia).
  apply Z.le_antisymm.
  - apply digits_le; [lia | lia |].
    rewrite Z.pow_add_r by lia. nia.
  - replace (d + k) with ((d - 1 + k) + 1) by lia.
    apply digits_ge; [lia|]. rewrite Z.pow_add_r by lia. nia.
Qed.

Lemma binary_round_rounds (s : bool) (p : positive) (e : Z) :
  rounds_to (binary_round prec emax s p e)
    (Rsign s (IZR (Zpos p) * bpow e)).
Proof.
  unfold binary_round.
  set (e1 := fexp (Zpos (digits2_pos p) + e)).
  change (Zpos (digits2_pos p)) with (Zdigits2 (Zpos p)) in e1.
  destruct (shl_align p e e1) as [mz ez] eqn:Es.
  assert (Hp : (0 < IZR (Zpos p) * bpow e)%R).
  { apply Rmult_lt_0_compat; [apply IZR_lt; lia | apply bpow_pos]. }
  destruct (Z_le_gt_dec e1 e) as [Hle|Hgt].
  - destruct (shl_align_value p e e1 Hle) as [Hm He].
    rewrite Es in Hm, He. cbn [fst snd] in Hm, He. subst ez.
    assert (Ev : (IZR (Zpos p) * bpow e = IZR (Zpos mz) * bpow e1)%R).
    { rewrite Hm, mult_IZR, <- bpow_IZR by lia.
      replace e with ((e - e1) + e1) at 1 by lia.
      rewrite bpow_add. ring. }
    rewrite Ev. rewrite Ev in Hp. pose proof (bpow_pos e1).
    apply rounds_to_signed; [lia| | |exact Hp].
    + rewrite Hm, digits_shift by lia.
      replace (Zdigits2 (Zpos p) + (e - e1) + e1)
        with (Zdigits2 (Zpos p) + e) by lia.
      fold e1. lia.
    + rewrite plus_IZR. split; nra.
  - assert (E : shl_align p e e1 = (p, e)).
    { unfold shl_align. destruct (e1 - e) eqn:E; [lia|reflexivity|lia]. }
    rewrite E in Es. injection Es as <- <-. pose proof (bpow_pos e).
    apply rounds_to_signed; [lia|fold e1; lia| |exact Hp].
    rewrite plus_IZR. split; nra.
Qed.

Lemma binary_normalize_rounds (m e : Z) (sz : bool) :
  rounds_to (binary_normalize prec emax m e sz) (IZR m * bpow e).
Proof.
  destruct m as [|p|p]; cbn [binary_normalize].
  - cbn [rounds_to SF2R]. rewrite Rmult_0_l, Rminus_0_r, Rabs_R0.
    pose proof eps_pos. pose proof eta_pos. lra.
  - apply (binary_round_rounds false).
  - replace (IZR (Zneg p) * bpow e)%R
      with (Rsign true (IZR (Zpos p) * bpow e)).
    + apply (binary_round_rounds true).
    + cbn [Rsign]. change (Zneg p) with (- Zpos p). rewrite opp_IZR. ring.
Qed.

Lemma rounds_to_exact (z : spec_float) (V : R) :
  SF_finite z = true -> SF2R z = V -> rounds_to z V.
Proof.
  intros F <-. pose proof eps_pos. pose proof eta_pos.
  pose proof (Rabs_pos (SF2R z)).
  destruct z; try discriminate; unfold rounds_to;
    rewrite Rminus_diag, Rabs_R0; nra.
Qed.

Lemma aligned_value (s : bool) (m : positive) (e ez : Z) :
  ez <= e ->
  (IZR (cond_Zopp s (Zpos (fst (shl_align m e ez)))) * bpow ez)%R
  = SF2R (S754_finite s m e).
Proof.
  intros H. destruct (shl_align_value m e ez H) as [Hm _].
  rewrite Hm. cbn [SF2R].
  replace e with ((e - ez) + ez) at 2 by lia.
  rewrite bpow_add, (bpow_IZR (e - ez)) by lia.
  destruct s; cbn [cond_Zopp]; rewrite ?opp_IZR, mult_IZR; ring.
Qed.

Lemma SFadd_rounds (x y : spec_float) :
  SF_finite x = true -> SF_finite y = true ->
  rounds_to (SF64add x y) (SF2R x + SF2R y).
Proof.
  intros Fx Fy.
  destruct x as [sx|sx| |sx mx ex]; try discriminate;
    destruct y as [sy|sy| |sy my ey]; try discriminate;
    cbn [SF64add SFadd].
  - apply rounds_to_exact; [now destruct sx, sy | destruct sx, sy; cbn; ring].
  - apply rounds_to_exact; [reflexivity | cbn [SF2R]; ring].
  - apply rounds_to_exact; [reflexivity | cbn [SF2R]; ring].
  - rewrite <- (aligned_value sx mx ex (Z.min ex ey)) by lia.
    rewrite <- (aligned_value sy my ey (Z.min ex ey)) by lia.
    rewrite <- Rmult_plus_distr_r, <- plus_IZR.
    apply binary_normalize_rounds.
Qed.

Lemma SFsub_rounds (x y : spec_float) :
  SF_finite x = true -> SF_finite y = true ->
  rounds_to (SF64sub x y) (SF2R x - SF2R y).
Proof.
  intros Fx Fy.
  destruct x as [sx|sx| |sx mx ex]; try discriminate;
    destruct y as [sy|sy| |sy my ey]; try discriminate;
    cbn [SF64sub SFsub].
  - apply rounds_to_exact; [now destruct sx, sy | destruct sx, sy; cbn; ring].
  - apply rounds_to_exact; [reflexivity|].
    rewrite !SF2R_finite. cbn [SF2R]. destruct sy; cbn [negb Rsign]; ring.
  - apply rounds_to_exact; [reflexivity | cbn [SF2R]; ring].
  - rewrite <- (aligned_value sx mx ex (Z.min ex ey)) by lia.
    rewrite <- (aligned_value sy my ey (Z.min ex ey)) by lia.
    rewrite <- Rmult_minus_distr_r, <- minus_IZR.
    apply binary_normalize_rounds.
Qed.


(** *** Comparisons *)

Lemma canonical_lt (m1 m2 : positive) (e1 e2 : Z) :
  fexp (Zdigits2 (Zpos m1) + e1) = e1 ->
  fexp (Zdigits2 (Zpos m2) + e2) = e2 ->
  e1 < e2 ->
  (IZR (Zpos m1) * bpow e1 < IZR (Zpos m2) * bpow e2)%R.
Proof.
  intros C1 C2 He.
  destruct (digits_bounds m1) as (Hd1 & _ & Hu1).
  destruct (digits_bounds m2) as (Hd2 & Hl2 & _).
  assert (D1 : Zdigits2 (Zpos m1) <= 53) by fexp_lia.
  assert (D2 : Zdigits2 (Zpos m2) = 53) by fexp_lia.
  rewrite D2 in Hl2. change (2 ^ (53 - 1)) with (2 ^ 52) in Hl2.
  assert (H1 : Zpos m1 < 2 ^ 53).
  { eapply Z.lt_le_trans; [exact Hu1|]. apply Z.pow_le_mono_r; lia. }
  apply IZR_lt in H1. apply IZR_le in Hl2.
  rewrite <- bpow_IZR in H1, Hl2 by lia.
  pose proof (bpow_pos e1). pose proof (bpow_pos e2).
  apply Rlt_le_trans with (bpow 53 * bpow e1)%R; [nra|].
  apply Rle_trans with (bpow 52 * bpow e2)%R; [|nra].
  rewrite <- !bpow_add. apply bpow_le. lia.
Qed.

Lemma SFcompare_pos (m1 m2 : positive) (e1 e2 : Z) :
  valid (S754_finite false m1 e1) = true ->
  valid (S754_finite false m2 e2) = true ->
  match SFcompare (S754_finite false m1 e1) (S754_finite false m2 e2) with
  | Some Lt => (IZR (Zpos m1) * bpow e1 < IZR (Zpos m2) * bpow e2)%R
  | Some Eq => (IZR (Zpos m1) * bpow e1 = IZR (Zpos m2) * bpow e2)%R
  | Some Gt => (IZR (Zpos m2) * bpow e2 < IZR (Zpos m1) * bpow e1)%R
  | None => False
  end.
Proof.
  intros V1 V2.
  apply valid_finite in V1 as [C1 _]. apply valid_finite in V2 as [C2 _].
  cbn [SFcompare]. destruct (Z.compare_spec e1 e2) as [E|E|E].
  - subst e2. pose proof (bpow_pos e1).
    change (Pos.compare_cont Eq m1 m2) with (Pos.compare m1 m2).
    destruct (Pos.compare_spec m1 m2) as [Em|Em|Em].
    + now subst.
    + apply Pos2Z.pos_lt_pos, IZR_lt in Em. nra.
    + apply Pos2Z.pos_lt_pos, IZR_lt in Em. nra.
  - now apply canonical_lt.
  - now apply canonical_lt.
Qed.

End Rounding.

(** ** binary64: the primitive floats *)

Section Binary64.

Local Open Scope R_scope.

Lemma SFcompare_refl (s : bool) (m : positive) (e : Z) :
  SFcompare (S754_finite s m e) (S754_finite s m e) = Some Eq.
Proof.
  cbn [SFcompare]. rewrite Z.compare_refl.
  change (Pos.compare_cont Eq m m) with (Pos.compare m m).
  rewrite Pos.compare_refl. now destruct s.
Qed.

Lemma is_finite_SF (x : float) :
  PrimFloat.is_finite x = SF_finite (Prim2SF x).
Proof.
  unfold PrimFloat.is_finite, is_nan, is_infinity.
  rewrite !FloatAxioms.eqb_spec, abs_spec.
  replace (Prim2SF infinity) with (S754_infinity false) by reflexivity.
  unfold SFeqb.
  destruct (Prim2SF x) as [s|s| |s m e]; cbn [SFabs SF_finite].
  - now destruct s.
  - now destruct s.
  - reflexivity.
  - rewrite SFcompare_refl. reflexivity.
Qed.

Lemma finite_cases (x : float) :
  PrimFloat.is_finite x = true ->
  (exists s, Prim2SF x = S754_zero s) \/
  (exists s m e, Prim2SF x = S754_finite s m e).
Proof.
  rewrite is_finite_SF. destruct (Prim2SF x) as [s|s| |s m e];
    try discriminate; eauto.
Qed.

Lemma mul_rounds (x y : float) :
  PrimFloat.is_finite x = true -> PrimFloat.is_finite y = true ->
  rounds_to (Prim2SF (x * y)) (B2R x * B2R y).
Proof.
  rewrite !is_finite_SF, FloatAxioms.mul_spec. intros Fx Fy.
  apply SFmul_rounds; auto using Prim2SF_valid.
Qed.

Lemma add_rounds (x y : float) :
  PrimFloat.is_finite x = true -> PrimFloat.is_finite y = true ->
  rounds_to (Prim2SF (x + y)) (B2R x + B2R y).
Proof.
  rewrite !is_finite_SF, FloatAxioms.add_spec. intros Fx Fy.
  now apply SFadd_rounds.
Qed.

Lemma sub_rounds (x y : float) :
  PrimFloat.is_finite x = true -> PrimFloat.is_finite y = true ->
  rounds_to (Prim2SF (x - y)) (B2R x - B2R y).
Proof.
  rewrite !is_finite_SF, FloatAxioms.sub_spec. intros Fx Fy.
  now apply SFsub_rounds.
Qed.

Lemma div_rounds (x y : float) :
  PrimFloat.is_finite x = true -> B2R y <> 0 ->
  rounds_to (Prim2SF (x / y)) (B2R x / B2R y).
Proof.
  rewrite is_finite_SF, FloatAxioms.div_spec. unfold B2R. intros Fx Hy.
  pose proof (Prim2SF_valid y) as Vy.
  destruct (Prim2SF y) as [s|s| |s m e]; try (now elim Hy).
  apply SFdiv_rounds; auto using Prim2SF_valid.
Qed.

(** A rounding of a number that is not too large is finite, and within
    the rounding error. *)
Lemma rounds_to_finite (x : float) (V : R) :
  rounds_to (Prim2SF x) V ->
  (1 + eps) * Rabs V + eta < bpow emax ->
  PrimFloat.is_finite x = true /\ Rabs (B2R x - V) <= eps * Rabs V + eta.
Proof.
  rewrite is_finite_SF. unfold B2R, rounds_to.
  destruct (Prim2SF x) as [s|s| |s m e]; intros H Hb; auto.
  - lra.
  - contradiction.
Qed.

End Binary64.

Section Binary64Facts.

Local Open Scope R_scope.

Lemma bpow_opp (k : Z) : bpow (- k) = / bpow k.
Proof.
  pose proof (bpow_pos k) as Hk.
  apply Rmult_eq_reg_r with (bpow k); [|lra].
  rewrite <- bpow_add, Rinv_l by lra.
  replace (- k + k)%Z with 0%Z by lia. reflexivity.
Qed.

Lemma eps_small : eps <= 1 / 1000000000.
Proof.
  unfold eps. change (-52)%Z with (- (52))%Z.
  rewrite bpow_opp, bpow_IZR by lia.
  change (2 ^ 52)%Z with 4503599627370496%Z. lra.
Qed.

Lemma eta_eps : eta = eps * bpow (-1022).
Proof. unfold eta, eps. rewrite <- bpow_add. reflexivity. Qed.

Lemma bpow_emax : bpow emax = 4 * bpow 1022.
Proof.
  change emax with (2 + 1022)%Z. rewrite bpow_add.
  rewrite (bpow_IZR 2) by lia. change (2 ^ 2)%Z with 4%Z. reflexivity.
Qed.

Lemma bpow_range : bpow (-1022) <= 1 <= bpow 1022.
Proof.
  change 1 with (bpow 0). split; apply bpow_le; lia.
Qed.

(** One operation on numbers of magnitude at most [3 T], for [T] in the
    range of the normal doubles: the result is finite, and within
    [4 eps T] of the exact one. *)
Lemma op_ok (x : float) (V T : R) :
  rounds_to (Prim2SF x) V ->
  bpow (-1022) <= T <= bpow 1022 ->
  Rabs V <= 3 * T ->
  PrimFloat.is_finite x = true /\
  V - 4 * (eps * T) <= B2R x <= V + 4 * (eps * T).
Proof.
  intros Hr HT HV.
  pose proof eps_small as He. pose proof eps_pos as He0.
  pose proof (bpow_pos (-1022)) as Hm.
  pose proof bpow_range as Hrg.
  destruct (rounds_to_finite x V Hr) as [F E].
  - rewrite bpow_emax, eta_eps. pose proof (Rabs_pos V). nra.
  - split; [exact F|]. apply Rabs_bounds in E. rewrite eta_eps in E.
    pose proof (Rabs_pos V). nra.
Qed.


(** The value of a float literal. *)
Ltac b2r_literal :=
  unfold B2R;
  match goal with
  | |- context [Prim2SF ?x] =>
      let v := eval vm_compute in (Prim2SF x) in
      change (Prim2SF x) with v
  end;
  cbn [SF2R cond_Zopp];
  repeat match goal with
  | |- context [bpow (Zneg ?p)] =>
      change (bpow (Zneg p)) with (bpow (- Zpos p));
      rewrite (bpow_opp (Zpos p)), (bpow_IZR (Zpos p)) by lia;
      let v := eval vm_compute in (2 ^ Zpos p)%Z in
      change (2 ^ Zpos p)%Z with v
  end.

Lemma B2R_1 : B2R 1 = 1.
Proof. b2r_literal. lra. Qed.

Lemma B2R_2 : B2R 2 = 2.
Proof. b2r_literal. lra. Qed.

Lemma B2R_3 : B2R 3 = 3.
Proof. b2r_literal. lra. Qed.

Lemma B2R_half : B2R 0.5 = 1 / 2.
Proof. b2r_literal. lra. Qed.

Lemma B2R_0 : B2R 0 = 0.
Proof. reflexivity. Qed.

Lemma B2R_1em6 : 9 / 10000000 <= B2R 9.9999999999999995e-07 <= 1.
Proof. b2r_literal. lra. Qed.

Lemma leb0_shape (a : float) :
  (0 <=? a)%float = true ->
  match Prim2SF a with
  | S754_zero _ => True
  | S754_infinity s | S754_finite s _ _ => s = false
  | S754_nan => False
  end.
Proof.
  rewrite FloatAxioms.leb_spec. change (Prim2SF 0) with (S754_zero false).
  destruct (Prim2SF a) as [s|s| |s m e]; cbn; try destruct s;
    auto; discriminate.
Qed.

Lemma SF2R_pos (m : positive) (e : Z) : 0 < SF2R (S754_finite false m e).
Proof.
  cbn. apply Rmult_lt_0_compat; [apply IZR_lt; lia | apply bpow_pos].
Qed.

(** An assertion [0 <= a] on a rounded number: the exact number is not
    below zero by more than what a rounding to zero hides. *)
Lemma leb0_rounds (a : float) (V : R) :
  (0 <=? a)%float = true -> rounds_to (Prim2SF a) V -> - (2 * eta) <= V.
Proof.
  intros H Hr. apply leb0_shape in H.
  pose proof eps_small as He. pose proof eps_pos as He0.
  pose proof eta_pos as Ht.
  destruct (Rle_dec 0 V) as [|Hneg]; [lra|].
  apply Rnot_le_lt in Hneg.
  unfold rounds_to in Hr.
  destruct (Prim2SF a) as [s|s| |s m e] eqn:E.
  - cbn [SF2R] in Hr. rewrite (Rabs_left V) in Hr by lra.
    apply Rabs_bounds in Hr. nra.
  - subst s. lra.
  - contradiction.
  - subst s. pose proof (SF2R_pos m e).
    rewrite (Rabs_left V) in Hr by lra. apply Rabs_bounds in Hr. nra.
Qed.

Lemma half_leb0 (s : float) (V : R) :
  rounds_to (Prim2SF s) V -> (0 <=? 0.5 * s)%float = true ->
  - (6 * eta) <= V.
Proof.
  intros Hr H.
  pose proof eps_small as He. pose proof eps_pos as He0.
  pose proof eta_pos as Ht.
  destruct (Rle_dec 0 V) as [|Hneg]; [lra|].
  apply Rnot_le_lt in Hneg.
  assert (Hc : SF_finite (Prim2SF s) = true \/
               exists sg, Prim2SF s = S754_infinity sg).
  { destruct (Prim2SF s) as [sg|sg| |sg m e]; cbn; eauto;
      contradiction. }
  destruct Hc as [F|[sg E]].
  - rewrite <- is_finite_SF in F.
    pose proof (mul_rounds 0.5 s eq_refl F) as Hm.
    apply (leb0_rounds _ _ H) in Hm. rewrite B2R_half in Hm.
    assert (Hs : Rabs (B2R s - V) <= eps * Rabs V + eta).
    { unfold B2R. rewrite is_finite_SF in F. unfold rounds_to in Hr.
      destruct (Prim2SF s); try discriminate; exact Hr. }
    rewrite (Rabs_left V) in Hs by lra. apply Rabs_bounds in Hs. nra.
  - apply leb0_shape in H. rewrite FloatAxioms.mul_spec, E in H.
    change (Prim2SF 0.5) with (S754_finite false 4503599627370496 (-53)) in H.
    cbn in H. subst sg. rewrite E in Hr. cbn in Hr. lra.
Qed.

(** When [nu_M21/DD] is infinite, one of the last two masses is
    [-inf]. *)
Lemma infinite_quotient_fails (dd q : float) (s : bool) :
  PrimFloat.is_finite dd = true -> Prim2SF q = S754_infinity s ->
  (0 <=? 0.5 * (dd + q))%float = true ->
  (0 <=? 0.5 * (dd - q))%float = true -> False.
Proof.
  intros F E H2 H3. apply leb0_shape in H2, H3.
  rewrite FloatAxioms.mul_spec, FloatAxioms.add_spec, E in H2.
  rewrite FloatAxioms.mul_spec, FloatAxioms.sub_spec, E in H3.
  change (Prim2SF 0.5) with (S754_finite false 4503599627370496 (-53))
    in H2, H3.
  destruct (finite_cases dd F) as [[sd Ed]|(sd & m & e & Ed)];
    rewrite Ed in H2, H3; destruct s; cbn in H2, H3; congruence.
Qed.


Lemma SF2R_neg (m : positive) (e : Z) : SF2R (S754_finite true m e) < 0.
Proof.
  pose proof (SF2R_pos m e) as H. rewrite SF2R_finite in *.
  cbn [Rsign] in *. lra.
Qed.

Lemma positive_shape (x : float) :
  0 < B2R x -> exists m e, Prim2SF x = S754_finite false m e.
Proof.
  unfold B2R. destruct (Prim2SF x) as [s|s| |[] m e]; cbn [SF2R];
    try lra; eauto.
  intros H. pose proof (SF2R_neg m e). cbn [SF2R] in *. lra.
Qed.

(** [<=] on two positive floats is [<=] on their values. *)
Lemma leb_pos (x y : float) (mx my : positive) (ex ey : Z) :
  Prim2SF x = S754_finite false mx ex ->
  Prim2SF y = S754_finite false my ey ->
  ((x <=? y)%float = true <-> B2R x <= B2R y).
Proof.
  intros Ex Ey. unfold B2R. rewrite FloatAxioms.leb_spec.
  pose proof (Prim2SF_valid x) as Vx. pose proof (Prim2SF_valid y) as Vy.
  rewrite Ex in *. rewrite Ey in *.
  pose proof (SFcompare_pos mx my ex ey Vx Vy) as H.
  unfold SFleb. cbn [SF2R cond_Zopp].
  destruct (SFcompare _ _) as [[]|]; split; intros; try lra;
    try discriminate; try reflexivity; try contradiction.
Qed.

(** A total mass between the two bounds of the statement. *)
Lemma range_pos (t : float) :
  (0x1p-1022 <=? t)%float = true -> (t <=? 0x1p1022)%float = true ->
  (exists m e, Prim2SF t = S754_finite false m e) /\
  bpow (-1022) <= B2R t <= bpow 1022.
Proof.
  intros Hlo Hhi.
  assert (Elo : Prim2SF 0x1p-1022
                = S754_finite false 4503599627370496 (-1074))
    by reflexivity.
  assert (Ehi : Prim2SF 0x1p1022 = S754_finite false 4503599627370496 970)
    by reflexivity.
  assert (Blo : B2R 0x1p-1022 = bpow (-1022)).
  { unfold B2R. rewrite Elo. cbn [SF2R cond_Zopp].
    change 4503599627370496%Z with (2 ^ 52)%Z.
    rewrite <- bpow_IZR, <- bpow_add by lia. reflexivity. }
  assert (Bhi : B2R 0x1p1022 = bpow 1022).
  { unfold B2R. rewrite Ehi. cbn [SF2R cond_Zopp].
    change 4503599627370496%Z with (2 ^ 52)%Z.
    rewrite <- bpow_IZR, <- bpow_add by lia. reflexivity. }
  assert (Hs : exists m e, Prim2SF t = S754_finite false m e).
  { rewrite FloatAxioms.leb_spec, Elo in Hlo.
    rewrite FloatAxioms.leb_spec, Ehi in Hhi.
    destruct (Prim2SF t) as [s|s| |s m e]; try destruct s;
      try discriminate; eauto. }
  split; [exact Hs|]. destruct Hs as (m & e & Et).
  rewrite <- Blo, <- Bhi. split.
  - now apply (leb_pos _ _ _ _ _ _ Elo Et).
  - now apply (leb_pos _ _ _ _ _ _ Et Ehi).
Qed.

Lemma abs_pos_id (t : float) (m : positive) (e : Z) :
  Prim2SF t = S754_finite false m e -> PrimFloat.abs t = t.
Proof.
  intros E. apply Prim2SF_inj. now rewrite abs_spec, E.
Qed.

(** The tolerance test, for a sum within [40 eps] (relative) of the
    total mass. *)
Lemma rel_close_ok (S t : float) :
  (exists m e, Prim2SF t = S754_finite false m e) ->
  bpow (-1022) <= B2R t <= bpow 1022 ->
  PrimFloat.is_finite S = true ->
  B2R t - 40 * (eps * B2R t) <= B2R S <= B2R t + 40 * (eps * B2R t) ->
  (PrimFloat.abs (S - t) <=? 9.9999999999999995e-07 * PrimFloat.abs t)%float
  = true.
Proof.
  intros (m & e & Et) HT FS HS.
  pose proof eps_small as He. pose proof eps_pos as He0.
  pose proof (bpow_pos (-1022)) as Hm.
  assert (Ft : PrimFloat.is_finite t = true)
    by (rewrite is_finite_SF, Et; reflexivity).
  set (T := B2R t) in *.
  rewrite (abs_pos_id t m e Et).
  destruct (op_ok (S - t) (B2R S - T) T (sub_rounds S t FS Ft) HT)
    as [Fd Hd]; [apply Rabs_le; nra|].
  destruct (op_ok (9.9999999999999995e-07 * t)
              (B2R 9.9999999999999995e-07 * T) T
              (mul_rounds 9.9999999999999995e-07 t eq_refl Ft) HT)
    as [Ftol Htol].
  { pose proof B2R_1em6. apply Rabs_le; nra. }
  pose proof B2R_1em6 as Hc.
  assert (Hpos : 0 < B2R (9.9999999999999995e-07 * t)) by nra.
  destruct (positive_shape _ Hpos) as (mt & et & Etol).
  assert (Habs : B2R (PrimFloat.abs (S - t))
                 <= B2R (9.9999999999999995e-07 * t)).
  { unfold B2R at 1. rewrite abs_spec. fold T in Hd. unfold B2R in Hd at 2 3.
    destruct (Prim2SF (S - t)) as [s|s| |[] md ed]; cbn [SFabs SF2R] in *;
      try lra.
    - pose proof (SF2R_neg md ed). cbn [SF2R cond_Zopp] in *.
      rewrite opp_IZR in *. nra.
    - cbn [cond_Zopp] in *. nra. }
  rewrite is_finite_SF in Fd.
  destruct (Prim2SF (S - t)) as [s|s| |s md ed] eqn:Ed; try discriminate.
  - rewrite FloatAxioms.leb_spec, abs_spec, Ed, Etol. reflexivity.
  - apply (leb_pos _ _ md mt ed et); [|exact Etol|exact Habs].
    now rewrite abs_spec, Ed.
Qed.

End Binary64Facts.

(* ================================================================== *)
(** ** get_neutrino_masses: mass conservation in binary64 *)

Section NeutrinoBinary64.

Local Open Scope R_scope.

Lemma leb0_B2R (a : float) : (0 <=? a)%float = true -> 0 <= B2R a.
Proof.
  intros H. apply leb0_shape in H. unfold B2R.
  destruct (Prim2SF a) as [s|s| |s m e]; cbn [SF2R]; try lra.
  subst s. pose proof (SF2R_pos m e). cbn [SF2R] in *. lra.
Qed.

(** Three non-negative numbers whose exact sum is within [28 eps]
    (relative) of [T], added from 0 left to right. *)
Lemma sum3_ok (a b c : float) (T : R) :
  bpow (-1022) <= T <= bpow 1022 ->
  PrimFloat.is_finite a = true -> PrimFloat.is_finite b = true ->
  PrimFloat.is_finite c = true ->
  0 <= B2R a -> 0 <= B2R b -> 0 <= B2R c ->
  T - 28 * (eps * T) <= B2R a + B2R b + B2R c <= T + 28 * (eps * T) ->
  PrimFloat.is_finite (0 + a + b + c) = true /\
  T - 40 * (eps * T) <= B2R (0 + a + b + c)%float <= T + 40 * (eps * T).
Proof.
  intros HT Fa Fb Fc Pa Pb Pc Hs.
  pose proof eps_small as He. pose proof eps_pos as He0.
  pose proof (bpow_pos (-1022)) as Hm.
  destruct (op_ok (0 + a) (B2R 0 + B2R a) T (add_rounds 0 a eq_refl Fa) HT)
    as [F1 H1]; [rewrite B2R_0; apply Rabs_le; nra|].
  rewrite B2R_0 in H1.
  destruct (op_ok (0 + a + b) (B2R (0 + a) + B2R b) T
              (add_rounds _ b F1 Fb) HT)
    as [F2 H2]; [apply Rabs_le; nra|].
  destruct (op_ok (0 + a + b + c) (B2R (0 + a + b) + B2R c) T
              (add_rounds _ c F2 Fc) HT)
    as [F3 H3]; [apply Rabs_le; nra|].
  split; [exact F3 | nra].
Qed.

(** The masses of the tail of the function: when the three assertions
    hold, the three masses are finite, not negative, and their exact sum
    is within [16 eps] (relative) of the total mass, whatever [DD] is. *)
Lemma split_sum_ok (t dd : float) :
  (exists m e, Prim2SF t = S754_finite false m e) ->
  bpow (-1022) <= B2R t <= bpow 1022 ->
  PrimFloat.is_finite dd = true ->
  (0 <=? t - dd)%float = true ->
  (0 <=? 0.5 * (dd + 7.5300000000000001e-05 / dd))%float = true ->
  (0 <=? 0.5 * (dd - 7.5300000000000001e-05 / dd))%float = true ->
  let a1 := (t - dd)%float in
  let a2 := (0.5 * (dd + 7.5300000000000001e-05 / dd))%float in
  let a3 := (0.5 * (dd - 7.5300000000000001e-05 / dd))%float in
  PrimFloat.is_finite a1 = true /\ PrimFloat.is_finite a2 = true /\
  PrimFloat.is_finite a3 = true /\
  B2R t - 28 * (eps * B2R t) <= B2R a1 + B2R a2 + B2R a3
  <= B2R t + 28 * (eps * B2R t).
Proof.
  intros (m & e & Et) HT Fd H1 H2 H3. cbv zeta.
  pose proof eps_small as He. pose proof eps_pos as He0.
  pose proof (bpow_pos (-1022)) as Hm. pose proof eta_eps as Heta.
  assert (Ft : PrimFloat.is_finite t = true)
    by (rewrite is_finite_SF, Et; reflexivity).
  set (T := B2R t) in *. set (D := B2R dd).
  set (q := (7.5300000000000001e-05 / dd)%float) in *.
  (* the quotient is finite *)
  assert (Fq : PrimFloat.is_finite q = true).
  { rewrite is_finite_SF.
    destruct (Prim2SF q) as [s|s| |s mq eq] eqn:Eq; try reflexivity;
      exfalso.
    - exact (infinite_quotient_fails dd q s Fd Eq H2 H3).
    - unfold q in Eq. rewrite FloatAxioms.div_spec in Eq.
      destruct (finite_cases dd Fd) as [[sd Ed]|(sd & md & ed & Ed)].
      + rewrite Ed in Eq. discriminate.
      + assert (Hr : rounds_to (Prim2SF (7.5300000000000001e-05 / dd))
                       (B2R 7.5300000000000001e-05 / B2R dd)).
        { apply div_rounds; [reflexivity|]. unfold B2R. rewrite Ed.
          destruct sd; [pose proof (SF2R_neg md ed)
                       | pose proof (SF2R_pos md ed)]; lra. }
        rewrite FloatAxioms.div_spec, Eq in Hr. exact Hr. }
  set (Q := B2R q).
  pose proof (half_leb0 _ _ (add_rounds dd q Fd Fq) H2) as B2.
  pose proof (half_leb0 _ _ (sub_rounds dd q Fd Fq) H3) as B3.
  pose proof (leb0_rounds _ _ H1 (sub_rounds t dd Ft Fd)) as B1.
  fold T D Q in B1, B2, B3.
  assert (Hee : eta <= eps * T).
  { rewrite Heta. apply Rmult_le_compat_l; lra. }
  destruct (op_ok (t - dd) (T - D) T (sub_rounds t dd Ft Fd) HT)
    as [F1 E1]; [apply Rabs_le; nra|].
  destruct (op_ok (dd + q) (D + Q) T (add_rounds dd q Fd Fq) HT)
    as [Fs2 Es2]; [apply Rabs_le; nra|].
  destruct (op_ok (dd - q) (D - Q) T (sub_rounds dd q Fd Fq) HT)
    as [Fs3 Es3]; [apply Rabs_le; nra|].
  destruct (op_ok (0.5 * (dd + q)) (B2R 0.5 * B2R (dd + q)) T
              (mul_rounds 0.5 _ eq_refl Fs2) HT)
    as [F2 E2]; [rewrite B2R_half; apply Rabs_le; nra|].
  destruct (op_ok (0.5 * (dd - q)) (B2R 0.5 * B2R (dd - q)) T
              (mul_rounds 0.5 _ eq_refl Fs3) HT)
    as [F3 E3]; [rewrite B2R_half; apply Rabs_le; nra|].
  rewrite B2R_half in E2, E3.
  split; [exact F1|]. split; [exact F2|]. split; [exact F3|]. nra.
Qed.


(** The literals of the source, as doubles. *)
Lemma literal_0 : B64.of_Q 0%Q = 0%float.
Proof. reflexivity. Qed.

Lemma literal_1 : B64.of_Q 1%Q = 1%float.
Proof. reflexivity. Qed.

Lemma literal_2 : B64.of_Q 2%Q = 2%float.
Proof. reflexivity. Qed.

Lemma literal_3 : B64.of_Q 3%Q = 3%float.
Proof. reflexivity. Qed.

Lemma literal_half : B64.of_Q 0.5%Q = 0.5%float.
Proof. reflexivity. Qed.

Lemma literal_M21 : @nu_M21 binary64 = 7.5300000000000001e-05%float.
Proof. reflexivity. Qed.

Lemma literal_1em6 : B64.of_Q 1e-6%Q = 9.9999999999999995e-07%float.
Proof. reflexivity. Qed.

Ltac literals :=
  change (@of_Q binary64) with B64.of_Q in *;
  rewrite ?literal_0, ?literal_1, ?literal_2, ?literal_3, ?literal_half,
    ?literal_M21, ?literal_1em6 in *.

(** The sum of a returned triple passes the tolerance test when the
    triple is finite, not negative and sums exactly to within [28 eps]. *)
Lemma triple_close (t a b c : float) :
  (exists m e, Prim2SF t = S754_finite false m e) ->
  bpow (-1022) <= B2R t <= bpow 1022 ->
  PrimFloat.is_finite a = true -> PrimFloat.is_finite b = true ->
  PrimFloat.is_finite c = true ->
  0 <= B2R a -> 0 <= B2R b -> 0 <= B2R c ->
  B2R t - 28 * (eps * B2R t) <= B2R a + B2R b + B2R c
  <= B2R t + 28 * (eps * B2R t) ->
  rel_close (A := binary64) (sum (A := binary64) [a; b; c]) t (#1e-6)%num
  = true.
Proof.
  intros Hs HT Fa Fb Fc Pa Pb Pc H.
  destruct (sum3_ok a b c (B2R t) HT Fa Fb Fc Pa Pb Pc H) as [F E].
  unfold rel_close, sum. cbn [fold_left].
  literals.
  exact (rel_close_ok _ t Hs HT F E).
Qed.

Lemma split_masses_close (t nu_M32 : float) (out : list float) :
  (exists m e, Prim2SF t = S754_finite false m e) ->
  bpow (-1022) <= B2R t <= bpow 1022 ->
  split_masses (A := binary64) t nu_M32 = Ok out ->
  rel_close (A := binary64) (sum (A := binary64) out) t (#1e-6)%num = true.
Proof.
  intros Hs HT H. unfold split_masses in H.
  apply bind_Ok in H as (u1 & H1 & H). apply assert_Ok in H1.
  apply bind_Ok in H as (u2 & _ & H).
  apply bind_Ok in H as (u3 & H3 & H). apply assert_Ok in H3.
  injection H as <-. unfold nu_masses in *.
  set (dd := DD (A := binary64) t nu_M32) in *.
  cbn [forallb] in H3.
  apply andb_prop in H3 as [A1 H3]. apply andb_prop in H3 as [A2 H3].
  apply andb_prop in H3 as [A3 _].
  literals.
  destruct (split_sum_ok t dd Hs HT H1 A1 A2 A3) as (F1 & F2 & F3 & E).
  apply triple_close; auto using leb0_B2R.
Qed.

(** C1, in binary64. For a total mass of 0, or a double from 2^-1022 (the
    smallest normal double) to 2^1022, and any hierarchy name: when
    [get_neutrino_masses] returns, the three doubles it returns, added
    from 0 left to right as doubles, are within 1e-6 (relative) of the
    total mass, the test [|sum - total_mass| <= 1e-6 * |total_mass|]
    being evaluated in binary64 as well. Each rounding moves a result by
    at most [2^-52] of its size, and the exact sum of the three masses
    is the total mass whatever [DD] is. *)
Theorem masses_sum_to_total (total_mass : float) (hierarchy : string) :
  total_mass = 0%float \/
  ((0x1p-1022 <=? total_mass)%float = true /\
   (total_mass <=? 0x1p1022)%float = true) ->
  forall out,
    get_neutrino_masses (A := binary64) total_mass hierarchy = Ok out ->
    rel_close (A := binary64) (sum (A := binary64) out) total_mass
      (#1e-6)%num = true.
Proof.
  intros [-> | [Hlo Hhi]] out Hout.
  - unfold get_neutrino_masses in Hout.
    destruct (String.eqb hierarchy "normal");
      [|destruct (String.eqb hierarchy "inverted")];
      vm_compute in Hout; injection Hout as <-; vm_compute; reflexivity.
  - destruct (range_pos total_mass Hlo Hhi) as [Hs HT].
    pose proof Hs as (m & e & Et).
    assert (Ft : PrimFloat.is_finite total_mass = true)
      by (rewrite is_finite_SF, Et; reflexivity).
    assert (Pt : 0 < B2R total_mass).
    { unfold B2R. rewrite Et. apply SF2R_pos. }
    pose proof eps_small as He. pose proof eps_pos as He0.
    pose proof (bpow_pos (-1022)) as Hm.
    unfold get_neutrino_masses in Hout.
    destruct (String.eqb hierarchy "normal").
    { destruct (@ltb binary64 total_mass normal_threshold).
      - injection Hout as <-. literals.
        apply triple_close; auto; rewrite ?B2R_0; try lra. nra.
      - now apply split_masses_close in Hout. }
    destruct (String.eqb hierarchy "inverted").
    { destruct (@ltb binary64 total_mass inverted_threshold).
      - injection Hout as <-. literals.
        change (@div binary64) with PrimFloat.div.
        destruct (op_ok (total_mass / 2) (B2R total_mass / B2R 2)
                    (B2R total_mass)) as [Fh Eh]; auto.
        + apply div_rounds; [exact Ft | rewrite B2R_2; lra].
        + rewrite B2R_2. apply Rabs_le; nra.
        + rewrite B2R_2 in Eh.
          apply triple_close; auto; rewrite ?B2R_0; try lra; nra.
      - now apply split_masses_close in Hout. }
    injection Hout as <-. cbn [map]. literals.
    change (@div binary64) with PrimFloat.div.
    change (@mul binary64) with PrimFloat.mul.
    destruct (op_ok (1 * total_mass) (B2R 1 * B2R total_mass)
                (B2R total_mass)) as [F1 E1]; auto.
    + now apply mul_rounds.
    + rewrite B2R_1. apply Rabs_le; nra.
    + rewrite B2R_1 in E1.
      destruct (op_ok (1 * total_mass / 3) (B2R (1 * total_mass) / B2R 3)
                  (B2R total_mass)) as [F3 E3]; auto.
      * apply div_rounds; [exact F1 | rewrite B2R_3; lra].
      * rewrite B2R_3. apply Rabs_le; nra.
      * rewrite B2R_3 in E3.
        apply triple_close; auto; try nra.
Qed.

End NeutrinoBinary64.

(** C1 at a total mass of 0.3 eV, normal hierarchy, in binary64. *)
Lemma masses_sum_to_total_witness :
  ((0x1p-1022 <=? 0.3)%float = true /\ (0.3 <=? 0x1p1022)%float = true) /\
  get_neutrino_masses (A := binary64) 0.3%float "normal"
  = Ok [0.10809513366356716; 0.096148624128449781;
        0.095756242207983053]%float /\
  rel_close (A := binary64)
    (sum (A := binary64)
       [0.10809513366356716; 0.096148624128449781;
        0.095756242207983053]%float)
    0.3%float (#1e-6)%num = true.
Proof.
  split; [split; reflexivity|]. split; [exact normal_0_3|].
  apply (masses_sum_to_total 0.3%float "normal").
  - right. split; reflexivity.
  - exact normal_0_3.
Defined.

(** The bound from above is needed as well: at the largest double the
    three masses are finite and their sum overflows. *)
Example mass_sum_overflows :
  get_neutrino_masses (A := binary64) 0x1.fffffffffffffp+1023%float
    "degenerate"
  = Ok [0x1.5555555555555p+1022; 0x1.5555555555555p+1022;
        0x1.5555555555555p+1022]%float /\
  sum (A := binary64)
    [0x1.5555555555555p+1022; 0x1.5555555555555p+1022;
     0x1.5555555555555p+1022]%float = infinity.
Proof. vm_compute. split; reflexivity. Qed.

(* ================================================================== *)
(** ** Running change_power_spectrum_knots in exact arithmetic

    A closed call is evaluated step by step: each comparison of two real
    constants is settled by linear arithmetic (by monotonicity, for two
    logarithms), and the calls of the array functions are evaluated one at
    a time, innermost first. *)

Ltac r_lt :=
  first [ q2r; lra | apply ln_increasing; q2r; lra ].

Ltac r_nlt :=
  first [ q2r; lra
        | apply Rlt_irrefl
        | apply Rle_not_lt; left; apply ln_increasing; q2r; lra ].

Ltac decide_R :=
  match goal with
  | |- context [Rabs ?x] =>
      first [ rewrite (Rabs_pos_eq x) by (q2r; lra)
            | rewrite (Rabs_left x) by (q2r; lra) ]
  | |- context [Rlt_dec ?a ?b] =>
      first [ let H := fresh in
              assert (H : (a < b)%R) by r_lt;
              destruct (Rlt_dec a b) as [_|?]; [clear H | contradiction]
            | let H := fresh in
              assert (H : ~ (a < b)%R) by r_nlt;
              destruct (Rlt_dec a b) as [?|_]; [contradiction | clear H] ]
  | |- context [Rle_dec ?a ?b] =>
      first [ let H := fresh in
              assert (H : (a <= b)%R) by (q2r; lra);
              destruct (Rle_dec a b) as [_|?]; [clear H | contradiction]
            | let H := fresh in
              assert (H : ~ (a <= b)%R) by (q2r; lra);
              destruct (Rle_dec a b) as [?|_]; [contradiction | clear H] ]
  | |- context [Req_dec_T ?a ?b] =>
      first [ let H := fresh in
              assert (H : (a = b)%R) by (q2r; lra);
              destruct (Req_dec_T a b) as [_|?]; [clear H | contradiction]
            | let H := fresh in
              assert (H : (a <> b)%R) by (q2r; lra);
              destruct (Req_dec_T a b) as [?|_]; [contradiction | clear H] ]
  | |- context [Pos.to_nat ?p] =>
      let v := eval vm_compute in (Pos.to_nat p) in
      change (Pos.to_nat p) with v
  end.

Ltac no_decision t :=
  lazymatch t with
  | context [Rlt_dec _ _] => fail
  | context [Rle_dec _ _] => fail
  | context [Req_dec_T _ _] => fail
  | _ => idtac
  end.

(** Evaluate the closed call [t] on its own and put its value in its
    place. *)
Ltac eval_leaf t :=
  let T := type of t in
  let v := fresh "v" in
  let E := fresh "E" in
  evar (v : T);
  assert (E : t = v) by
    (subst v; repeat first [ progress cbn | decide_R ];
     lazymatch goal with |- ?x = _ => no_decision x end; reflexivity);
  rewrite E; clear E; subst v.

Ltac leaf :=
  match goal with
  | |- context [@searchsorted exact ?l ?v] =>
      eval_leaf (@searchsorted exact l v)
  | |- context [@where_close exact ?i ?l] =>
      eval_leaf (@where_close exact i l)
  | |- context [@np_unique exact ?l] => eval_leaf (@np_unique exact l)
  | |- context [@sort_xy exact ?l] => eval_leaf (@sort_xy exact l)
  | |- context [@linear_at exact ?x ?y ?v] =>
      eval_leaf (@linear_at exact x y v)
  | |- context [@existsb xreal ?f ?l] => eval_leaf (@existsb xreal f l)
  | |- context [@increasing exact ?l] => eval_leaf (@increasing exact l)
  | |- context [@np_all exact ?l] => eval_leaf (@np_all exact l)
  | |- context [@delete_from ?T ?i ?l ?o] =>
      eval_leaf (@delete_from T i l o)
  end.

Ltac xrun :=
  repeat first
    [ progress cbn -[searchsorted where_close np_unique sort_xy linear_at
                     existsb increasing np_all delete_from]
    | leaf
    | decide_R
    | progress unfold interp1d, insert_points, np_insert, call, np_delete,
        window, insert_rows, augment_table, change_power_spectrum_knots,
        valid_input ].

(** Put two evaluated tables side by side, row by row; what is left is
    an equation between two real constants for each cell. *)
Ltac same_rows :=
  repeat first
    [ reflexivity
    | match goal with
      | |- Ok _ = Ok _ => apply f_equal
      | |- _ :: _ = _ :: _ => apply f_equal2
      | |- (_, _) = (_, _) => apply f_equal2
      | |- X.lift2 _ _ _ = X.lift2 _ _ _ => apply f_equal2
      | |- X.exp _ = X.exp _ => apply f_equal
      | |- Fin _ = Fin _ => apply f_equal
      | |- ln _ = ln _ => apply f_equal
      | |- ?f _ _ ?a = ?f _ _ ?b => apply f_equal
      | |- @eq R _ _ => q2r; first [ lra | field; lra ]
      end ].

Section Runs.

#[local] Existing Instance exact | 0.
Variable spline : list xreal -> list xreal -> xreal -> xreal.
Local Open Scope x_scope.

Lemma valid_A : valid_input [#1; #4] [#1; #3] table_A = true.
Proof. unfold table_A. xrun. reflexivity. Qed.

Lemma run_A :
  change_power_spectrum_knots X.log X.exp spline [#1; #4] [#1; #3] table_A
  = Ok (out_A spline).
Proof.
  unfold table_A. xrun.
  unfold out_A, inserted, window_A, table_A. xrun. same_rows.
Qed.


Lemma valid_A1 : valid_input [#1; #4] [#1; #1] table_A = true.
Proof. unfold table_A. xrun. reflexivity. Qed.

Lemma run_A1 :
  change_power_spectrum_knots X.log X.exp spline [#1; #4] [#1; #1] table_A
  = Ok (out_A1 spline).
Proof.
  unfold table_A. xrun.
  unfold out_A1, inserted, window_A, table_A. xrun. same_rows.
Qed.

(** The factor the code applies at the rows 1.5, 2 and 3 of table A, all
    three strictly between the two knots. *)
Lemma knot_factor_A :
  knot_factor [#1; #4] [#1; #3] table_A #1.5 = #(4 / 3) /\
  knot_factor [#1; #4] [#1; #3] table_A #2 = #(5 / 3) /\
  knot_factor [#1; #4] [#1; #3] table_A #3 = #(7 / 3).
Proof.
  unfold knot_factor, ext_knotpos, ext_knotval, table_A.
  repeat split; xrun; same_rows.
Qed.

Lemma valid_B : valid_input [#0.500002] [#2] table_B = true.
Proof. unfold table_B. xrun. reflexivity. Qed.

Lemma run_B :
  change_power_spectrum_knots X.log X.exp spline [#0.500002] [#2] table_B
  = Ok out_B.
Proof.
  unfold table_B. xrun. unfold out_B. xrun. same_rows.
Qed.

Lemma run_C :
  change_power_spectrum_knots X.log X.exp spline [#0.5] [#2] table_C
  = Ok (out_C spline).
Proof.
  unfold table_C. xrun.
  unfold out_C, inserted, window_C, table_C. xrun. same_rows.
Qed.

Lemma valid_D : valid_input [#2.4; #3.6] [#2; #3] table_C = true.
Proof. unfold table_C. xrun. reflexivity. Qed.

Lemma run_D :
  change_power_spectrum_knots X.log X.exp spline [#2.4; #3.6] [#2; #3]
    table_C
  = Ok (out_D spline).
Proof.
  unfold table_C. xrun.
  unfold out_D, inserted, window_C, table_C. xrun. same_rows.
Qed.

End Runs.

(* ================================================================== *)
(** ** The theorems at the example tables *)

Local Open Scope x_scope.


(** C8 at table A: the first row is removed, and the smallest [k] moves
    up from 0.999999 to the knot 1. *)
Lemma output_rows_and_range_witness :
  valid_input [#1; #4] [#1; #3] table_A = true /\
  change_power_spectrum_knots X.log X.exp power_law_spline
    [#1; #4] [#1; #3] table_A = Ok (out_A power_law_spline) /\
  last (map fst (out_A power_law_spline)) #0 = last (map fst table_A) #0 /\
  (hd #0 (map fst table_A) <=? hd #0 (map fst (out_A power_law_spline)))
  = true.
Proof.
  split; [apply valid_A|]. split; [apply run_A|].
  destruct (output_rows_and_range X.log X.exp power_law_spline
              [#1; #4] [#1; #3] table_A (out_A power_law_spline)
              valid_A (run_A power_law_spline))
    as (kval1 & pval1 & _ & _ & _ & Hlast & Hhd & _).
  split; [exact Hlast | exact Hhd].
Defined.

(** C6 at table C with the knots 2.4 and 3.6: the row at [k = 0.5],
    below the first knot, is returned with its [P] multiplied by the
    first knot value 2, and the row at [k = 5], above the last knot, with
    its [P] multiplied by the last knot value 3. *)
Lemma boundary_flatness_witness :
  valid_input [#2.4; #3.6] [#2; #3] table_C = true /\
  change_power_spectrum_knots X.log X.exp power_law_spline
    [#2.4; #3.6] [#2; #3] table_C = Ok (out_D power_law_spline) /\
  (exists p,
     knot_factor [#2.4; #3.6] [#2; #3] table_C #0.5 = #2 /\
     In (#0.5, p * #2) (out_D power_law_spline)) /\
  (exists p,
     knot_factor [#2.4; #3.6] [#2; #3] table_C #5 = #3 /\
     In (#5, p * #3) (out_D power_law_spline)).
Proof.
  split; [apply valid_D|]. split; [apply run_D|].
  destruct (boundary_flatness X.log X.exp power_law_spline
              [#2.4; #3.6] [#2; #3] table_C (out_D power_law_spline)
              valid_D (run_D power_law_spline))
    as (imin & imax & pint & ins & _ & _ & Hout & Hflat).
  cbv zeta in Hout, Hflat.
  assert (Hrow : forall k p, In (k, p) (out_D power_law_spline) ->
            exists r, In r (dedup fst (merge_in fst table_C
                        (map (fun k => (k, X.exp (power_law_spline
                                (i_x pint) (i_y pint) (X.log k)))) ins)))
                      /\ fst r = k).
  { intros k p Hin. rewrite Hout in Hin.
    apply in_map_iff in Hin as (r & E & Hr).
    exists r. split; [exact Hr|]. now injection E. }
  split.
  - destruct (Hrow #0.5 #1) as (r & Hr & Ek); [now left|].
    destruct (Hflat r Hr) as [Hlo _]. rewrite Ek in Hlo.
    exists (snd r). apply Hlo.
    cbn. destruct (Rlt_dec _ _) as [_|Hn]; [reflexivity|].
    exfalso. apply Hn. q2r. lra.
  - destruct (Hrow #5 #15) as (r & Hr & Ek); [do 9 right; now left|].
    destruct (Hflat r Hr) as [_ Hhi]. rewrite Ek in Hhi.
    exists (snd r). apply Hhi.
    cbn. destruct (Rlt_dec _ _) as [_|Hn]; [reflexivity|].
    exfalso. apply Hn. q2r. lra.
Defined.

(** C4 at table A: the returned rows are rows of the augmented table
    with their [P] multiplied by the factor, and between the knots 1 and
    4 the factor is the chord from 1 to 3. *)
Lemma correction_piecewise_linear_in_k_witness :
  valid_input [#1; #4] [#1; #3] table_A = true /\
  change_power_spectrum_knots X.log X.exp power_law_spline
    [#1; #4] [#1; #3] table_A = Ok (out_A power_law_spline) /\
  (exists rows,
     out_A power_law_spline
     = map (fun r => (fst r,
                      snd r * knot_factor [#1; #4] [#1; #3] table_A (fst r)))
           rows) /\
  (forall k, (1 <= k <= 4)%R ->
     knot_factor [#1; #4] [#1; #3] table_A (Fin k)
     = Fin (1 + (3 - 1) / (4 - 1) * (k - 1))%R) /\
  knot_factor [#1; #4] [#1; #3] table_A #1 = #1 /\
  knot_factor [#1; #4] [#1; #3] table_A #4 = #3.
Proof.
  split; [apply valid_A|]. split; [apply run_A|].
  destruct (correction_piecewise_linear_in_k X.log X.exp power_law_spline
              [#1; #4] [#1; #3] table_A (out_A power_law_spline)
              valid_A (run_A power_law_spline))
    as ((imin & imax & pint & ins & _ & _ & Hout) & Hchord & Hknot).
  cbv zeta in Hout.
  split; [eexists; exact Hout|].
  split; [|split].
  - intros k Hk.
    apply (Hchord 1%nat 1%R 4%R 1%R 3%R k).
    + cbn. lia.
    + cbn. f_equal. q2r. lra.
    + cbn. f_equal. q2r. lra.
    + cbn. f_equal. q2r. lra.
    + cbn. f_equal. q2r. lra.
    + exact Hk.
  - apply (Hknot 0%nat). cbn. lia.
  - apply (Hknot 1%nat). cbn. lia.
Defined.

(** C5 at table A, both knot values 1. *)
Lemma knot_identity_witness :
  valid_input [#1; #4] [#1; #1] table_A = true /\
  change_power_spectrum_knots X.log X.exp power_law_spline
    [#1; #4] [#1; #1] table_A = Ok (out_A1 power_law_spline) /\
  forall row, In row table_A ->
    In (fst row) (map fst (out_A1 power_law_spline)) ->
    In row (out_A1 power_law_spline).
Proof.
  split; [apply valid_A1|]. split; [apply run_A1|].
  apply (knot_identity X.log X.exp power_law_spline
           [#1; #4] [#1; #1] table_A (out_A1 power_law_spline)).
  - apply valid_A1.
  - repeat constructor.
  - apply run_A1.
Defined.

(** C4, counterexample. On table A the code multiplies the rows at
    [k = 1.5], [2] and [3], all three between the knots 1 and 4, by 4/3,
    5/3 and 7/3: these lie on a line in [k], and no function [a + b log k]
    takes the three values. *)
Lemma correction_not_linear_in_log_k :
  valid_input [#1; #4] [#1; #3] table_A = true /\
  (forall spline,
     change_power_spectrum_knots X.log X.exp spline [#1; #4] [#1; #3] table_A
     = Ok (out_A spline)) /\
  (knot_factor [#1; #4] [#1; #3] table_A #1.5 = #(4 / 3) /\
   knot_factor [#1; #4] [#1; #3] table_A #2 = #(5 / 3) /\
   knot_factor [#1; #4] [#1; #3] table_A #3 = #(7 / 3)) /\
  ~ (exists a b : R,
       a + b * ln (3 / 2) = 4 / 3 /\
       a + b * ln 2 = 5 / 3 /\
       a + b * ln 3 = 7 / 3)%R.
Proof.
  split; [apply valid_A|]. split; [apply run_A|]. split; [apply knot_factor_A|].
  intros (a & b & H1 & H2 & H3).
  assert (L1 : (ln (3 / 2) = ln 3 - ln 2)%R)
    by (unfold Rdiv; rewrite ln_mult, ln_Rinv; lra).
  rewrite L1 in H1.
  assert (Hb : (b * (3 * ln 3 - 5 * ln 2) = 0)%R) by lra.
  apply Rmult_integral in Hb. destruct Hb as [Hb | Hb].
  - subst b. lra.
  - assert (E : (ln (3 * 3 * 3) = ln (2 * 2 * 2 * 2 * 2))%R)
      by (rewrite !ln_mult; lra).
    apply ln_inv in E; lra.
Qed.

(** C8, counterexample. On table B the two inserted rows and the first
    input row are removed as near-duplicates: the code returns six rows
    for seven, and the smallest [k] of the table moves from 0.5 to
    0.500006. *)
Lemma rows_and_first_k_lost :
  valid_input [#0.500002] [#2] table_B = true /\
  (forall spline,
     change_power_spectrum_knots X.log X.exp spline [#0.500002] [#2] table_B
     = Ok out_B) /\
  (length out_B < length table_B)%nat /\
  hd #0 (map fst out_B) <> hd #0 (map fst table_B).
Proof.
  split; [apply valid_B|]. split; [apply run_B|]. split.
  - cbn. lia.
  - cbn. intros E. injection E as E. revert E. q2r. lra.
Qed.

(** C3: the code lets a knot on the first [k] of the table through. The
    range assertion compares [np.all(knotpos)], a boolean, with [kval[0]]
    and [kval[-1]]; with [0.5 < 1 < 5] it holds whatever the knots are, and
    the call returns a table. The midpoint for the knot is taken between
    the first and the last sample of the window ([locations - 1] is -1). *)
Theorem knot_on_first_k_is_accepted
  (spline : list xreal -> list xreal -> xreal -> xreal) :
  forallb (fun p => (#0.5 <? p) && (p <? #5)) [#0.5] = false /\
  change_power_spectrum_knots X.log X.exp spline [#0.5] [#2] table_C
  = Ok (out_C spline).
Proof.
  split; [|apply run_C].
  xrun. reflexivity.
Qed.
(* ================================================================== *)
(** ** get_neutrino_masses at a total mass of 1 eV, exactly *)

Section NeutrinoRun.

#[local] Existing Instance exact | 0.
Local Open Scope x_scope.

Lemma sqrt_between (x lo hi : R) :
  (0 <= lo -> lo * lo <= x -> x <= hi * hi -> 0 <= hi ->
   lo <= R_sqrt.sqrt x <= hi)%R.
Proof.
  intros Hlo H1 H2 Hhi. split.
  - rewrite <- (sqrt_square lo) by exact Hlo. now apply sqrt_le_1_alt.
  - rewrite <- (sqrt_square hi) by exact Hhi. now apply sqrt_le_1_alt.
Qed.

Lemma DD1_at_1 :
  exists d1, DD1 #1 nu_M32n = Fin d1 /\ (0.664 <= d1 <= 0.665)%R.
Proof.
  unfold DD1, sq, nu_M32n, nu_M21. cbn.
  repeat decide_R.
  eexists. split; [reflexivity|].
  match goal with |- context [R_sqrt.sqrt ?x] =>
    pose proof (sqrt_between x 1.0037 1.0038) as H;
    set (s := R_sqrt.sqrt x) in *
  end.
  revert H. q2r. intros H. lra.
Qed.

Lemma DD_at_1 :
  exists d1 d,
    DD1 #1 nu_M32n = Fin d1 /\ DD #1 nu_M32n = Fin d /\
    (0.664 <= d1 <= 0.665)%R /\ (0.664 <= d <= 0.665)%R.
Proof.
  destruct DD1_at_1 as (d1 & E1 & B1). exists d1.
  unfold DD. rewrite E1. unfold sq, nu_M32n, nu_M21. cbn.
  repeat decide_R.
  destruct (Req_dec_T (d1 * d1) 0) as [E|_]; [exfalso; nra|].
  match goal with |- context [(?c / (d1 * d1))%R] =>
    set (e := (c / (d1 * d1))%R);
    assert (He : (e * (d1 * d1) = c)%R) by (unfold e; field; nra)
  end.
  revert He. q2r. intros He.
  assert (Hd : (0.44 <= d1 * d1)%R) by nra.
  assert (Be : (0 <= e <= 1 / 10000000)%R) by (split; nra).
  clearbody e. cbn.
  match goal with |- context [Rlt_dec ?a 0] =>
    destruct (Rlt_dec a 0) as [Hneg|_]; [exfalso; revert Hneg; q2r; lra|]
  end.
  cbn. eexists. split; [reflexivity|]. split; [reflexivity|].
  split; [exact B1|].
  match goal with |- context [R_sqrt.sqrt ?x] =>
    pose proof (sqrt_between x 1.0037 1.0038) as H;
    set (s := R_sqrt.sqrt x) in *
  end.
  revert H. q2r. intros H. lra.
Qed.

(** A total mass of 1 eV in the normal hierarchy: above the threshold,
    and the three assertions hold. *)
Lemma normal_at_1 :
  (#1 <? normal_threshold) = false /\
  exists m1 m2 m3 : R,
    get_neutrino_masses #1 "normal" = Ok [Fin m1; Fin m2; Fin m3] /\
    (0.335 <= m1 <= 0.336)%R /\ (0.332 <= m2 <= 0.333)%R /\
    (0.331 <= m3 <= 0.333)%R.
Proof.
  destruct DD_at_1 as (d1 & d & E1 & E & B1 & B).
  unfold get_neutrino_masses. cbn [String.eqb Ascii.eqb Bool.eqb].
  assert (Hth : (#1 <? normal_threshold) = false).
  { unfold normal_threshold, nu_M32n, nu_M21. cbn. repeat decide_R. cbn.
    match goal with |- context [(R_sqrt.sqrt ?a + R_sqrt.sqrt ?b)%R] =>
      pose proof (sqrt_between a 0 0.05) as Ha;
      pose proof (sqrt_between b 0 0.009) as Hb;
      set (sa := R_sqrt.sqrt a) in *; set (sb := R_sqrt.sqrt b) in *
    end.
    destruct (Rlt_dec _ _) as [Hlt|_]; [exfalso|reflexivity].
    revert Ha Hb Hlt. q2r. intros. lra. }
  split; [exact Hth|].
  rewrite Hth. unfold split_masses, nu_masses. rewrite E1, E.
  unfold nu_M21. cbn.
  destruct (Req_dec_T d 0) as [Hz|_]; [exfalso; lra|].
  set (r := (d1 / d)%R).
  assert (Hr : (r * d = d1)%R) by (unfold r; field; lra).
  assert (Br : (-0.01 < r - 1 < 0.01)%R) by (split; nra).
  match goal with |- context [(?c / d)%R] =>
    set (q := (c / d)%R);
    assert (Hq : (q * d = c)%R) by (unfold q; field; lra)
  end.
  revert Hq. q2r. intros Hq.
  assert (Bq : (0 <= q <= 0.001)%R) by (split; nra).
  clearbody r q. cbn.
  destruct (Rlt_dec (Rabs _) _) as [_|Hn];
    [|exfalso; apply Hn; apply Rabs_def1; q2r; lra].
  repeat decide_R. cbn.
  do 3 eexists. split; [reflexivity|]. q2r. lra.
Qed.

End NeutrinoRun.

(** The exact sum at a total mass of 1 eV, normal hierarchy. *)
Lemma masses_sum_to_total_exact_witness :
  (#1 <? normal_threshold) = false /\
  exists out,
    get_neutrino_masses #1 "normal" = Ok out /\
    sum out = #1 /\ rel_close (sum out) #1 #1e-6 = true.
Proof.
  destruct normal_at_1 as (Hth & m1 & m2 & m3 & E & _).
  split; [exact Hth|].
  exists [Fin m1; Fin m2; Fin m3]. split; [exact E|].
  apply (masses_sum_to_total_exact #1 "normal").
  - left. reflexivity.
  - cbn. destruct (Rle_dec _ _) as [_|Hn]; [reflexivity|].
    exfalso. apply Hn. q2r. lra.
  - exact E.
Defined.

Close Scope x_scope.

(* ================================================================== *)
(** ** change_power_spectrum_knots: what it rejects and what it lets through *)

Section KnotsChecks.

Context {A : Arith}.
Variables np_log np_exp : num -> num.
Variable spline : list num -> list num -> num -> num.
Local Open Scope num_scope.

(** Knot positions that are not strictly increasing, or as many knot
    values as there are not positions, fail one of the first two
    assertions, whatever the table holds. *)
Theorem unordered_knots_rejected (knotpos knotval : list num)
  (matpow : list (num * num)) :
  increasing knotpos = false \/ length knotval <> length knotpos ->
  change_power_spectrum_knots np_log np_exp spline knotpos knotval matpow
  = Raise AssertionError.
Proof.
  intros H. unfold change_power_spectrum_knots.
  destruct (increasing knotpos) eqn:Hi; [|reflexivity].
  destruct H as [H|H]; [discriminate|].
  apply Nat.eqb_neq in H. cbn [assert bind]. now rewrite H.
Qed.

(** Without a knot, or without a row in the table, the call never
    returns: an assertion fails, or [kval[0]], resp. [knotval[0]], raises
    IndexError. *)
Theorem empty_input_never_returns (knotpos knotval : list num)
  (matpow : list (num * num)) :
  knotpos = [] \/ matpow = [] ->
  exists e,
    change_power_spectrum_knots np_log np_exp spline knotpos knotval matpow
    = Raise e.
Proof.
  intros H.
  destruct (change_power_spectrum_knots np_log np_exp spline knotpos knotval
              matpow) as [out|e] eqn:E; [|now exists e].
  exfalso.
  apply change_power_spectrum_knots_Ok in E
    as (kval & pval & dpk & _ & Hlen & Hm & Hv & _).
  destruct H as [-> | ->].
  - destruct knotval; [now apply Hv | discriminate].
  - now apply Hm.
Qed.

End KnotsChecks.

Lemma item_minus_1 {T : Type} (l : list T) (d : T) :
  l <> [] -> item l (-1) = Ok (last l d).
Proof.
  intros Hl. destruct (exists_last Hl) as (l' & x & ->).
  unfold item. rewrite length_app. cbn [length].
  replace (-1 <? 0)%Z with true by reflexivity.
  replace (-1 + Z.of_nat (length l' + 1))%Z with (Z.of_nat (length l'))
    by lia.
  replace ((0 <=? Z.of_nat (length l')) &&
           (Z.of_nat (length l') <? Z.of_nat (length l' + 1)))%Z with true
    by (symmetry; apply andb_true_intro; split;
        [apply Z.leb_le | apply Z.ltb_lt]; lia).
  rewrite Nat2Z.id, nth_error_app2, Nat.sub_diag by lia.
  cbn. now rewrite last_last.
Qed.

Section KnotsChecksExact.

#[local] Existing Instance exact | 0.
Variables np_log np_exp : xreal -> xreal.
Variable spline : list xreal -> list xreal -> xreal -> xreal.
Local Open Scope x_scope.



(** So a valid input whose table lies below [k = 1] is turned away. *)
Theorem table_below_one_rejected (knotpos knotval : list xreal)
  (matpow : list (xreal * xreal)) :
  valid_input knotpos knotval matpow = true ->
  knotpos <> [] ->
  (last (map fst matpow) #0 <=? #1) = true ->
  change_power_spectrum_knots np_log np_exp spline knotpos knotval matpow
  = Raise AssertionError.
Proof.
  intros Hv Hne Hmax.
  destruct (valid_input_inv _ _ _ Hv) as (Hk & Hkpos & Hp & Hlen & Hin & Hval).
  destruct knotpos as [|p0 ps]; [congruence|].
  pose proof (Forall_inv Hin) as [Hlo Hhi].
  destruct matpow as [|[k0 q0] rows].
  { exfalso. cbn in Hlo, Hhi. clear - Hlo Hhi. xr. }
  assert (Hall : np_all (p0 :: ps) = true).
  { unfold np_all. apply forallb_forall. intros p Hp'.
    rewrite Forall_forall in Hin. destruct (Hin _ Hp') as [Hp1 _].
    pose proof (Forall_inv Hkpos) as Hk0. cbn [map fst hd] in Hp1, Hk0.
    apply negb_true_iff. clear - Hp1 Hk0. xr. }
  unfold valid_input in Hv.
  repeat (apply andb_prop in Hv as [Hv ?]).
  unfold change_power_spectrum_knots.
  match goal with H : increasing (p0 :: ps) = true |- _ => rewrite H end.
  match goal with H : Nat.eqb _ _ = true |- _ => rewrite H end.
  rewrite Hall. cbn [assert bind of_bool].
  assert (E01 : (#0 <? #1) = true) by xr.
  rewrite E01. cbn [bind]. cbn [num exact].
  rewrite (item_minus_1 (map fst ((k0, q0) :: rows)) #0) by discriminate.
  assert (E0 : item (map fst ((k0, q0) :: rows)) 0 = Ok k0) by reflexivity.
  rewrite E0. cbn [bind].
  assert (E : (#1 <? last (map fst ((k0, q0) :: rows)) #0) = false).
  { clear - Hmax. set (x := last _ _) in *. clearbody x. xr. }
  cbn [num exact] in *. rewrite E, andb_false_r. reflexivity.
Qed.

End KnotsChecksExact.

Section KnotsRange.

#[local] Existing Instance exact | 0.
Variables np_log np_exp : xreal -> xreal.
Variable spline : list xreal -> list xreal -> xreal -> xreal.
Local Open Scope x_scope.

(** A point between the ends of an increasing list lies in one of its
    intervals. *)
Lemma locate (x : list xreal) (k : R) :
  inc idk x -> (2 <= length x)%nat ->
  (Fin k <? hd #0 x) = false -> (last x #0 <? Fin k) = false ->
  exists j xj xj1,
    (S j < length x)%nat /\
    nth j x #0 = Fin xj /\ nth (S j) x #0 = Fin xj1 /\
    (xj <= k <= xj1)%R /\ (xj < xj1)%R.
Proof.
  induction x as [|a x IH]; cbn [length]; [lia|].
  intros Hinc Hlen Hlo Hhi.
  destruct x as [|b x]; [cbn in Hlen; lia|].
  pose proof (inc_head idk _ _ Hinc) as [Ha Hab].
  pose proof (inc_tail idk _ _ Hinc) as Hinc'.
  pose proof (inc_head idk _ _ Hinc') as [Hb _].
  apply Forall_inv in Hab. unfold klt, kfin, idk in *.
  apply fin_inv in Ha as [ra ->]. apply fin_inv in Hb as [rb ->].
  apply ltb_Fin in Hab. cbn [hd] in Hlo. apply ltb_Fin_false in Hlo.
  destruct (Rle_dec k rb) as [Hk|Hk].
  - exists 0%nat, ra, rb. cbn [nth length]. repeat split; try lia; lra.
  - destruct x as [|c x].
    + exfalso. cbn [last] in Hhi. apply ltb_Fin_false in Hhi. lra.
    + destruct IH as (j & xj & xj1 & Hj & E1 & E2 & Hb1 & Hb2).
      * exact Hinc'.
      * cbn [length]. lia.
      * cbn [hd]. apply ltb_Fin_false. lra.
      * exact Hhi.
      * exists (S j), xj, xj1. cbn [length] in *.
        repeat split; try lia; try lra; assumption.
Qed.

Lemma chord_between (lo hi xj xj1 yj yj1 k : R) :
  (xj < xj1 -> xj <= k <= xj1 ->
   lo <= yj <= hi -> lo <= yj1 <= hi ->
   lo <= yj + (yj1 - yj) / (xj1 - xj) * (k - xj) <= hi)%R.
Proof.
  intros Hx Hk Hy Hy1.
  set (t := ((k - xj) / (xj1 - xj))%R).
  assert (Ht : (0 <= t <= 1)%R).
  { unfold t. split.
    - apply Rmult_le_pos; [lra|]. left. apply Rinv_0_lt_compat. lra.
    - apply (Rmult_le_reg_r (xj1 - xj)); [lra|].
      unfold Rdiv. rewrite Rmult_assoc, Rinv_l by lra. lra. }
  replace (yj + (yj1 - yj) / (xj1 - xj) * (k - xj))%R
    with (yj + (yj1 - yj) * t)%R by (unfold t; field; lra).
  split; nra.
Qed.

(** On a valid input that returns, the factor at a row of the augmented
    table is a point of the chord between two knot values. *)
Lemma factor_on_chord (knotpos knotval : list xreal)
  (matpow out : list (xreal * xreal)) :
  valid_input knotpos knotval matpow = true ->
  change_power_spectrum_knots np_log np_exp spline knotpos knotval matpow
    = Ok out ->
  exists kval pval,
    augment_table np_log np_exp spline knotpos
      (map fst matpow) (map snd matpow) = Ok (kval, pval) /\
    out = combine kval
            (times pval (map (knot_factor knotpos knotval matpow) kval)) /\
    length pval = length kval /\
    forall k, In k kval ->
      exists kr xj xj1 yj yj1,
        k = Fin kr /\ In (Fin yj) knotval /\ In (Fin yj1) knotval /\
        (xj < xj1)%R /\ (xj <= kr <= xj1)%R /\
        knot_factor knotpos knotval matpow k
        = Fin (yj + (yj1 - yj) / (xj1 - xj) * (kr - xj))%R.
Proof.
  intros Hv Hrun.
  destruct (run_valid _ _ _ _ _ _ _ Hv Hrun)
    as (kval & pval & Haug & Hout & Hne & Hnv & Hb).
  exists kval, pval. split; [exact Haug|]. split; [exact Hout|].
  destruct (run_rows _ _ _ _ _ _ _ Hv Hrun)
    as (imin & imax & pint & ins & _ & _ & H).
  cbv zeta in H.
  destruct H as (_ & Haug' & _ & _ & _ & Hpos & _).
  rewrite Haug in Haug'. injection Haug' as Ek Ep.
  split; [rewrite Ek, Ep, !length_map; reflexivity|].
  intros k Hk.
  assert (Hkpos : (#0 <? k) = true).
  { rewrite Ek in Hk. apply in_map_iff in Hk as (r & <- & Hr').
    apply (@in_dedup exact _ fst) in Hr'. rewrite Forall_forall in Hpos.
    exact (Hpos _ Hr'). }
  destruct (Hb k Hk) as [Hlo Hhi].
  destruct (valid_input_inv _ _ _ Hv) as (_ & _ & _ & Hlen & _ & Hkv).
  pose proof (ext_knotpos_inc _ _ _ Hv Hne) as Hinc.
  pose proof (ext_knotval_fin _ Hkv Hnv) as Hfin.
  destruct (ext_lengths knotpos knotval (hd #0 (map fst matpow))
              (last (map fst matpow) #0) (hd #0 knotval)
              (last knotval #0) Hlen) as [Hlx Hly].
  unfold knot_factor.
  set (x := ext_knotpos _ _ _) in *. set (y := ext_knotval _ _ _) in *.
  assert (Hy : forall v, In v y -> In v knotval).
  { unfold y, ext_knotval. intros v Hin.
    apply in_app_or in Hin as [[<-|[]]|Hin].
    - destruct knotval; [congruence | now left].
    - apply in_app_or in Hin as [Hin|[<-|[]]]; [exact Hin|].
      destruct (exists_last Hnv) as (l' & u & ->).
      rewrite last_last. apply in_or_app. right. now left. }
  destruct k as [kr|]; [|discriminate].
  destruct (locate x kr Hinc) as (j & xj & xj1 & Hj & E1 & E2 & Hk1 & Hk2).
  - cbn [num exact] in *. lia.
  - exact Hlo.
  - unfold x, ext_knotpos. rewrite app_assoc, last_last. exact Hhi.
  - assert (Hyj : forall i, (i < length y)%nat ->
        exists v, nth i y #0 = Fin v /\ In (Fin v) knotval).
    { intros i Hi. pose proof (nth_In y #0 Hi) as Hin.
      rewrite Forall_forall in Hfin. pose proof (Hfin _ Hin) as Hf.
      apply fin_inv in Hf as [v Ev]. exists v. split; [exact Ev|].
      rewrite <- Ev. now apply Hy. }
    cbn [num exact] in *.
    destruct (Hyj j ltac:(lia)) as (yj & Ey & Hyb).
    destruct (Hyj (S j) ltac:(lia)) as (yj1 & Ey1 & Hyb1).
    exists kr, xj, xj1, yj, yj1.
    rewrite (linear_at_piece x y j xj xj1 yj yj1 kr); auto.
    repeat split; auto; lra.
Qed.

(** No overshoot: on a valid input every returned row is a row of the
    augmented table with its [P] multiplied by a factor that is never
    below the smallest knot value nor above the largest. *)
Theorem factor_within_knot_values (knotpos knotval : list xreal)
  (matpow out : list (xreal * xreal)) (lo hi : R) :
  valid_input knotpos knotval matpow = true ->
  change_power_spectrum_knots np_log np_exp spline knotpos knotval matpow
    = Ok out ->
  Forall (fun v => (Fin lo <=? v) = true /\ (v <=? Fin hi) = true) knotval ->
  exists imin imax pint ins,
    window knotpos (map fst matpow) = Ok (imin, imax) /\
    interp1d (map np_log (slice (map fst matpow) imin imax))
             (map np_log (slice (map snd matpow) imin imax)) cubic
      = Ok pint /\
    let new_rows :=
      map (fun k => (k, np_exp (spline (i_x pint) (i_y pint) (np_log k))))
          ins in
    let rows := dedup fst (merge_in fst matpow new_rows) in
    out = map (fun r => (fst r,
                         snd r * knot_factor knotpos knotval matpow (fst r)))
              rows /\
    forall r, In r rows ->
      (Fin lo <=? knot_factor knotpos knotval matpow (fst r)) = true /\
      (knot_factor knotpos knotval matpow (fst r) <=? Fin hi) = true.
Proof.
  intros Hv Hrun Hr.
  destruct (factor_on_chord _ _ _ _ Hv Hrun)
    as (kval & pval & Haug & _ & _ & Hc).
  destruct (run_rows _ _ _ _ _ _ _ Hv Hrun)
    as (imin & imax & pint & ins & Hw & Hpint & H).
  cbv zeta in H. destruct H as (_ & Haug' & Hout & _).
  exists imin, imax, pint, ins. cbv zeta.
  split; [exact Hw|]. split; [exact Hpint|]. split; [exact Hout|].
  rewrite Haug in Haug'. injection Haug' as Ek _.
  intros r Hin.
  assert (Hk : In (fst r) kval) by (rewrite Ek; now apply in_map).
  destruct (Hc _ Hk)
    as (kr & xj & xj1 & yj & yj1 & Er & Hy & Hy1 & Hx & Hkr & Ef).
  rewrite Ef.
  rewrite Forall_forall in Hr.
  destruct (Hr _ Hy) as [A1 A2]. destruct (Hr _ Hy1) as [B1 B2].
  apply leb_Fin in A1, A2, B1, B2.
  pose proof (chord_between lo hi xj xj1 yj yj1 kr Hx Hkr
                (conj A1 A2) (conj B1 B2)).
  split; apply leb_Fin; lra.
Qed.

End KnotsRange.

Section KnotsPositive.

#[local] Existing Instance exact | 0.
Variable spline : list xreal -> list xreal -> xreal -> xreal.
Local Open Scope x_scope.


End KnotsPositive.

Section KnotsAdditive.

#[local] Existing Instance exact | 0.
Variables np_log np_exp : xreal -> xreal.
Variable spline : list xreal -> list xreal -> xreal -> xreal.
Local Open Scope x_scope.

















End KnotsAdditive.

(* ================================================================== *)
(** ** get_neutrino_masses: what the returned masses satisfy *)

Section NeutrinoMasses.

#[local] Existing Instance exact | 0.
Local Open Scope x_scope.

(** Above the threshold the call is the tail of the function. *)
Lemma above_threshold (total_mass : xreal) (hierarchy : string) :
  hierarchy = "normal"%string \/ hierarchy = "inverted"%string ->
  (total_mass <? (if String.eqb hierarchy "normal"
                  then normal_threshold else inverted_threshold)) = false ->
  get_neutrino_masses total_mass hierarchy
  = split_masses total_mass
      (if String.eqb hierarchy "normal" then nu_M32n else - nu_M32i).
Proof.
  intros [-> | ->] H; unfold get_neutrino_masses;
    cbn [String.eqb Ascii.eqb Bool.eqb] in *; now rewrite H.
Qed.

(** What [split_masses] returns: [DD] is finite and not zero, and the
    three masses are those of the formula and not negative. *)
Lemma split_masses_Ok (total_mass nu_M32 : xreal) (out : list xreal) :
  split_masses total_mass nu_M32 = Ok out ->
  exists t d : R,
    total_mass = Fin t /\ DD total_mass nu_M32 = Fin d /\ d <> 0%R /\
    out = [Fin (t - d);
           Fin (Q2R 0.5 * (d + Q2R 7.53e-5 / d));
           Fin (Q2R 0.5 * (d - Q2R 7.53e-5 / d))] /\
    (0 <= t - d)%R /\
    (0 <= Q2R 0.5 * (d + Q2R 7.53e-5 / d))%R /\
    (0 <= Q2R 0.5 * (d - Q2R 7.53e-5 / d))%R.
Proof.
  unfold split_masses, nu_masses.
  generalize (DD1 total_mass nu_M32) (DD total_mass nu_M32).
  intros dd1 dd H.
  apply bind_Ok in H as (u1 & H1 & H). apply assert_Ok in H1.
  apply bind_Ok in H as (u2 & _ & H).
  apply bind_Ok in H as (u3 & H3 & H). apply assert_Ok in H3.
  injection H as <-.
  cbn [forallb] in H3.
  apply andb_prop in H3 as [Ha H3]. apply andb_prop in H3 as [Hb H3].
  apply andb_prop in H3 as [Hc _].
  destruct dd as [d|]; [|discriminate].
  destruct total_mass as [t|]; [|discriminate].
  unfold nu_M21 in *. cbn in Ha, Hb, Hc |- *.
  destruct (Req_dec_T d 0) as [E|Hd]; [discriminate|].
  cbn in Ha, Hb, Hc |- *.
  exists t, d. repeat split; auto;
    match goal with
    | H : (if Rle_dec ?a ?b then _ else _) = true |- _ =>
        destruct (Rle_dec a b) as [Hle|]; [|discriminate];
        revert Hle; q2r; intros Hle; q2r; lra
    end.
Qed.

(** The solar splitting holds exactly: above the threshold, the second
    and third returned masses differ in their squares by [nu_M21]. *)
Theorem solar_splitting_exact (total_mass : xreal) (hierarchy : string)
  (m1 m2 m3 : xreal) :
  hierarchy = "normal"%string \/ hierarchy = "inverted"%string ->
  (total_mass <? (if String.eqb hierarchy "normal"
                  then normal_threshold else inverted_threshold)) = false ->
  get_neutrino_masses total_mass hierarchy = Ok [m1; m2; m3] ->
  m2 * m2 - m3 * m3 = nu_M21 /\ (m3 <=? m2) = true.
Proof.
  intros Hh Ht H. rewrite (above_threshold _ _ Hh Ht) in H.
  apply split_masses_Ok in H
    as (t & d & _ & _ & Hd & E & _ & H2 & H3).
  injection E as -> -> ->. unfold nu_M21. cbn. split.
  - f_equal. q2r. field. exact Hd.
  - destruct (Rle_dec _ _) as [_|Hn]; [reflexivity|]. exfalso. apply Hn.
    revert H2 H3. q2r. intros H2 H3.
    assert (Hd0 : (0 < d)%R) by lra.
    assert (Hq : (0 < 753 * / 100 * / 100000 / d)%R).
    { apply Rdiv_lt_0_compat; lra. }
    lra.
Qed.

Lemma thresholds_positive :
  exists n i : R,
    normal_threshold = Fin n /\ inverted_threshold = Fin i /\
    (0.05807 <= n <= 0.05808)%R /\ (0.0915 <= i <= 0.0916)%R.
Proof.
  unfold normal_threshold, inverted_threshold, nu_M32n, nu_M32i, nu_M21.
  cbn. repeat decide_R. cbn.
  do 2 eexists. split; [reflexivity|]. split; [reflexivity|].
  pose proof (sqrt_between (Q2R (2.44 / 1000)) 0.049396 0.0494) as Ha.
  pose proof (sqrt_between (Q2R (7.53 / 100000)) 0.008677 0.00868) as Hb.
  pose proof (sqrt_between (Q2R (2.51 / 1000)) 0.050099 0.0501) as Hc.
  set (sa := R_sqrt.sqrt (Q2R (2.44 / 1000))) in *.
  set (sb := R_sqrt.sqrt (Q2R (7.53 / 100000))) in *.
  set (sc := R_sqrt.sqrt (Q2R (2.51 / 1000))) in *.
  revert Ha Hb Hc. q2r. intros. lra.
Qed.

(** No branch looks at the sign of [total_mass]: a negative total mass is
    below both thresholds and comes back as it is, or halved, or in
    thirds. *)
Theorem negative_total_mass_returned (t : R) :
  (t < 0)%R ->
  get_neutrino_masses (Fin t) "normal" = Ok [Fin t; #0; #0] /\
  get_neutrino_masses (Fin t) "inverted"
  = Ok [Fin (t / 2); Fin (t / 2); #0] /\
  get_neutrino_masses (Fin t) "degenerate"
  = Ok [Fin (t / 3); Fin (t / 3); Fin (t / 3)].
Proof.
  intros Ht.
  destruct thresholds_positive as (n & i & En & Ei & Hn & Hi).
  unfold get_neutrino_masses. cbn [String.eqb Ascii.eqb Bool.eqb].
  rewrite En, Ei.
  assert (E1 : (Fin t <? Fin n) = true) by (apply ltb_Fin; lra).
  assert (E2 : (Fin t <? Fin i) = true) by (apply ltb_Fin; lra).
  rewrite E1, E2. split; [reflexivity|]. split.
  - cbn. repeat decide_R. cbn. repeat f_equal; q2r; lra.
  - cbn. repeat decide_R. cbn. repeat f_equal; q2r; field.
Qed.

(** For a total mass that is not negative, no returned mass is
    negative, whatever the hierarchy. *)
Theorem returned_masses_not_negative (total_mass : xreal)
  (hierarchy : string) (out : list xreal) :
  (#0 <=? total_mass) = true ->
  get_neutrino_masses total_mass hierarchy = Ok out ->
  Forall (fun m => (#0 <=? m) = true) out.
Proof.
  intros Ht H. unfold get_neutrino_masses in H.
  assert (Hmain : forall m32, split_masses total_mass m32 = Ok out ->
            Forall (fun m => (#0 <=? m) = true) out).
  { intros m32 Hs. apply split_masses_Ok in Hs
      as (t & d & _ & _ & _ & -> & H1 & H2 & H3).
    repeat constructor; apply leb_Fin; q2r; lra. }
  destruct total_mass as [t|]; [|discriminate].
  apply leb_Fin in Ht. revert Ht. q2r. intros Ht.
  destruct (String.eqb hierarchy "normal").
  - destruct (Fin t <? normal_threshold); [|now apply Hmain in H].
    injection H as <-. repeat constructor; apply leb_Fin; q2r; lra.
  - destruct (String.eqb hierarchy "inverted").
    + destruct (Fin t <? inverted_threshold); [|now apply Hmain in H].
      injection H as <-. cbn. repeat decide_R. cbn.
      repeat constructor; apply leb_Fin; q2r; lra.
    + injection H as <-. cbn. repeat decide_R. cbn.
      repeat constructor; apply leb_Fin; q2r; lra.
Qed.

End NeutrinoMasses.

Section NeutrinoRange.

#[local] Existing Instance exact | 0.
Local Open Scope x_scope.

(** [DD1] and [DD] as real numbers, the square roots named. *)
Lemma DD1_real (t m : R) :
  (0 <= t * t + (3 * m + 1.5 * Q2R 7.53e-5))%R ->
  exists s1 : R,
    (0 <= s1)%R /\ (s1 * s1 = t * t + (3 * m + 1.5 * Q2R 7.53e-5))%R /\
    DD1 (Fin t) (Fin m) = Fin ((4 * t - 2 * s1) / 3)%R.
Proof.
  intros HA. unfold DD1, sq, nu_M21. cbn. repeat decide_R. cbn.
  match goal with |- context [R_sqrt.sqrt ?a] =>
    exists (R_sqrt.sqrt a); split; [apply sqrt_pos|]; split;
      [rewrite sqrt_sqrt; revert HA; q2r; intros; lra|]
  end.
  f_equal. q2r. field.
Qed.

Lemma DD_real (t m d1 : R) :
  (0 <= t * t + (3 * m + 1.5 * Q2R 7.53e-5))%R ->
  DD1 (Fin t) (Fin m) = Fin d1 -> d1 <> 0%R ->
  exists e s2 : R,
    (0 <= e)%R /\
    (e * (d1 * d1) = 0.75 * (Q2R 7.53e-5 * Q2R 7.53e-5))%R /\
    (0 <= s2)%R /\
    (s2 * s2 = t * t + (3 * m + 1.5 * Q2R 7.53e-5) + e)%R /\
    DD (Fin t) (Fin m) = Fin ((4 * t - 2 * s2) / 3)%R.
Proof.
  intros HA E1 Hd. unfold DD. rewrite E1. unfold sq, nu_M21. cbn.
  repeat decide_R.
  destruct (Req_dec_T (d1 * d1) 0) as [E|_]; [exfalso; nra|].
  match goal with |- context [(?c / (d1 * d1))%R] =>
    set (e := (c / (d1 * d1))%R);
    assert (He : (e * (d1 * d1) = c)%R) by (unfold e; field; nra)
  end.
  assert (Hq : (0 < d1 * d1)%R) by nra.
  assert (He0 : (0 <= e)%R).
  { revert He. q2r. intros He. nra. }
  clearbody e. cbn.
  match goal with |- context [Rlt_dec ?a 0] =>
    destruct (Rlt_dec a 0) as [Hneg|_];
      [exfalso; revert Hneg HA; q2r; intros; lra|]
  end.
  cbn.
  match goal with |- context [R_sqrt.sqrt ?a] =>
    exists e, (R_sqrt.sqrt a); split; [exact He0|]; split;
      [revert He; q2r; intros; lra|]; split; [apply sqrt_pos|]; split;
      [rewrite sqrt_sqrt; revert HA; q2r; intros; lra|]
  end.
  f_equal. q2r. field.
Qed.

(** The three assertions, once [DD1] and [DD] are known. *)
Lemma split_masses_real (t m d1 d : R) :
  DD1 (Fin t) (Fin m) = Fin d1 -> DD (Fin t) (Fin m) = Fin d ->
  (0 < d)%R ->
  ((-0.02 < d1 / d - 1 < 0.02)%R -> (d <= t)%R ->
   (Q2R 7.53e-5 <= d * d)%R ->
   exists m1 m2 m3 : R,
     split_masses (Fin t) (Fin m) = Ok [Fin m1; Fin m2; Fin m3]) /\
  ((t < d)%R \/ (d * d < Q2R 7.53e-5)%R ->
   split_masses (Fin t) (Fin m) = Raise AssertionError).
Proof.
  intros E1 E Hd. unfold split_masses, nu_masses. rewrite E1, E.
  unfold nu_M21. cbn.
  destruct (Req_dec_T d 0) as [Hz|_]; [exfalso; lra|].
  set (r := (d1 / d)%R).
  match goal with |- context [(?c / d)%R] =>
    set (q := (c / d)%R);
    assert (Hq : (q * d = c)%R) by (unfold q; field; lra)
  end.
  revert Hq. q2r. intros Hq.
  assert (Hq0 : (0 <= q)%R) by nra.
  clearbody r q. cbn. split.
  - intros Hr Ht Hdd. revert Hdd. q2r. intros Hdd.
    destruct (Rlt_dec (Rabs _) _) as [_|Hn];
      [|exfalso; apply Hn; apply Rabs_def1; q2r; lra].
    assert (Hqd : (q <= d)%R) by nra.
    repeat decide_R. cbn. do 3 eexists. reflexivity.
  - intros Ht.
    destruct (Rlt_dec (Rabs _) _) as [_|_]; [|reflexivity].
    cbn. destruct Ht as [Ht|Ht].
    + repeat decide_R. reflexivity.
    + revert Ht. q2r. intros Ht.
      assert (Hqd : (d < q)%R) by nra.
      destruct (Rle_dec (Q2R 0) (t - d)); cbn;
        repeat decide_R; reflexivity.
Qed.

End NeutrinoRange.

Section NeutrinoTotal.

#[local] Existing Instance exact | 0.
Local Open Scope x_scope.

Lemma split_masses_from_0_1 (t m : R) :
  (0.1 <= t)%R -> (- 0.00251 <= m <= 0.00244)%R ->
  exists m1 m2 m3 : R,
    split_masses (Fin t) (Fin m) = Ok [Fin m1; Fin m2; Fin m3].
Proof.
  intros Ht Hm.
  assert (HA : (0 <= t * t + (3 * m + 1.5 * Q2R 7.53e-5))%R)
    by (q2r; nra).
  destruct (DD1_real t m HA) as (s1 & Hs1 & Es1 & E1).
  revert Es1 HA. q2r. intros Es1 HA.
  assert (Hs1u : (s1 <= t + 0.04)%R) by nra.
  assert (Hs1l : (0.047 <= s1)%R) by nra.
  set (d1 := ((4 * t - 2 * s1) / 3)%R) in *.
  assert (Hd1 : (0.04 <= d1)%R) by (unfold d1; lra).
  assert (HA' : (0 <= t * t + (3 * m + 1.5 * Q2R 7.53e-5))%R)
    by (q2r; lra).
  destruct (DD_real t m d1 HA' E1 ltac:(lra))
    as (e & s2 & He0 & He & Hs2 & Es2 & E).
  revert He Es2. q2r. intros He Es2.
  assert (Heu : (e <= 1 / 100000)%R) by nra.
  assert (Hs2u : (s2 <= t + 0.04)%R) by nra.
  assert (Hs21 : (s1 <= s2)%R) by nra.
  assert (Hdiff : (s2 - s1 <= 0.0002)%R) by nra.
  set (d := ((4 * t - 2 * s2) / 3)%R) in *.
  assert (Hd : (0.04 <= d)%R) by (unfold d; lra).
  destruct (split_masses_real t m d1 d E1 E ltac:(lra)) as [Hok _].
  apply Hok.
  - assert (Hr : (d1 / d - 1 = (d1 - d) / d)%R) by (field; lra).
    rewrite Hr.
    assert (H0 : (0 <= d1 - d <= 0.0002)%R) by (unfold d1, d; lra).
    set (x := ((d1 - d) / d)%R).
    assert (Hx : (x * d = d1 - d)%R) by (unfold x; field; lra).
    clearbody x. split; nra.
  - unfold d. assert (H2 : (t <= 2 * s2)%R) by nra. lra.
  - q2r. nra.
Qed.

(** From a total mass of 0.1 eV on, both hierarchies are served: the
    thresholds lie below, and the three assertions hold. *)
Theorem total_mass_from_0_1_is_split (total_mass : xreal)
  (hierarchy : string) :
  hierarchy = "normal"%string \/ hierarchy = "inverted"%string ->
  (#0.1 <=? total_mass) = true ->
  exists m1 m2 m3 : xreal,
    get_neutrino_masses total_mass hierarchy = Ok [m1; m2; m3].
Proof.
  intros Hh Ht.
  destruct total_mass as [t|]; [|discriminate].
  apply leb_Fin in Ht. revert Ht. q2r. intros Ht.
  destruct thresholds_positive as (n & i & En & Ei & Hn & Hi).
  rewrite (above_threshold (Fin t) hierarchy Hh).
  - destruct Hh as [-> | ->]; cbn [String.eqb Ascii.eqb Bool.eqb].
    + destruct (split_masses_from_0_1 t (Q2R 2.44e-3))
        as (m1 & m2 & m3 & E); [lra | q2r; lra |].
      exists (Fin m1), (Fin m2), (Fin m3). exact E.
    + destruct (split_masses_from_0_1 t (- Q2R 2.51e-3))
        as (m1 & m2 & m3 & E); [lra | q2r; lra |].
      exists (Fin m1), (Fin m2), (Fin m3). exact E.
  - destruct Hh as [-> | ->]; cbn [String.eqb Ascii.eqb Bool.eqb];
      rewrite ?En, ?Ei; apply ltb_Fin_false; lra.
Qed.

End NeutrinoTotal.

Section NeutrinoGap.

#[local] Existing Instance exact | 0.
Local Open Scope x_scope.

(** Just above its threshold the inverted hierarchy is never served: up
    to a total mass of 0.099 eV the first mass, [total_mass - DD], is
    negative, and an assertion fails. *)
Theorem inverted_gap_above_threshold (total_mass : xreal) :
  (total_mass <? inverted_threshold) = false ->
  (total_mass <=? #0.099) = true ->
  get_neutrino_masses total_mass "inverted" = Raise AssertionError.
Proof.
  intros Hthr Hmax.
  destruct total_mass as [t|]; [|discriminate].
  apply leb_Fin in Hmax. revert Hmax. q2r. intros Hmax.
  destruct thresholds_positive as (n & i & _ & Ei & _ & Hi).
  rewrite (above_threshold (Fin t) "inverted" (or_intror eq_refl) Hthr).
  cbn [String.eqb Ascii.eqb Bool.eqb].
  rewrite Ei in Hthr. apply ltb_Fin_false in Hthr.
  change (- nu_M32i) with (Fin (- Q2R 2.51e-3)).
  assert (HA : (0 <= t * t + (3 * - Q2R 2.51e-3 + 1.5 * Q2R 7.53e-5))%R)
    by (q2r; nra).
  destruct (DD1_real t _ HA) as (s1 & Hs1 & Es1 & E1).
  revert Es1. q2r. intros Es1.
  assert (Hs1u : (s1 <= 0.049)%R) by nra.
  set (d1 := ((4 * t - 2 * s1) / 3)%R) in *.
  assert (Hd1 : (0.08 <= d1)%R) by (unfold d1; lra).
  destruct (DD_real t _ d1 HA E1 ltac:(lra))
    as (e & s2 & He0 & He & Hs2 & Es2 & E).
  revert He Es2. q2r. intros He Es2.
  assert (Heu : (e <= 1 / 1000000)%R) by nra.
  assert (Hs2u : (s2 <= 0.049)%R) by nra.
  set (d := ((4 * t - 2 * s2) / 3)%R) in *.
  assert (Hd : (0.08 <= d)%R) by (unfold d; lra).
  destruct (split_masses_real t _ d1 d E1 E ltac:(lra)) as [_ Hbad].
  apply Hbad. left. unfold d.
  assert (H2 : (2 * s2 < t)%R) by nra. lra.
Qed.

(** The same for the normal hierarchy, up to 0.0584 eV: there the third
    mass, [0.5*(DD - nu_M21/DD)], is negative. *)
Theorem normal_gap_above_threshold (total_mass : xreal) :
  (total_mass <? normal_threshold) = false ->
  (total_mass <=? #0.0584) = true ->
  get_neutrino_masses total_mass "normal" = Raise AssertionError.
Proof.
  intros Hthr Hmax.
  destruct total_mass as [t|]; [|discriminate].
  apply leb_Fin in Hmax. revert Hmax. q2r. intros Hmax.
  destruct thresholds_positive as (n & i & En & _ & Hn & _).
  rewrite (above_threshold (Fin t) "normal" (or_introl eq_refl) Hthr).
  cbn [String.eqb Ascii.eqb Bool.eqb].
  rewrite En in Hthr. apply ltb_Fin_false in Hthr.
  change nu_M32n with (Fin (Q2R 2.44e-3)).
  assert (HA : (0 <= t * t + (3 * Q2R 2.44e-3 + 1.5 * Q2R 7.53e-5))%R)
    by (q2r; nra).
  destruct (DD1_real t _ HA) as (s1 & Hs1 & Es1 & E1).
  revert Es1. q2r. intros Es1.
  assert (Hs1u : (s1 <= 0.1042)%R) by nra.
  assert (Hs1l : (2 * t - 0.0129 <= s1)%R) by nra.
  set (d1 := ((4 * t - 2 * s1) / 3)%R) in *.
  assert (Hd1 : (0.0065 <= d1 <= 0.0086)%R) by (unfold d1; lra).
  destruct (DD_real t _ d1 HA E1 ltac:(lra))
    as (e & s2 & He0 & He & Hs2 & Es2 & E).
  revert He Es2. q2r. intros He Es2.
  assert (Heu : (e <= 0.000102)%R) by nra.
  assert (Hs2u : (s2 <= 0.10463)%R) by nra.
  assert (Hs21 : (s1 <= s2)%R) by nra.
  set (d := ((4 * t - 2 * s2) / 3)%R) in *.
  assert (Hd : (0.006 <= d <= 0.0086)%R) by (unfold d, d1 in *; lra).
  destruct (split_masses_real t _ d1 d E1 E ltac:(lra)) as [_ Hbad].
  apply Hbad. right. q2r. nra.
Qed.

End NeutrinoGap.

(* ================================================================== *)
(** ** The constructors, generate_times and cambfile *)

Lemma and_then_Done {T U : Type} (r : outcome T) (k : T -> outcome U)
  (u : U) :
  and_then r k = Done u -> exists v, r = Done v /\ k v = Done u.
Proof. destruct r as [v|e]; cbn; intros H; [eauto | discriminate]. Qed.

Lemma check_Done (b : bool) (u : unit) : check b = Done u -> b = true.
Proof. destruct b; cbn; [reflexivity | discriminate]. Qed.

Section Constructors.

Context {A : Arith}.
Variable make_outdir : SimulationICs.attributes -> outcome unit.
Local Open Scope num_scope.

(** A [uvb] other than "hm", "fg" and "sh" stops [SimulationICs.__init__]
    at one of its assertions, before the file system is touched. *)
Lemma uvb_checked (a : SimulationICs.attributes) :
  (String.eqb (SimulationICs.uvb a) "hm"
   || String.eqb (SimulationICs.uvb a) "fg"
   || String.eqb (SimulationICs.uvb a) "sh") = false ->
  SimulationICs.__init__ make_outdir a = Fail (Exn AssertionError).
Proof.
  intros H. unfold SimulationICs.__init__. rewrite H.
  repeat match goal with
    | |- and_then (check ?b) _ = _ => destruct b; cbn [check and_then]
    end; reflexivity.
Qed.

(** The three Lyman-alpha classes cannot be built with their own default
    [uvb]: "pu" and "on" are not among the values the base class
    accepts, so the constructor raises AssertionError whatever the other
    arguments are, and before it creates the output directory. *)
Theorem default_uvb_refused
  (knot_pos knot_val : option (list num)) (alpha beta gamma : num)
  (rescale_gamma : option bool)
  (rescale_amp rescale_slope redend : option num)
  (kwargs : SimulationICs.attributes) :
  LymanAlphaSim.__init__ make_outdir
    rescale_gamma rescale_amp rescale_slope redend None kwargs
  = Fail (Exn AssertionError) /\
  LymanAlphaNCDMSim.__init__ make_outdir alpha beta gamma
    rescale_gamma rescale_amp rescale_slope redend None kwargs
  = Fail (Exn AssertionError) /\
  LymanAlphaKnotICs.__init__ make_outdir knot_pos knot_val
    rescale_gamma rescale_amp rescale_slope redend None kwargs
  = Fail (Exn AssertionError).
Proof.
  unfold LymanAlphaKnotICs.__init__, LymanAlphaNCDMSim.__init__,
    LymanAlphaSim.__init__.
  repeat split; rewrite uvb_checked; reflexivity.
Qed.

(** A Lyman-alpha simulation that was built had its [uvb] given, one of
    "hm", "fg" and "sh", and has gas particles. *)
Theorem built_lyman_alpha_sim
  (rescale_gamma : option bool)
  (rescale_amp rescale_slope redend : option num) (uvb : option string)
  (kwargs : SimulationICs.attributes) :
  LymanAlphaSim.__init__ make_outdir
    rescale_gamma rescale_amp rescale_slope redend uvb kwargs = Done tt ->
  (uvb = Some "hm"%string \/ uvb = Some "fg"%string
   \/ uvb = Some "sh"%string) /\
  SimulationICs.separate_gas kwargs = true.
Proof.
  unfold LymanAlphaSim.__init__. intros H.
  apply and_then_Done in H as (u & H1 & H).
  apply and_then_Done in H as (u' & H2 & _). apply check_Done in H2.
  split; [|exact H2].
  destruct (String.eqb (or_default uvb "pu") "hm"
            || String.eqb (or_default uvb "pu") "fg"
            || String.eqb (or_default uvb "pu") "sh")%string eqn:E.
  - destruct uvb as [u0|]; [|discriminate]. cbn [or_default] in E.
    apply orb_prop in E as [E|E]; [apply orb_prop in E as [E|E]|];
      apply String.eqb_eq in E; subst; auto.
  - rewrite uvb_checked in H1; [discriminate | exact E].
Qed.

End Constructors.

Section Cambfile.

Context {A : Arith}.
Variable load_precision : outcome dict.
Variable render : string -> list value -> string.
Local Open Scope num_scope.

Lemma get_neutrino_masses_three (total_mass : num) (hierarchy : string)
  (out : list num) :
  get_neutrino_masses total_mass hierarchy = Ok out ->
  exists m1 m2 m3, out = [m1; m2; m3].
Proof.
  unfold get_neutrino_masses, split_masses, nu_masses. intros H.
  repeat match type of H with
    | (if ?b then _ else _) = _ => destruct b
    | bind (assert ?b) _ = _ => destruct b; cbn [assert bind] in H
    end;
    try discriminate; injection H as <-; eauto.
Qed.

(** With a positive [m_nu], [cambfile] never gets to CLASS. The masses
    are formatted by ['%.2f,%.2f,%.2f' % mnu1, mnu2, mnu3], where [%]
    binds tighter than the commas: three conversions for the one value
    [mnu1], a TypeError. Whatever the rest of the method would do, the
    call raises; it raises TypeError when the precision file loads,
    [omeganu] is computed and the masses are split. *)
Theorem massive_neutrinos_stop_cambfile
  (run_class : SimulationICs.attributes -> dict -> dict -> outcome string)
  (self : SimulationICs.attributes) :
  (#0 <? SimulationICs.m_nu self) = true ->
  (exists e,
     SimulationICs.cambfile load_precision render run_class self = Fail e) /\
  (forall pre omega out,
     load_precision = Done pre ->
     SimulationICs.omeganu self = Done omega ->
     get_neutrino_masses (SimulationICs.m_nu self)
       (SimulationICs.nu_hierarchy self) = Ok out ->
     SimulationICs.cambfile load_precision render run_class self
     = Fail TypeError).
Proof.
  intros Hm. unfold SimulationICs.cambfile.
  assert (Hfmt : forall (x : num),
            percent render "%.2f,%.2f,%.2f" [VNum x] = Fail TypeError)
    by reflexivity.
  split.
  - destruct load_precision as [pre|e]; [|now exists e].
    cbn [and_then].
    destruct (SimulationICs.omeganu self) as [omega|e]; [|now exists e].
    cbn [and_then].
    destruct (get_neutrino_masses _ _) as [out|e] eqn:E;
      [|now exists (Exn e)].
    apply get_neutrino_masses_three in E as (m1 & m2 & m3 & ->).
    cbn [lift and_then]. rewrite Hm, Hfmt. now exists TypeError.
  - intros pre omega out -> -> E.
    pose proof (get_neutrino_masses_three _ _ _ E) as (m1 & m2 & m3 & ->).
    rewrite E. cbn [lift and_then]. rewrite Hm, Hfmt. reflexivity.
Qed.

End Cambfile.

Section Times.

#[local] Existing Instance exact | 0.
Local Open Scope x_scope.

Lemma py_div_one (x : R) :
  (-1 < x)%R ->
  py_div #1 (#1 + Fin x) = Done (Fin (1 / (1 + x))) /\
  (0 < 1 / (1 + x))%R.
Proof.
  intros Hx. unfold py_div. cbn.
  repeat match goal with
    | |- context [Req_dec_T ?a ?b] =>
        destruct (Req_dec_T a b) as [E|_]; [exfalso; revert E; q2r; lra|];
        cbn
    end.
  split.
  - do 2 f_equal. q2r. field. lra.
  - apply Rdiv_lt_0_compat; lra.
Qed.



(** A last redshift that is not below the first one leaves no time to
    output: the assertion fails. *)
Theorem generate_times_empty_window (self : SimulationICs.attributes)
  (z e : R) :
  SimulationICs.redshift self = Fin z -> SimulationICs.redend self = Fin e ->
  (-1 < z <= e)%R ->
  SimulationICs.generate_times self = Fail (Exn AssertionError).
Proof.
  intros Ez Ee Hz. unfold SimulationICs.generate_times.
  rewrite Ez, Ee.
  destruct (py_div_one z) as [-> Hs]; [lra|].
  destruct (py_div_one e) as [-> He]; [lra|].
  cbn [and_then].
  assert (Hle : (1 / (1 + e) <= 1 / (1 + z))%R).
  { unfold Rdiv. rewrite !Rmult_1_l. apply Rinv_le_contravar; lra. }
  assert (Es : filter (fun t => (Fin (1 / (1 + z)) <? t)
                                && (t <? Fin (1 / (1 + e))))
                 SimulationICs.times = []).
  { induction (SimulationICs.times (A := exact)) as [|t l IH];
      [reflexivity|].
    cbn [filter]. destruct t as [t|]; [|cbn; exact IH].
    destruct (Fin (1 / (1 + z)) <? Fin t) eqn:E1;
      destruct (Fin t <? Fin (1 / (1 + e))) eqn:E2; cbn [andb];
      try exact IH.
    exfalso. apply ltb_Fin in E1, E2. lra. }
  cbn [num exact] in *. rewrite Es. reflexivity.
Qed.


End Times.

(* ================================================================== *)
(** ** The further theorems at concrete inputs *)

Local Open Scope x_scope.

(** The spec's example of a rejected call: knots (0.5, 0.2). *)
Lemma unordered_knots_rejected_witness :
  change_power_spectrum_knots (A := binary64)
    (fun x => x) (fun x => x) (fun _ _ x => x)
    [0.5; 0.2]%float [1; 1]%float [(0.1, 1); (2, 1)]%float
  = Raise AssertionError.
Proof.
  apply (unordered_knots_rejected (A := binary64)).
  left. vm_compute. reflexivity.
Defined.

Lemma empty_input_never_returns_witness :
  exists e,
    change_power_spectrum_knots X.log X.exp power_law_spline
      [] [] table_A = Raise e.
Proof.
  apply (empty_input_never_returns (A := exact)).
  left. reflexivity.
Defined.


Lemma valid_L : valid_input [#0.35] [#2] table_L = true.
Proof. unfold table_L. xrun. reflexivity. Qed.

Lemma table_below_one_rejected_witness :
  valid_input [#0.35] [#2] table_L = true /\
  change_power_spectrum_knots X.log X.exp power_law_spline
    [#0.35] [#2] table_L = Raise AssertionError.
Proof.
  split; [apply valid_L|].
  apply (table_below_one_rejected X.log X.exp power_law_spline).
  - apply valid_L.
  - discriminate.
  - cbn. apply leb_Fin. q2r. lra.
Defined.

Lemma factor_within_knot_values_witness :
  exists rows,
    out_A power_law_spline
    = map (fun r => (fst r,
                     snd r * knot_factor [#1; #4] [#1; #3] table_A (fst r)))
          rows /\
    forall r, In r rows ->
      (Fin 1 <=? knot_factor [#1; #4] [#1; #3] table_A (fst r)) = true /\
      (knot_factor [#1; #4] [#1; #3] table_A (fst r) <=? Fin 3) = true.
Proof.
  destruct (factor_within_knot_values X.log X.exp power_law_spline
              [#1; #4] [#1; #3] table_A (out_A power_law_spline) 1 3
              valid_A (run_A power_law_spline))
    as (imin & imax & pint & ins & _ & _ & H).
  - repeat constructor; apply leb_Fin; q2r; lra.
  - cbv zeta in H. eexists. exact H.
Defined.



Lemma solar_splitting_exact_witness :
  exists m1 m2 m3 : xreal,
    get_neutrino_masses #1 "normal" = Ok [m1; m2; m3] /\
    m2 * m2 - m3 * m3 = nu_M21 /\ (m3 <=? m2) = true.
Proof.
  destruct normal_at_1 as (Hth & m1 & m2 & m3 & E & _).
  exists (Fin m1), (Fin m2), (Fin m3). split; [exact E|].
  apply (solar_splitting_exact #1 "normal" (Fin m1) (Fin m2) (Fin m3)).
  - left. reflexivity.
  - exact Hth.
  - exact E.
Defined.

Lemma negative_total_mass_returned_witness :
  get_neutrino_masses (Fin (-1)) "normal" = Ok [Fin (-1); #0; #0] /\
  get_neutrino_masses (Fin (-1)) "inverted"
  = Ok [Fin (-1 / 2); Fin (-1 / 2); #0] /\
  get_neutrino_masses (Fin (-1)) "degenerate"
  = Ok [Fin (-1 / 3); Fin (-1 / 3); Fin (-1 / 3)].
Proof.
  apply (negative_total_mass_returned (-1)). lra.
Defined.

Lemma returned_masses_not_negative_witness :
  exists out,
    get_neutrino_masses #1 "normal" = Ok out /\
    Forall (fun m => (#0 <=? m) = true) out.
Proof.
  destruct normal_at_1 as (_ & m1 & m2 & m3 & E & _).
  exists [Fin m1; Fin m2; Fin m3]. split; [exact E|].
  apply (returned_masses_not_negative #1 "normal").
  - apply leb_Fin. q2r. lra.
  - exact E.
Defined.

Lemma total_mass_from_0_1_is_split_witness :
  exists m1 m2 m3 : xreal,
    get_neutrino_masses #0.1 "inverted" = Ok [m1; m2; m3].
Proof.
  apply (total_mass_from_0_1_is_split #0.1 "inverted").
  - right. reflexivity.
  - apply leb_Fin. q2r. lra.
Defined.

Lemma inverted_gap_above_threshold_witness :
  (#0.095 <? inverted_threshold) = false /\
  get_neutrino_masses #0.095 "inverted" = Raise AssertionError.
Proof.
  assert (H : (#0.095 <? inverted_threshold) = false).
  { destruct thresholds_positive as (n & i & _ & -> & _ & Hi).
    apply ltb_Fin_false. q2r. lra. }
  split; [exact H|].
  apply (inverted_gap_above_threshold #0.095).
  - exact H.
  - apply leb_Fin. q2r. lra.
Defined.

Lemma normal_gap_above_threshold_witness :
  (#0.0583 <? normal_threshold) = false /\
  get_neutrino_masses #0.0583 "normal" = Raise AssertionError.
Proof.
  assert (H : (#0.0583 <? normal_threshold) = false).
  { destruct thresholds_positive as (n & i & -> & _ & Hn & _).
    apply ltb_Fin_false. q2r. lra. }
  split; [exact H|].
  apply (normal_gap_above_threshold #0.0583).
  - exact H.
  - apply leb_Fin. q2r. lra.
Defined.



Lemma generate_times_empty_window_witness :
  SimulationICs.generate_times (A := exact) (example_sim #2 #3 #0)
  = Fail (Exn AssertionError).
Proof.
  apply (generate_times_empty_window (example_sim #2 #3 #0)
           (Q2R 2) (Q2R 3)).
  - reflexivity.
  - reflexivity.
  - q2r. lra.
Defined.


Lemma built_lyman_alpha_sim_witness :
  (Some "hm"%string = Some "hm"%string \/
   Some "hm"%string = Some "fg"%string \/
   Some "hm"%string = Some "sh"%string) /\
  SimulationICs.separate_gas
    (@example_sim binary64 #99 #0 #0)%num = true.
Proof.
  apply (built_lyman_alpha_sim (A := binary64) (fun _ => Done tt)
           None None None None (Some "hm"%string)
           (@example_sim binary64 #99 #0 #0)%num).
  vm_compute. reflexivity.
Defined.

Lemma massive_neutrinos_stop_cambfile_witness :
  SimulationICs.cambfile (A := binary64) (Done [])
    (fun _ _ => EmptyString) (fun _ _ _ => Done EmptyString)
    (@example_sim binary64 #99 #0 #0.3)%num
  = Fail TypeError.
Proof.
  eapply (proj2 (massive_neutrinos_stop_cambfile (A := binary64) (Done [])
                   (fun _ _ => EmptyString)
                   (fun _ _ _ => Done EmptyString)
                   (@example_sim binary64 #99 #0 #0.3)%num
                   ltac:(vm_compute; reflexivity))).
  - reflexivity.
  - vm_compute. reflexivity.
  - vm_compute. reflexivity.
Defined.
